(** * vector-mcp: the asynchronous indexing pipeline

    A shallow embedding of the indexing core of the repository:
    - [Chunker]: [FileIndexer.chunkContent] (utils/indexer),
    - [Store]: [MongoVectorStore] over an in-memory collection, with
      [cosineSimilarity] and [search] (utils/vector-store/mongovs.js),
    - [Indexer]: [FileIndexer.indexDirectory] and [isTextFile],
    - [Jobs]: [JobManager] (utils/jobs/manager.js),
    - [Embedding]: [OllamaEmbedding.hashString],
    - [Logger]: [Logger.getRecentLogs] (utils/logger/logger.js).

    JavaScript strings are modelled as [string] (code units below 256),
    counters and line numbers as [nat], character counts and millisecond
    time values as [Z], progress percentages as exact rationals [Q], and
    embedding components as binary64 floats. An object used as a map is
    the finite map of its own keys. The file system, the digest, the
    embedding provider and the failures of the database are the fields
    of an [Indexer.World]; the system clock is the sequence of its
    readings.

    The definitions come first; the properties of the chunker, of the
    search and the store, of the indexing run, of the job coordinator
    and of the helpers follow. *)

From Stdlib Require Import ZArith QArith Qminmax Lia List String Ascii DecimalString.
From Stdlib Require Import DecimalFacts DecimalNat.
From Stdlib Require Import Floats.PrimFloat.
From stdpp Require Import base list strings gmap sorting.

Open Scope string_scope.
Open Scope Z_scope.

(** ** Shared helpers *)

(** The line feed, the only escape the source strings use. *)
Definition nl : string := String (ascii_of_nat 10) "".

(** [s.length] *)
Definition strlen (s : string) : Z := Z.of_nat (String.length s).

(** Template-string interpolation of a non-negative integer. *)
Definition show_nat (n : nat) : string := NilZero.string_of_uint (Nat.to_uint n).

(** [arr.join(sep)] *)
Fixpoint join (sep : string) (l : list string) : string :=
  match l with
  | [] => ""
  | [x] => x
  | x :: rest => x ++ sep ++ join sep rest
  end.

(** A JavaScript call either returns a value or throws an error whose
    [message] is recorded. *)
Inductive outcome (A : Type) : Type :=
| Ok (a : A)
| Throw (message : string).
Arguments Ok {A} a.
Arguments Throw {A} message.

(** ** chunkContent *)
Module Chunker.

Definition maxChunkSize : Z := 2000.

Record chunk := mkChunk {
  content : string;
  startLine : nat;
  endLine : nat
}.

(** [content.split('\n')] *)
Fixpoint split_lines (s : string) : list string :=
  match s with
  | EmptyString => [""]
  | String c s' =>
      if Ascii.eqb c (ascii_of_nat 10) then "" :: split_lines s'
      else match split_lines s' with
           | [] => [String c ""]
           | l :: ls => String c l :: ls
           end
  end.

(** White space and line terminators stripped by [String.prototype.trim]
    (tab, LF, VT, FF, CR, space, NBSP). *)
Definition is_ws (c : ascii) : bool :=
  let n := nat_of_ascii c in
  (Nat.eqb n 9 || Nat.eqb n 10 || Nat.eqb n 11 || Nat.eqb n 12 ||
   Nat.eqb n 13 || Nat.eqb n 32 || Nat.eqb n 160)%bool.

Fixpoint drop_ws (l : list ascii) : list ascii :=
  match l with
  | [] => []
  | c :: l' => if is_ws c then drop_ws l' else l
  end.

(** [s.trim()] *)
Definition trim (s : string) : string :=
  string_of_list_ascii
    (rev (drop_ws (rev (drop_ws (list_ascii_of_string s))))).

(** Truthiness of a string: non-empty. *)
Definition truthy (s : string) : bool :=
  match s with EmptyString => false | _ => true end.

(** The [for (const line of lines)] loop variables. *)
Record loop := mkLoop {
  chunks : list chunk;
  currentChunk : string;
  l_startLine : nat;
  currentLine : nat
}.

(** The chunk literal pushed when a chunk is closed. *)
Definition close_chunk (filename : string) (st : loop) : chunk :=
  {| content := "File: " ++ filename ++ nl ++ "Lines " ++
                show_nat (l_startLine st) ++ "-" ++
                show_nat (currentLine st - 1) ++ ":" ++ nl ++ nl ++
                currentChunk st;
     startLine := l_startLine st;
     endLine := (currentLine st - 1)%nat |}.

(** One iteration of the loop body. *)
Definition step (filename : string) (st : loop) (line : string) : loop :=
  let st1 :=
    if ((strlen (currentChunk st) + strlen line >? maxChunkSize)
        && (strlen (currentChunk st) >? 0))%bool
    then {| chunks := chunks st ++ [close_chunk filename st];
            currentChunk := "";
            l_startLine := currentLine st;
            currentLine := currentLine st |}
    else st in
  {| chunks := chunks st1;
     currentChunk := currentChunk st1 ++ line ++ nl;
     l_startLine := l_startLine st1;
     currentLine := S (currentLine st1) |}.

Definition init : loop :=
  {| chunks := []; currentChunk := ""; l_startLine := 1; currentLine := 1 |}.

Definition run_loop (filename : string) (lines : list string) : loop :=
  fold_left (step filename) lines init.

(** The chunks gathered by the line-accumulation process: the loop and
    the final push guarded by [currentChunk.trim()]. *)
Definition accumulate (content filename : string) : list chunk :=
  let st := run_loop filename (split_lines content) in
  if truthy (trim (currentChunk st))
  then chunks st ++ [close_chunk filename st]
  else chunks st.

(** The whole-file chunk returned when nothing was accumulated. *)
Definition whole_file (content filename : string) : chunk :=
  {| content := "File: " ++ filename ++ nl ++ nl ++ content;
     startLine := 1;
     endLine := length (split_lines content) |}.

Definition chunkContent (content filename : string) : list chunk :=
  match accumulate content filename with
  | [] => [whole_file content filename]
  | cs => cs
  end.

(** [totalLines]: the number of lines [split] yields. *)
Definition totalLines (content : string) : nat :=
  length (split_lines content).

(** Line ranges that follow one another without gap or overlap, the
    first one starting at line [from]; [covers_to] is the last line
    reached ([from - 1] for no chunk). *)
Fixpoint contiguous (from : nat) (cs : list chunk) : Prop :=
  match cs with
  | [] => True
  | c :: rest =>
      startLine c = from /\ (startLine c <= endLine c)%nat /\
      contiguous (S (endLine c)) rest
  end.

Fixpoint covers_to (from : nat) (cs : list chunk) : nat :=
  match cs with
  | [] => (from - 1)%nat
  | c :: rest => covers_to (S (endLine c)) rest
  end.

(** A line made of white space only. *)
Definition blank (s : string) : bool :=
  forallb is_ws (list_ascii_of_string s).

Fixpoint repeat_char (n : nat) (c : ascii) : string :=
  match n with
  | O => ""
  | S n' => String c (repeat_char n' c)
  end.

(** *** The accumulation loop, line by line *)

(** [currentChunk] after the loop, as the lines of the group still open,
    each followed by a line feed. *)
Fixpoint concat_lines (ls : list string) : string :=
  match ls with
  | [] => ""
  | l :: rest => l ++ nl ++ concat_lines rest
  end.

(** The loop invariant after the lines [done]. *)
Record inv (done : list string) (st : loop) : Prop := {
  inv_line : currentLine st = S (length done);
  inv_contig : contiguous 1 (chunks st);
  inv_start : l_startLine st = S (covers_to 1 (chunks st));
  inv_le : (l_startLine st <= currentLine st)%nat;
  inv_cur : currentChunk st = concat_lines (drop (l_startLine st - 1) done)
}.

(** *** The text of a chunk *)

(** The header the chunk literal puts before the accumulated lines. *)
Definition header (filename : string) (a b : nat) : string :=
  "File: " ++ filename ++ nl ++ "Lines " ++ show_nat a ++ "-" ++ show_nat b ++
  ":" ++ nl ++ nl.

(** The lines [a] to [b] of a file, counted from 1. *)
Definition lines_between (ls : list string) (a b : nat) : list string :=
  take (b - (a - 1)) (drop (a - 1) ls).

(** What holds of a chunk once [done] lines were read. *)
Definition chunk_ok (filename : string) (done : list string) (c : chunk) : Prop :=
  (endLine c <= length done)%nat /\
  content c = header filename (startLine c) (endLine c)
              ++ concat_lines (lines_between done (startLine c) (endLine c)) /\
  (startLine c = endLine c \/
   strlen (concat_lines (lines_between done (startLine c) (endLine c)))
   <= maxChunkSize + 1).

(** The group still open: one line, or at most one character more than
    the ceiling. *)
Definition group_ok (st : loop) : Prop :=
  (currentLine st - l_startLine st <= 1)%nat \/
  strlen (currentChunk st) <= maxChunkSize + 1.

End Chunker.

(** ** MongoVectorStore over an in-memory collection *)
Module Store.

(** The [metadata] sub-document the indexer attaches to every chunk. *)
Record metadata := mkMetadata {
  fileSize : Z;
  fileType : string;
  lastModified : Z;
  contentHash : string;
  startLine : nat;
  endLine : nat
}.

(** The [embedding] field of a stored document: absent, [null], or an
    array of numbers. *)
Inductive embedding_field :=
| NoField
| NullField
| Vec (v : list float).

(** A document as handed to [addDocuments]. *)
Record document := mkDocument {
  projectId : string;
  filePath : string;
  chunkIndex : nat;
  totalChunks : nat;
  content : string;
  embedding : list float;
  meta : metadata
}.

(** A document of the collection ([createdAt] is not modelled). *)
Record stored := mkStored {
  _id : nat;
  s_projectId : string;
  s_filePath : string;
  s_chunkIndex : nat;
  s_totalChunks : nat;
  s_content : string;
  s_embedding : embedding_field;
  s_metadata : metadata
}.

(** A [project_metadata] record (its timestamps are not modelled). *)
Record project_meta := mkProjectMeta {
  directoryPath : string;
  excludePatterns : list string
}.

Record store := mkStore {
  collection : list stored;
  next_id : nat;
  project_metadata : gmap string project_meta
}.

Definition empty_store : store :=
  {| collection := []; next_id := 0; project_metadata := ∅ |}.

(** The entry of [toInsert] built for [doc], with a fresh [_id]; the
    documents of the indexer carry no [id] and no [text], and a
    [content] that is never empty. *)
Definition to_insert (id : nat) (doc : document) : stored :=
  {| _id := id;
     s_projectId := projectId doc;
     s_filePath := filePath doc;
     s_chunkIndex := chunkIndex doc;
     s_totalChunks := if Nat.eqb (totalChunks doc) 0 then 1%nat else totalChunks doc;
     s_content := content doc;
     s_embedding := Vec (embedding doc);
     s_metadata := meta doc |}.

Definition addDocuments (docs : list document) (s : store) : store :=
  {| collection := collection s ++ imap (fun i d => to_insert (next_id s + i) d) docs;
     next_id := (next_id s + length docs)%nat;
     project_metadata := project_metadata s |}.

(** The filter [{ projectId, filePath }]. *)
Definition matches (pid path : string) (d : stored) : Prop :=
  s_projectId d = pid /\ s_filePath d = path.

Global Instance matches_dec pid path d : Decision (matches pid path d).
Proof. unfold matches. apply _. Defined.

(** [removeFileChunks]: [deleteMany] and its [deletedCount]. *)
Definition removeFileChunks (pid path : string) (s : store) : nat * store :=
  (length (filter (matches pid path) (collection s)),
   {| collection := filter (fun d => ~ matches pid path d) (collection s);
      next_id := next_id s;
      project_metadata := project_metadata s |}).

(** The per-file record of the snapshot returned by [getExistingFiles]. *)
Record file_record := mkFileRecord {
  fr_fileSize : Z;
  fr_lastModified : Z;
  fr_contentHash : string
}.

(** [getExistingFiles]: the [$match]/[$group] pipeline keeps, for each
    file path of the project, the fields of the first document met. *)
Definition getExistingFiles (pid : string) (s : store) : gmap string file_record :=
  fold_left
    (fun (fileMap : gmap string file_record) d =>
       if decide (s_projectId d = pid) then
         match fileMap !! s_filePath d with
         | Some _ => fileMap
         | None =>
             <[ s_filePath d :=
                  {| fr_fileSize := fileSize (s_metadata d);
                     fr_lastModified := lastModified (s_metadata d);
                     fr_contentHash := contentHash (s_metadata d) |} ]> fileMap
         end
       else fileMap)
    (collection s) ∅.

Record project_stats := mkProjectStats {
  ps_projectId : string;
  totalDocuments : nat;
  totalFiles : nat;
  files : list string
}.

(** [getProjectStats]: [countDocuments] and [distinct('filePath')]. *)
Definition getProjectStats (pid : string) (s : store) : project_stats :=
  let docs := filter (fun d => s_projectId d = pid) (collection s) in
  let fs := remove_dups (map s_filePath docs) in
  {| ps_projectId := pid;
     totalDocuments := length docs;
     totalFiles := length fs;
     files := fs |}.

(** [saveProjectMetadata]: upsert keyed by [projectId]. *)
Definition saveProjectMetadata (pid dir : string) (excl : list string) (s : store) : store :=
  {| collection := collection s;
     next_id := next_id s;
     project_metadata :=
       <[ pid := {| directoryPath := dir; excludePatterns := excl |} ]> (project_metadata s) |}.

(** *** Similarity search *)

(** [arr.reduce((sum, v, i) => f(sum, v, i), init)] *)
Fixpoint reduce_from (f : float -> float -> nat -> float) (i : nat)
    (l : list float) (sum : float) : float :=
  match l with
  | [] => sum
  | v :: rest => reduce_from f (S i) rest (f sum v i)
  end.

Definition reduce (f : float -> float -> nat -> float) (l : list float) (init : float) : float :=
  reduce_from f 0 l init.

(** [b[i]]; reading past the end yields [undefined], a NaN in arithmetic. *)
Definition at_index (b : list float) (i : nat) : float := nth i b PrimFloat.nan.

(** [cosineSimilarity(a, b)]; [None] is a missing ([null]/[undefined])
    vector. *)
Definition cosineSimilarity (a b : option (list float)) : float :=
  match a, b with
  | Some a, Some b =>
      if negb (Nat.eqb (length a) (length b)) then PrimFloat.zero
      else
        let dot := reduce (fun sum v i => PrimFloat.add sum (PrimFloat.mul v (at_index b i))) a PrimFloat.zero in
        let normA := PrimFloat.sqrt (reduce (fun sum v _ => PrimFloat.add sum (PrimFloat.mul v v)) a PrimFloat.zero) in
        let normB := PrimFloat.sqrt (reduce (fun sum v _ => PrimFloat.add sum (PrimFloat.mul v v)) b PrimFloat.zero) in
        PrimFloat.div dot (PrimFloat.mul normA normB)
  | _, _ => PrimFloat.zero
  end.

(** The value read from [doc.embedding]. *)
Definition embedding_value (e : embedding_field) : option (list float) :=
  match e with
  | Vec v => Some v
  | _ => None
  end.

Record search_result := mkSearchResult {
  id : nat;
  sr_projectId : string;
  sr_filePath : string;
  sr_content : string;
  sr_metadata : metadata;
  score : float
}.

(** The filter [{ embedding: { $exists: true } }], narrowed to
    [projectId] when it is truthy. *)
Definition search_filter (projectId : option string) (d : stored) : bool :=
  (match s_embedding d with NoField => false | _ => true end) &&
  (match projectId with
   | Some pid => if Chunker.truthy pid then bool_decide (s_projectId d = pid) else true
   | None => true
   end).

Definition scored_of (queryEmbedding : option (list float)) (doc : stored) : search_result :=
  {| id := _id doc;
     sr_projectId := s_projectId doc;
     sr_filePath := s_filePath doc;
     sr_content := s_content doc;
     sr_metadata := s_metadata doc;
     score := cosineSimilarity queryEmbedding (embedding_value (s_embedding doc)) |}.

(** [scored.sort((a, b) => b.score - a.score)] as a stable insertion
    sort: [x] moves in front of [y] only when the comparator is positive
    on [(y, x)]. *)
Fixpoint insert_by_score (x : search_result) (l : list search_result) : list search_result :=
  match l with
  | [] => [x]
  | y :: rest =>
      if PrimFloat.ltb PrimFloat.zero (PrimFloat.sub (score x) (score y))
      then x :: l
      else y :: insert_by_score x rest
  end.

Definition sort_by_score (l : list search_result) : list search_result :=
  fold_left (fun acc x => insert_by_score x acc) l [].

(** [arr.slice(0, end)]: a negative [end] counts from the end of the
    array. *)
Definition slice0 {A} (l : list A) (end_ : Z) : list A :=
  let len := Z.of_nat (length l) in
  let final := if end_ <? 0 then Z.max (len + end_) 0 else Z.min end_ len in
  take (Z.to_nat final) l.

(** [search(queryEmbedding, topK = 3, projectId = null)] *)
Definition search (queryEmbedding : option (list float)) (topK : option Z)
    (projectId : option string) (s : store) : list search_result :=
  let topK := match topK with Some k => k | None => 3 end in
  let allDocs := List.filter (search_filter projectId) (collection s) in
  let scored := map (scored_of queryEmbedding) allDocs in
  slice0 (sort_by_score scored) topK.

(** The documents [find(filter)] returns. *)
Definition matched (projectId : option string) (s : store) : list stored :=
  List.filter (search_filter projectId) (collection s).

(** The snapshot record read off one stored chunk. *)
Definition record_of (d : stored) : file_record :=
  {| fr_fileSize := fileSize (s_metadata d);
     fr_lastModified := lastModified (s_metadata d);
     fr_contentHash := contentHash (s_metadata d) |}.

(** *** Projects *)

(** [getProjectMetadata]: [findOne({ projectId })] on the metadata
    collection, [null] when the project has no record. *)
Definition getProjectMetadata (pid : string) (s : store) : option project_meta :=
  project_metadata s !! pid.

(** [deleteProject]: [deleteMany({ projectId })] on the documents,
    [deleteOne({ projectId })] on the metadata; the [deletedCount] of the
    documents is returned. *)
Definition deleteProject (pid : string) (s : store) : nat * store :=
  (length (filter (fun d => s_projectId d = pid) (collection s)),
   {| collection := filter (fun d => s_projectId d <> pid) (collection s);
      next_id := next_id s;
      project_metadata := delete pid (project_metadata s) |}).

(** An entry of the list [getProjects] returns (its timestamps are not
    modelled); [directoryPath] is [null] for a project without metadata
    record. *)
Record project_info := mkProjectInfo {
  pi_projectId : string;
  documentCount : nat;
  pi_directoryPath : option string;
  pi_excludePatterns : list string
}.

(** [countDocuments({ projectId })] *)
Definition countDocuments (pid : string) (s : store) : nat :=
  length (filter (fun d => s_projectId d = pid) (collection s)).

(** [getProjects]: one entry per metadata record when there is any,
    otherwise one entry per distinct [projectId] of the documents. The
    entries come in the order of the keys, not in that of the
    collection. *)
Definition getProjects (s : store) : list project_info :=
  let projectMetadata := map_to_list (project_metadata s) in
  if Nat.ltb 0 (length projectMetadata) then
    map (fun m : string * project_meta =>
           {| pi_projectId := m.1;
              documentCount := countDocuments m.1 s;
              pi_directoryPath := Some (directoryPath m.2);
              pi_excludePatterns := excludePatterns m.2 |})
        projectMetadata
  else
    map (fun pid =>
           {| pi_projectId := pid;
              documentCount := countDocuments pid s;
              pi_directoryPath := None;
              pi_excludePatterns := [] |})
        (remove_dups (map s_projectId (collection s))).

End Store.

(** ** FileIndexer *)
Module Indexer.

(** [this.defaultExcludes] *)
Definition defaultExcludes : list string :=
  [ "node_modules/**"; "dist/**"; "build/**"; ".git/**"; ".next/**";
    ".nuxt/**"; "coverage/**"; "*.log"; "*.tmp"; "*.temp"; ".DS_Store";
    "Thumbs.db"; "*.min.js"; "*.min.css"; "package-lock.json"; "yarn.lock";
    "pnpm-lock.yaml"; ".env*"; "target/**"; "bin/**"; "obj/**" ].

Definition textExtensions : list string :=
  [ ".js"; ".ts"; ".jsx"; ".tsx"; ".py"; ".java"; ".c"; ".cpp"; ".h"; ".hpp";
    ".cs"; ".php"; ".rb"; ".go"; ".rs"; ".swift"; ".kt"; ".scala"; ".clj";
    ".r"; ".R"; ".m"; ".pl";
    ".html"; ".css"; ".scss"; ".sass"; ".less"; ".vue"; ".svelte"; ".astro";
    ".xml"; ".json"; ".yaml"; ".yml"; ".toml"; ".ini"; ".conf"; ".config";
    ".md"; ".txt"; ".sql";
    ".sh"; ".bash"; ".zsh"; ".fish"; ".ps1"; ".bat";
    ".dockerfile"; ".gitignore"; ".env.example"; ".lock" ].

(** Node's [path.extname] on a path that names a file: the suffix of the
    last path segment from its last dot, a dot in first position of the
    segment not counting. *)
Fixpoint basename_from (l acc : list ascii) : list ascii :=
  match l with
  | [] => acc
  | c :: rest =>
      if Ascii.eqb c "/" then basename_from rest [] else basename_from rest (acc ++ [c])
  end.

Fixpoint last_dot_suffix (l : list ascii) : option (list ascii) :=
  match l with
  | [] => None
  | c :: rest =>
      match last_dot_suffix rest with
      | Some s => Some s
      | None => if Ascii.eqb c "." then Some l else None
      end
  end.

Definition extname (p : string) : string :=
  match basename_from (list_ascii_of_string p) [] with
  | [] => ""
  | _ :: rest =>
      match last_dot_suffix rest with
      | Some s => string_of_list_ascii s
      | None => ""
      end
  end.

(** [s.toLowerCase()] on code units below 256. *)
Definition lower_char (c : ascii) : ascii :=
  let n := nat_of_ascii c in
  if (Nat.leb 65 n && Nat.leb n 90)%bool then ascii_of_nat (n + 32)
  else if (Nat.leb 192 n && Nat.leb n 222 && negb (Nat.eqb n 215))%bool
       then ascii_of_nat (n + 32)
       else c.

Definition toLowerCase (s : string) : string :=
  string_of_list_ascii (map lower_char (list_ascii_of_string s)).

Definition isTextFile (filename : string) : bool :=
  let ext := toLowerCase (extname filename) in
  existsb (String.eqb ext) textExtensions || negb (Chunker.truthy (extname filename)).

(** [path.join(dirPath, file)] for a directory and a relative file
    path. *)
Definition path_join (dirPath file : string) : string := dirPath ++ "/" ++ file.

(** The calls on the document store that can reject. *)
Inductive db_op :=
| OpGetExistingFiles (projectId : string)
| OpRemoveFileChunks (projectId filePath : string)
| OpAddDocuments
| OpSaveProjectMetadata (projectId : string).

(** The collaborators of the indexer: the [glob] walk for a directory
    and an ignore list, the file system, the MD5 digest, the embedding
    provider, and the faults of the database. *)
Record World := mkWorld {
  glob : string -> list string -> outcome (list string);
  stat_mtime : string -> outcome Z;
  readFile : string -> outcome string;
  md5_hex : string -> string;
  getEmbedding : string -> outcome (list float);
  db_error : db_op -> option string
}.

Inductive level := info | success | warn | error.

(** What [logMethod] and [updateProgress] forward: to the job manager
    when the run is job-aware, to the server logger otherwise. *)
Inductive event :=
| JobLog (message : string) (lvl : level)
| JobProgress (progress : Q) (message : string)
| LoggerInfo (message : string).

(** The vector store and the local variables of [indexDirectory]. *)
Record state := mkState {
  store : Store.store;
  sink : list event;
  documents : list Store.document;
  processed : nat;
  skipped : nat;
  updated : nat;
  added : nat;
  deleted : nat;
  currentFiles : gset string;
  fileIndex : nat
}.

Definition init_state (s : Store.store) : state :=
  {| store := s; sink := []; documents := []; processed := 0; skipped := 0;
     updated := 0; added := 0; deleted := 0; currentFiles := ∅; fileIndex := 0 |}.

Definition emit (e : event) (st : state) : state :=
  mkState (store st) (sink st ++ [e]) (documents st) (processed st) (skipped st)
          (updated st) (added st) (deleted st) (currentFiles st) (fileIndex st).
Definition set_store (s : Store.store) (st : state) : state :=
  mkState s (sink st) (documents st) (processed st) (skipped st)
          (updated st) (added st) (deleted st) (currentFiles st) (fileIndex st).
Definition push_document (d : Store.document) (st : state) : state :=
  mkState (store st) (sink st) (documents st ++ [d]) (processed st) (skipped st)
          (updated st) (added st) (deleted st) (currentFiles st) (fileIndex st).
Definition incr_processed (st : state) : state :=
  mkState (store st) (sink st) (documents st) (S (processed st)) (skipped st)
          (updated st) (added st) (deleted st) (currentFiles st) (fileIndex st).
Definition incr_skipped (st : state) : state :=
  mkState (store st) (sink st) (documents st) (processed st) (S (skipped st))
          (updated st) (added st) (deleted st) (currentFiles st) (fileIndex st).
Definition incr_updated (st : state) : state :=
  mkState (store st) (sink st) (documents st) (processed st) (skipped st)
          (S (updated st)) (added st) (deleted st) (currentFiles st) (fileIndex st).
Definition incr_added (st : state) : state :=
  mkState (store st) (sink st) (documents st) (processed st) (skipped st)
          (updated st) (S (added st)) (deleted st) (currentFiles st) (fileIndex st).
Definition incr_deleted (st : state) : state :=
  mkState (store st) (sink st) (documents st) (processed st) (skipped st)
          (updated st) (added st) (S (deleted st)) (currentFiles st) (fileIndex st).
Definition add_currentFile (f : string) (st : state) : state :=
  mkState (store st) (sink st) (documents st) (processed st) (skipped st)
          (updated st) (added st) (deleted st) ({[ f ]} ∪ currentFiles st) (fileIndex st).
Definition incr_fileIndex (st : state) : state :=
  mkState (store st) (sink st) (documents st) (processed st) (skipped st)
          (updated st) (added st) (deleted st) (currentFiles st) (S (fileIndex st)).

(** Computations of the indexer: they thread [state] and may throw; what
    was mutated before a throw stays mutated. *)
Definition M (A : Type) : Type := state -> state * outcome A.

Global Instance M_ret : MRet M := fun A (a : A) st => (st, Ok a).
Global Instance M_bind : MBind M := fun A B (k : A -> M B) (m : M A) st =>
  match m st with
  | (st', Ok a) => k a st'
  | (st', Throw e) => (st', Throw e)
  end.

Definition throw {A} (msg : string) : M A := fun st => (st, Throw msg).
Definition lift {A} (r : outcome A) : M A := fun st => (st, r).
Definition modify (f : state -> state) : M unit := fun st => (f st, Ok tt).
Definition gets {A} (f : state -> A) : M A := fun st => (st, Ok (f st)).

(** A call that reads and replaces the collection. *)
Definition on_store {A} (f : Store.store -> A * Store.store) : M A := fun st =>
  (set_store (snd (f (store st))) st, Ok (fst (f (store st)))).

(** [try { m } catch (error) { h(error.message) }] *)
Definition try_catch {A} (m : M A) (h : string -> M A) : M A := fun st =>
  match m st with
  | (st', Throw e) => h e st'
  | r => r
  end.

(** [for (const x of l) { body(x) }] *)
Fixpoint for_each {A} (l : list A) (body : A -> M unit) : M unit :=
  match l with
  | [] => mret tt
  | x :: rest => body x ;; for_each rest body
  end.

(** The statistics returned by a run. *)
Record delta_stats := mkDeltaStats {
  ds_skipped : nat;
  ds_updated : nat;
  ds_added : nat;
  ds_deleted : nat;
  ds_total : nat
}.

Record index_result := mkResult {
  r_success : bool;
  filesProcessed : nat;
  chunksIndexed : nat;
  r_projectId : string;
  filesTotal : nat;
  deltaStats : option delta_stats
}.

(** The unchanged test of the delta decision. *)
Definition is_unchanged (existing : Store.file_record) (contentHash : string)
    (size mtime : Z) : bool :=
  String.eqb (Store.fr_contentHash existing) contentHash
  && (Store.fr_fileSize existing =? size)
  && (mtime <=? Store.fr_lastModified existing).

(** [startProgress + (fileIndex / totalFiles) * (endProgress - startProgress)] *)
Definition file_progress (startProgress : Z) (fileIndex totalFiles : nat) : Q :=
  (inject_Z startProgress
   + (inject_Z (Z.of_nat fileIndex) / inject_Z (Z.of_nat totalFiles))
     * inject_Z (85 - startProgress))%Q.

Section Run.
Context (w : World) (projectId : string) (deltaOnly tracked : bool).

Definition logMethod (msg : string) (lvl : level) : M unit :=
  modify (emit (if tracked then JobLog msg lvl else LoggerInfo msg)).

Definition updateProgress (progress : Q) (msg : string) : M unit :=
  if tracked then modify (emit (JobProgress progress msg)) else mret tt.

(** A call that reaches the database and rejects when the database
    does. *)
Definition db_call (op : db_op) : M unit := fun st =>
  match db_error w op with
  | Some e => (st, Throw e)
  | None => (st, Ok tt)
  end.

Definition removeFileChunks (file : string) : M nat :=
  db_call (OpRemoveFileChunks projectId file) ;;
  on_store (Store.removeFileChunks projectId file).

Definition addDocuments (docs : list Store.document) : M unit :=
  db_call OpAddDocuments ;;
  modify (fun st => set_store (Store.addDocuments docs (store st)) st).

Definition saveProjectMetadata (dir : string) (excl : list string) : M unit :=
  db_call (OpSaveProjectMetadata projectId) ;;
  modify (fun st => set_store (Store.saveProjectMetadata projectId dir excl (store st)) st).

Definition getExistingFiles : M (gmap string Store.file_record) :=
  db_call (OpGetExistingFiles projectId) ;;
  gets (fun st => Store.getExistingFiles projectId (store st)).

(** The object literal pushed on [documents] for chunk [i] of a file. *)
Definition make_document (file content contentHash : string) (fileModTime : Z)
    (total i : nat) (chunk : Chunker.chunk) (embedding : list float) : Store.document :=
  {| Store.projectId := projectId;
     Store.filePath := file;
     Store.chunkIndex := i;
     Store.totalChunks := total;
     Store.content := Chunker.content chunk;
     Store.embedding := embedding;
     Store.meta :=
       {| Store.fileSize := strlen content;
          Store.fileType := extname file;
          Store.lastModified := fileModTime;
          Store.contentHash := contentHash;
          Store.startLine := Chunker.startLine chunk;
          Store.endLine := Chunker.endLine chunk |} |}.

(** The embedding loop over the chunks of one file, from index [i]. *)
Fixpoint embed_chunks (file content contentHash : string) (fileModTime : Z)
    (total i : nat) (chunks : list Chunker.chunk) : M unit :=
  match chunks with
  | [] => mret tt
  | chunk :: rest =>
      embedding ← lift (getEmbedding w (Chunker.content chunk));
      modify (push_document
        (make_document file content contentHash fileModTime total i chunk embedding)) ;;
      embed_chunks file content contentHash fileModTime total (S i) rest
  end.

(** The delta decision; [false] stands for the [continue] of an
    unchanged file. [existingFiles] is the map of the own keys of the
    object that [getExistingFiles] built. *)
Definition delta_decision (existingFiles : gmap string Store.file_record)
    (file contentHash : string) (size fileModTime : Z) : M bool :=
  match (if deltaOnly then existingFiles !! file else None) with
  | Some existing =>
      if is_unchanged existing contentHash size fileModTime
      then modify incr_skipped ;; mret false
      else removeFileChunks file ;; modify incr_updated ;; mret true
  | None =>
      if deltaOnly then modify incr_added ;; mret true else mret true
  end.

(** The [try] block of one iteration of the walk. *)
Definition process_text_file (dirPath : string)
    (existingFiles : gmap string Store.file_record)
    (totalFiles : nat) (startProgress : Z) (file : string) : M unit :=
  if isTextFile file then
    modify incr_fileIndex ;;
    fileModTime ← lift (stat_mtime w (path_join dirPath file));
    content ← lift (readFile w (path_join dirPath file));
    if strlen content >? 1024 * 1024 then
      logMethod ("Skipping large file: " ++ file) warn
    else
      let contentHash := md5_hex w content in
      proceed ← delta_decision existingFiles file contentHash (strlen content) fileModTime;
      if proceed : bool then
        let chunks := Chunker.chunkContent content file in
        embed_chunks file content contentHash fileModTime (length chunks) 0 chunks ;;
        modify incr_processed ;;
        st ← gets (fun st => st);
        updateProgress (file_progress startProgress (fileIndex st) totalFiles)
          ("Processed " ++ show_nat (processed st) ++ "/" ++ show_nat totalFiles ++ " files") ;;
        if Nat.eqb (processed st mod 10) 0 then
          logMethod ("Processed " ++ show_nat (processed st) ++ "/" ++ show_nat totalFiles ++ " files") info
        else mret tt
      else mret tt
  else mret tt.

(** One iteration of [for (const file of files)]. *)
Definition process_file (dirPath : string)
    (existingFiles : gmap string Store.file_record)
    (totalFiles : nat) (startProgress : Z) (file : string) : M unit :=
  modify (add_currentFile file) ;;
  try_catch
    (process_text_file dirPath existingFiles totalFiles startProgress file)
    (fun message => logMethod ("Error processing file " ++ file ++ ": " ++ message) error).

(** [Object.keys(existingFiles).filter(f => !currentFiles.has(f))] *)
Definition deletedFiles (existingFiles : gmap string Store.file_record)
    (current : gset string) : list string :=
  filter (fun f => f ∉ current) (map_to_list existingFiles).*1.

(** The body of the loop over the deleted files. *)
Definition purge_deleted (deletedFile : string) : M unit :=
  removeFileChunks deletedFile ;; modify incr_deleted.

(** The deletion pass of delta mode. *)
Definition remove_deleted (existingFiles : gmap string Store.file_record) : M unit :=
  if deltaOnly then
    updateProgress (inject_Z 87) "Checking for deleted files..." ;;
    current ← gets currentFiles;
    for_each (deletedFiles existingFiles current) purge_deleted ;;
    n ← gets deleted;
    if Nat.ltb 0 n then
      logMethod ("Removed " ++ show_nat n ++ " deleted files from index") info
    else mret tt
  else mret tt.

(** Loading the snapshot of delta mode. *)
Definition load_existing : M (gmap string Store.file_record) :=
  if deltaOnly then
    existing ← getExistingFiles;
    logMethod ("Found " ++ show_nat (size existing) ++ " existing files in index") info ;;
    updateProgress (inject_Z 15) "Loaded existing file metadata" ;;
    mret existing
  else mret ∅.

(** The bulk insert of the pending batch. *)
Definition save_documents : M unit :=
  docs ← gets documents;
  if Nat.ltb 0 (length docs) then
    updateProgress (inject_Z 90) "Saving documents to database..." ;;
    addDocuments docs ;;
    logMethod ("Successfully indexed " ++ show_nat (length docs) ++
               " document chunks for project " ++ projectId) success
  else mret tt.

(** The result object and its delta statistics. *)
Definition build_result (totalFiles : nat) : M index_result :=
  st ← gets (fun st => st);
  if deltaOnly then
    logMethod ("Delta stats: " ++ show_nat (skipped st) ++ " skipped, " ++
               show_nat (updated st) ++ " updated, " ++ show_nat (added st) ++
               " added, " ++ show_nat (deleted st) ++ " deleted") success ;;
    mret {| r_success := true;
            filesProcessed := processed st;
            chunksIndexed := length (documents st);
            r_projectId := projectId;
            filesTotal := totalFiles;
            deltaStats := Some {| ds_skipped := skipped st;
                                  ds_updated := updated st;
                                  ds_added := added st;
                                  ds_deleted := deleted st;
                                  ds_total := totalFiles |} |}
  else
    mret {| r_success := true;
            filesProcessed := processed st;
            chunksIndexed := length (documents st);
            r_projectId := projectId;
            filesTotal := totalFiles;
            deltaStats := None |}.

(** The outer [try] block. *)
Definition index_body (dirPath : string) (excludePatterns : list string) : M index_result :=
  let allExcludes := (defaultExcludes ++ excludePatterns)%list in
  updateProgress (inject_Z 5) "Scanning directory..." ;;
  files ← lift (glob w dirPath allExcludes);
  let textFiles := List.filter isTextFile files in
  logMethod ("Found " ++ show_nat (length files) ++ " files, " ++
             show_nat (length textFiles) ++ " text files to " ++
             (if deltaOnly then "check for changes" else "index")) info ;;
  updateProgress (inject_Z 10)
    ("Found " ++ show_nat (length textFiles) ++ " files to process") ;;
  existingFiles ← load_existing;
  let totalFiles := length textFiles in
  let startProgress := if deltaOnly then 20 else 15 in
  for_each files (process_file dirPath existingFiles totalFiles startProgress) ;;
  remove_deleted existingFiles ;;
  save_documents ;;
  updateProgress (inject_Z 95) "Saving project metadata..." ;;
  saveProjectMetadata dirPath excludePatterns ;;
  updateProgress (inject_Z 100) "Indexing completed successfully" ;;
  build_result totalFiles.

Definition index_run (dirPath : string) (excludePatterns : list string) : M index_result :=
  let allExcludes := (defaultExcludes ++ excludePatterns)%list in
  logMethod ("Starting " ++ (if deltaOnly then "delta " else "") ++
             "indexing for project: " ++ projectId) info ;;
  logMethod ("Directory: " ++ dirPath) info ;;
  logMethod ("Excluding: " ++ join ", " allExcludes) info ;;
  try_catch (index_body dirPath excludePatterns)
    (fun message =>
       logMethod ("Error during indexing: " ++ message) error ;;
       throw message).

End Run.

(** [indexDirectory(dirPath, projectId, excludePatterns, deltaOnly, jobId)]
    run against the store [s]; [tracked] tells whether a job id was
    passed and the indexer holds a job manager. *)
Definition indexDirectory (w : World) (dirPath projectId : string)
    (excludePatterns : list string) (deltaOnly tracked : bool)
    (s : Store.store) : state * outcome index_result :=
  index_run w projectId deltaOnly tracked dirPath excludePatterns (init_state s).

(** *** The run in closed form *)
Section Terms.
Context (w : World) (pid : string).

(** The documents the loop pushes, and how it ends. *)
Fixpoint embedded (file content contentHash : string) (fileModTime : Z)
    (total i : nat) (chunks : list Chunker.chunk) : list Store.document * outcome unit :=
  match chunks with
  | [] => ([], Ok tt)
  | chunk :: rest =>
      match getEmbedding w (Chunker.content chunk) with
      | Throw msg => ([], Throw msg)
      | Ok e =>
          let r := embedded file content contentHash fileModTime total (S i) rest in
          (make_document pid file content contentHash fileModTime total i chunk e :: r.1, r.2)
      end
  end.

Definition push_documents (ds : list Store.document) (st : state) : state :=
  mkState (store st) (sink st) (documents st ++ ds) (processed st) (skipped st)
          (updated st) (added st) (deleted st) (currentFiles st) (fileIndex st).

(** The three ways the delta decision counts a file. A file reaches the
    decision when it is a text file whose [stat] and read succeed and
    whose content is at most 1 MiB ([admissible]); [verdict_of] is the
    branch taken, none when the purge of an updated file is rejected. *)
Inductive verdict := Unchanged | Updated | Added.

Global Instance verdict_eq_dec : EqDecision verdict.
Proof. solve_decision. Defined.

Definition admissible (dirPath file : string) : option (Z * string) :=
  if isTextFile file then
    match stat_mtime w (path_join dirPath file), readFile w (path_join dirPath file) with
    | Ok mtime, Ok content =>
        if strlen content >? 1024 * 1024 then None else Some (mtime, content)
    | _, _ => None
    end
  else None.

Definition verdict_of (existing : gmap string Store.file_record)
    (dirPath file : string) : option verdict :=
  match admissible dirPath file with
  | Some (mtime, content) =>
      match existing !! file with
      | Some e =>
          if is_unchanged e (md5_hex w content) (strlen content) mtime
          then Some Unchanged
          else match db_error w (OpRemoveFileChunks pid file) with
               | None => Some Updated
               | Some _ => None
               end
      | None => Some Added
      end
  | None => None
  end.

Definition count_if (P : Prop) `{Decision P} : nat := if decide P then 1 else 0.

(** A stored chunk of this project whose file is one of [paths]. *)
Definition purged_by (paths : list string) (d : Store.stored) : Prop :=
  Store.s_projectId d = pid /\ Store.s_filePath d ∈ paths.

Global Instance purged_by_dec paths d : Decision (purged_by paths d).
Proof. unfold purged_by. apply _. Defined.

Definition with_verdict (v : verdict) (existing : gmap string Store.file_record)
    (dirPath : string) (files : list string) : list string :=
  filter (fun g => verdict_of existing dirPath g = Some v) files.

(** The documents one iteration of a delta walk pushes for a file: those
    its embedding loop produced when the file is updated or added, none
    otherwise. *)
Definition file_documents (existing : gmap string Store.file_record)
    (dirPath file : string) : list Store.document :=
  match admissible dirPath file, verdict_of existing dirPath file with
  | Some (mtime, content), Some (Updated | Added) =>
      let chunks := Chunker.chunkContent content file in
      (embedded file content (md5_hex w content) mtime (length chunks) 0 chunks).1
  | _, _ => []
  end.

Record walk_facts (existing : gmap string Store.file_record)
    (dirPath : string) (files : list string) (st st' : state) : Prop := {
  wf_skipped : skipped st' = (skipped st + length (with_verdict Unchanged existing dirPath files))%nat;
  wf_updated : updated st' = (updated st + length (with_verdict Updated existing dirPath files))%nat;
  wf_added : added st' = (added st + length (with_verdict Added existing dirPath files))%nat;
  wf_deleted : deleted st' = deleted st;
  wf_current : currentFiles st' = list_to_set files ∪ currentFiles st;
  wf_collection :
    Store.collection (store st') =
    filter (fun d => ~ purged_by (with_verdict Updated existing dirPath files) d)
      (Store.collection (store st));
  wf_next_id : Store.next_id (store st') = Store.next_id (store st);
  wf_pushed : exists ds, documents st' = (documents st ++ ds)%list /\
    forall d, d ∈ ds -> Store.projectId d = pid /\ Store.filePath d ∈ files /\
      (verdict_of existing dirPath (Store.filePath d) = Some Updated \/
       verdict_of existing dirPath (Store.filePath d) = Some Added)
}.

(** The purges of the deletion pass: the paths [done] purged before the
    loop ended, all of them when it ended normally. *)
Record purge_facts (ps done : list string) (st : state) (out : state * outcome unit) : Prop := {
  pf_prefix : done `prefix_of` ps;
  pf_all : out.2 = Ok tt -> done = ps;
  pf_collection :
    Store.collection (store out.1) =
    filter (fun d => ~ purged_by done d) (Store.collection (store st));
  pf_next_id : Store.next_id (store out.1) = Store.next_id (store st);
  pf_deleted : deleted out.1 = (deleted st + length done)%nat;
  pf_documents : documents out.1 = documents st;
  pf_sink : sink out.1 = sink st;
  pf_counters : skipped out.1 = skipped st /\ updated out.1 = updated st /\
                added out.1 = added st /\ processed out.1 = processed st
}.

Record delta_facts (s : Store.store) (existing : gmap string Store.file_record)
    (dirPath : string) (files : list string)
    (out : state * outcome index_result) : Prop := {
  df_skipped : skipped out.1 = length (with_verdict Unchanged existing dirPath files);
  df_updated : updated out.1 = length (with_verdict Updated existing dirPath files);
  df_added : added out.1 = length (with_verdict Added existing dirPath files);
  df_store : exists done inserted,
    done `prefix_of` deletedFiles existing (list_to_set files) /\
    Store.collection (store out.1) =
      (filter (fun d => ~ purged_by (with_verdict Updated existing dirPath files ++ done) d)
         (Store.collection s) ++ inserted)%list /\
    (forall d, d ∈ inserted ->
       Store.s_projectId d = pid /\ Store.s_filePath d ∈ files /\
       (verdict_of existing dirPath (Store.s_filePath d) = Some Updated \/
        verdict_of existing dirPath (Store.s_filePath d) = Some Added)) /\
    deleted out.1 = length done /\
    (forall r, out.2 = Ok r -> done = deletedFiles existing (list_to_set files)) /\
    (inserted = [] \/
     inserted = imap (fun i doc => Store.to_insert (Store.next_id s + i) doc)
                  (documents out.1));
  df_result : forall r, out.2 = Ok r ->
    deltaStats r = Some {| ds_skipped := skipped out.1;
                           ds_updated := updated out.1;
                           ds_added := added out.1;
                           ds_deleted := deleted out.1;
                           ds_total := length (List.filter isTextFile files) |}
}.

(** The percentages passed to [updateProgress], in the order of the
    calls. *)
Definition progress_values (evs : list event) : list Q :=
  flat_map (fun e => match e with JobProgress p _ => [p] | _ => [] end) evs.

(** The messages logged at level [error]. *)
Definition error_logs (evs : list event) : list string :=
  flat_map (fun e => match e with JobLog m error => [m] | _ => [] end) evs.

End Terms.

End Indexer.

(** ** JobManager *)
Module Jobs.

Inductive status := pending | running | completed | failed.

Global Instance status_eq_dec : EqDecision status.
Proof. solve_decision. Defined.

Record log_entry := mkLogEntry {
  timestamp : Z;
  lvl : Indexer.level;
  message : string;
  le_jobId : string;
  le_projectId : string
}.

Record stats := mkStats {
  filesTotal : nat;
  filesProcessed : nat;
  chunksIndexed : nat;
  deltaStats : option Indexer.delta_stats
}.

(** The [params] the routes pass to [createJob]. *)
Record params := mkParams {
  directoryPath : string;
  excludePatterns : list string
}.

Record job := mkJob {
  id : string;
  type : string;
  projectId : string;
  job_status : status;
  progress : Q;
  startTime : Z;
  endTime : option Z;
  duration : option Z;
  result : option Indexer.index_result;
  error : option string;
  job_params : params;
  logs : list log_entry;
  job_stats : stats
}.

(** The [updates] object of [updateJob]: the properties it carries. *)
Record updates := mkUpdates {
  u_status : option status;
  u_result : option Indexer.index_result;
  u_progress : option Q;
  u_stats : option stats;
  u_error : option string
}.

(** The manager: the [jobs] map, the [jobId] counter, and the number of
    readings taken from the system clock so far. *)
Record manager := mkManager {
  jobs : gmap string job;
  jobId : nat;
  clock_reads : nat
}.

Definition new_manager : manager :=
  {| jobs := ∅; jobId := 0; clock_reads := 0 |}.

Definition show_Z (z : Z) : string := NilZero.string_of_int (Z.to_int z).

(** [Object.assign(job, updates)] *)
Definition assign (j : job) (u : updates) : job :=
  {| id := id j;
     type := type j;
     projectId := projectId j;
     job_status := default (job_status j) (u_status u);
     progress := default (progress j) (u_progress u);
     startTime := startTime j;
     endTime := endTime j;
     duration := duration j;
     result := match u_result u with Some r => Some r | None => result j end;
     error := match u_error u with Some e => Some e | None => error j end;
     job_params := job_params j;
     logs := logs j;
     job_stats := default (job_stats j) (u_stats u) |}.

Definition set_end (now : Z) (j : job) : job :=
  {| id := id j; type := type j; projectId := projectId j;
     job_status := job_status j; progress := progress j;
     startTime := startTime j;
     endTime := Some now;
     duration := Some (now - startTime j);
     result := result j; error := error j; job_params := job_params j;
     logs := logs j; job_stats := job_stats j |}.

Definition set_logs (l : list log_entry) (j : job) : job :=
  {| id := id j; type := type j; projectId := projectId j;
     job_status := job_status j; progress := progress j;
     startTime := startTime j; endTime := endTime j; duration := duration j;
     result := result j; error := error j; job_params := job_params j;
     logs := l; job_stats := job_stats j |}.

Definition set_progress (p : Q) (j : job) : job :=
  {| id := id j; type := type j; projectId := projectId j;
     job_status := job_status j; progress := p;
     startTime := startTime j; endTime := endTime j; duration := duration j;
     result := result j; error := error j; job_params := job_params j;
     logs := logs j; job_stats := job_stats j |}.

(** [logs.push(entry)] followed by the [splice] that keeps the last 50
    entries. *)
Definition push_log (entry : log_entry) (l : list log_entry) : list log_entry :=
  let l' := (l ++ [entry])%list in
  if Nat.ltb 50 (length l') then drop (length l' - 50) l' else l'.

(** [Math.min(100, Math.max(0, progress))] *)
Definition clamp (p : Q) : Q := Qmin (inject_Z 100) (Qmax (inject_Z 0) p).

Definition is_terminal (s : status) : bool :=
  match s with completed | failed => true | _ => false end.

(** [job.endTime && job.endTime < cutoff]: [endTime] is [null] or a
    [Date], and a [Date] is truthy. *)
Definition stale (cutoff : Z) (j : job) : bool :=
  match endTime j with
  | Some e => e <? cutoff
  | None => false
  end.

(** The order of [(a, b) => b.startTime - a.startTime]. *)
Definition newer_first (a b : job) : Prop := (startTime b <= startTime a)%Z.

Global Instance newer_first_dec a b : Decision (newer_first a b).
Proof. unfold newer_first. apply _. Defined.

Section Manager.
(** [clock k] is the [k]-th reading of [Date.now()] in this process. *)
Context (clock : nat -> Z).

Definition tick (m : manager) : manager :=
  {| jobs := jobs m; jobId := jobId m; clock_reads := S (clock_reads m) |}.

Definition set_job (key : string) (j : job) (m : manager) : manager :=
  {| jobs := <[ key := j ]> (jobs m); jobId := jobId m; clock_reads := clock_reads m |}.

Definition createJob (type projectId : string) (p : params) (m : manager) : job * manager :=
  let n := S (jobId m) in
  let key := "job_" ++ show_nat n ++ "_" ++ show_Z (clock (clock_reads m)) in
  let j := {| id := key;
              type := type;
              projectId := projectId;
              job_status := pending;
              progress := inject_Z 0;
              startTime := clock (S (clock_reads m));
              endTime := None;
              duration := None;
              result := None;
              error := None;
              job_params := p;
              logs := [];
              job_stats := {| filesTotal := 0; filesProcessed := 0;
                              chunksIndexed := 0; deltaStats := None |} |} in
  (j, {| jobs := <[ key := j ]> (jobs m);
         jobId := n;
         clock_reads := S (S (clock_reads m)) |}).

Definition getJob (key : string) (m : manager) : option job := jobs m !! key.

Definition updateJob (key : string) (u : updates) (m : manager) : option job * manager :=
  match jobs m !! key with
  | None => (None, m)
  | Some j =>
      let j1 := assign j u in
      match u_status u with
      | Some s =>
          if is_terminal s then
            let j2 := set_end (clock (clock_reads m)) j1 in
            (Some j2, tick (set_job key j2 m))
          else (Some j1, set_job key j1 m)
      | None => (Some j1, set_job key j1 m)
      end
  end.

Definition addJobLog (key message : string) (l : Indexer.level) (m : manager) : manager :=
  match jobs m !! key with
  | None => m
  | Some j =>
      let entry := {| timestamp := clock (clock_reads m);
                      lvl := l;
                      message := message;
                      le_jobId := key;
                      le_projectId := projectId j |} in
      tick (set_job key (set_logs (push_log entry (logs j)) j) m)
  end.

Definition updateProgress (key : string) (p : Q) (message : option string)
    (m : manager) : manager :=
  match jobs m !! key with
  | None => m
  | Some j =>
      let m1 := set_job key (set_progress (clamp p) j) m in
      match message with
      | Some msg => if Chunker.truthy msg then addJobLog key msg Indexer.info m1 else m1
      | None => m1
      end
  end.

(** Newest start time first. *)
Definition getAllJobs (m : manager) : list job :=
  merge_sort newer_first (map_to_list (jobs m)).*2.

Definition getActiveJobs (m : manager) : list job :=
  List.filter
    (fun j => bool_decide (job_status j = pending) || bool_decide (job_status j = running))
    (map_to_list (jobs m)).*2.

(** [cleanupOldJobs(maxAge = 24 * 60 * 60 * 1000)] *)
Definition cleanupOldJobs (maxAge : option Z) (m : manager) : nat * manager :=
  let maxAge := default (24 * 60 * 60 * 1000) maxAge in
  let cutoff := clock (clock_reads m) - maxAge in
  let kept := filter (fun kj => stale cutoff kj.2 = false) (jobs m) in
  ((size (jobs m) - size kept)%nat,
   {| jobs := kept; jobId := jobId m; clock_reads := S (clock_reads m) |}).

(** The calls a run makes on the manager, in program order. *)
Inductive call :=
| UpdateJob (u : updates)
| AddJobLog (message : string) (l : Indexer.level)
| UpdateProgress (p : Q) (message : option string).

Definition perform (key : string) (m : manager) (c : call) : manager :=
  match c with
  | UpdateJob u => (updateJob key u m).2
  | AddJobLog msg l => addJobLog key msg l m
  | UpdateProgress p msg => updateProgress key p msg m
  end.

(** The closures [logMethod] and [updateProgress] of a job-aware run. *)
Definition forward (e : Indexer.event) : list call :=
  match e with
  | Indexer.JobLog msg l => [AddJobLog msg l]
  | Indexer.JobProgress p msg => [UpdateProgress p (Some msg)]
  | Indexer.LoggerInfo _ => []
  end.

Definition no_updates : updates :=
  {| u_status := None; u_result := None; u_progress := None; u_stats := None; u_error := None |}.

Definition mark_running : updates :=
  {| u_status := Some running; u_result := None; u_progress := None;
     u_stats := None; u_error := None |}.

Definition mark_completed (r : Indexer.index_result) : updates :=
  {| u_status := Some completed;
     u_result := Some r;
     u_progress := Some (inject_Z 100);
     u_stats := Some {| filesTotal := if Nat.eqb (Indexer.filesTotal r) 0
                                       then Indexer.filesProcessed r
                                       else Indexer.filesTotal r;
                        filesProcessed := Indexer.filesProcessed r;
                        chunksIndexed := Indexer.chunksIndexed r;
                        deltaStats := Indexer.deltaStats r |};
     u_error := None |}.

Definition mark_failed (msg : string) : updates :=
  {| u_status := Some failed; u_result := None; u_progress := Some (inject_Z 0);
     u_stats := None; u_error := Some msg |}.

(** What [runIndexJob] does once the indexer has returned or thrown. *)
Definition closing_calls (r : outcome Indexer.index_result) : list call :=
  match r with
  | Ok res =>
      [ UpdateJob (mark_completed res);
        AddJobLog "Indexing completed successfully" Indexer.success;
        AddJobLog ("Files processed: " ++ show_nat (Indexer.filesProcessed res) ++
                   ", Chunks indexed: " ++ show_nat (Indexer.chunksIndexed res))
                  Indexer.success ] ++
      match Indexer.deltaStats res with
      | Some ds =>
          [ AddJobLog ("Delta stats: " ++ show_nat (Indexer.ds_skipped ds) ++ " skipped, " ++
                       show_nat (Indexer.ds_updated ds) ++ " updated, " ++
                       show_nat (Indexer.ds_added ds) ++ " added, " ++
                       show_nat (Indexer.ds_deleted ds) ++ " deleted") Indexer.success ]
      | None => []
      end
  | Throw msg =>
      [ UpdateJob (mark_failed msg);
        AddJobLog ("Indexing failed: " ++ msg) Indexer.error ]
  end.

(** All the calls of one [runIndexJob], given the outcome of
    [indexDirectory]. *)
Definition run_calls (run : Indexer.state * outcome Indexer.index_result) : list call :=
  (UpdateJob mark_running :: flat_map forward (Indexer.sink run.1) ++ closing_calls run.2)%list.

(** The states of the manager a poller can observe during a run: one
    after each call. *)
Fixpoint observe (key : string) (m : manager) (cs : list call) : list manager :=
  match cs with
  | [] => []
  | c :: rest => perform key m c :: observe key (perform key m c) rest
  end.

(** [runIndexJob(jobId, fileIndexer, directoryPath, projectId,
    excludePatterns, deltaOnly)]: [wired] tells whether [fileIndexer]
    was built with this manager, [w] and [s] are its embedding provider,
    file system and vector store. *)
Definition runIndexJob (key : string) (wired : bool) (w : Indexer.World)
    (directoryPath projectId : string) (excludePatterns : list string)
    (deltaOnly : bool) (s : Store.store) (m : manager)
    : manager * Store.store * outcome Indexer.index_result :=
  match jobs m !! key with
  | None => (m, s, Throw "Job not found")
  | Some _ =>
      let run := Indexer.indexDirectory w directoryPath projectId excludePatterns
                   deltaOnly (Chunker.truthy key && wired) s in
      (fold_left (perform key) (run_calls run) m, Indexer.store run.1, run.2)
  end.

(** The observable states of the job [key] during that run. *)
Definition run_history (key : string) (wired : bool) (w : Indexer.World)
    (directoryPath projectId : string) (excludePatterns : list string)
    (deltaOnly : bool) (s : Store.store) (m : manager) : list job :=
  omap (fun m' => jobs m' !! key)
    (observe key m
       (run_calls (Indexer.indexDirectory w directoryPath projectId excludePatterns
                     deltaOnly (Chunker.truthy key && wired) s))).

(** The states of the job [key] a poller can observe while the calls
    [cs] are made. *)
Definition history (key : string) (m : manager) (cs : list call) : list job :=
  omap (fun m' => jobs m' !! key) (observe key m cs).

End Manager.

(** *** The calls, seen from one job *)

(** What a log entry says. *)
Definition label (e : log_entry) : string * Indexer.level := (message e, lvl e).

(** What a call does to the status, progress, end time and error of a
    job, [now] being the clock reading it takes. *)
Definition effect (c : call) (now : Z) (j j' : job) : Prop :=
  match c with
  | UpdateJob u =>
      job_status j' = default (job_status j) (u_status u) /\
      progress j' = default (progress j) (u_progress u) /\
      error j' = match u_error u with Some e => Some e | None => error j end /\
      endTime j' = match u_status u with
                   | Some st => if is_terminal st then Some now else endTime j
                   | None => endTime j
                   end
  | AddJobLog _ _ =>
      job_status j' = job_status j /\ progress j' = progress j /\
      error j' = error j /\ endTime j' = endTime j
  | UpdateProgress p _ =>
      job_status j' = job_status j /\ progress j' = clamp p /\
      error j' = error j /\ endTime j' = endTime j
  end.

(** A call of the indexer's closures: it logs or reports progress. *)
Definition quiet (c : call) : Prop :=
  match c with UpdateJob _ => False | _ => True end.

(** The status, end time, start time and error of a job. *)
Definition same_core (j j' : job) : Prop :=
  job_status j' = job_status j /\ endTime j' = endTime j /\
  startTime j' = startTime j /\ error j' = error j.

(** The status a run ends in. *)
Definition final_status {A} (r : outcome A) : status :=
  match r with Ok _ => completed | Throw _ => failed end.

(** A call that only appends a log entry. *)
Definition is_log (c : call) : Prop :=
  match c with AddJobLog _ _ => True | _ => False end.

(** The percentages passed to [updateProgress] by a list of calls. *)
Definition call_values (cs : list call) : list Q :=
  flat_map (fun c => match c with UpdateProgress p _ => [p] | _ => [] end) cs.

(** *** Job ids *)

(** The id template of [createJob]: the counter, then the clock. *)
Definition job_key (n : nat) (t : Z) : string :=
  "job_" ++ show_nat n ++ "_" ++ show_Z t.

(** Every registered id was made by [createJob] from a counter value
    the manager has passed. *)
Definition well_keyed (m : manager) : Prop :=
  forall key j, jobs m !! key = Some j ->
    exists n t, key = job_key n t /\ (1 <= n <= jobId m)%nat.

(** Everything of a job but its progress and its logs. *)
Definition same_record (j j' : job) : Prop :=
  id j' = id j /\ type j' = type j /\ projectId j' = projectId j /\
  job_params j' = job_params j /\ startTime j' = startTime j /\
  endTime j' = endTime j /\ duration j' = duration j /\
  result j' = result j /\ error j' = error j /\
  job_stats j' = job_stats j /\ job_status j' = job_status j.

End Jobs.

(** ** The fallback seed of the embedding provider *)
Module Embedding.

(** ToInt32: the signed 32-bit integer congruent to [z]. *)
Definition to_int32 (z : Z) : Z := (z + 2 ^ 31) mod 2 ^ 32 - 2 ^ 31.

(** [str.charCodeAt(i)] *)
Definition charCodeAt (c : ascii) : Z := Z.of_nat (nat_of_ascii c).

(** One turn of the loop of [hashString]: [(hash << 5) - hash + char]
    is computed on numbers (exactly, the operands being small), and
    [hash & hash] brings the sum back to 32 bits. *)
Definition hash_step (hash : Z) (c : ascii) : Z :=
  let char := charCodeAt c in
  let hash := to_int32 (Z.shiftl (to_int32 hash) 5) - hash + char in
  Z.land (to_int32 hash) (to_int32 hash).

(** [hashString(str)] *)
Definition hashString (str : string) : Z :=
  fold_left hash_step (list_ascii_of_string str) 0.

(** The value of the code units read as the digits of a number in base
    31, the first one the most significant. *)
Definition base31 (str : string) : Z :=
  fold_left (fun acc c => 31 * acc + charCodeAt c) (list_ascii_of_string str) 0.

End Embedding.

(** ** The server logger *)
Module Logger.

(** [arr.slice(start)]: a negative [start] counts from the end of the
    array. *)
Definition slice_from {A} (l : list A) (start : Z) : list A :=
  let len := Z.of_nat (length l) in
  let k := if start <? 0 then Z.max (len + start) 0 else Z.min start len in
  drop (Z.to_nat k) l.

(** [getRecentLogs(lines = 100)] on the result of reading the log
    file. *)
Definition getRecentLogs (file : outcome string) (lines : option Z) : list string :=
  let lines := match lines with Some n => n | None => 100 end in
  match file with
  | Ok content =>
      let allLines :=
        List.filter (fun line => 0 <? strlen line)
          (Chunker.split_lines (Chunker.trim content)) in
      slice_from allLines (- lines)
  | Throw _ => []
  end.

End Logger.
(** ** Sample projects *)

Module SearchFixtures.
Import Store.

(** Two stored chunks whose embeddings have one and two components. *)
Definition sample_doc (n : nat) (v : list float) : stored :=
  {| _id := n; s_projectId := "p"; s_filePath := "a.js"; s_chunkIndex := n;
     s_totalChunks := 2; s_content := "x"; s_embedding := Vec v;
     s_metadata := {| fileSize := 1; fileType := ".js"; lastModified := 0;
                      contentHash := "h"; startLine := 1; endLine := 1 |} |}.

Definition two_docs : store :=
  {| collection := [sample_doc 0 [PrimFloat.one]; sample_doc 1 [PrimFloat.one; PrimFloat.one]];
     next_id := 2; project_metadata := ∅ |}.

(** A document as the indexer hands it to [addDocuments]. *)
Definition new_document : document :=
  {| projectId := "p"; filePath := "b.js"; chunkIndex := 0; totalChunks := 1;
     content := "y"; embedding := [PrimFloat.one];
     meta := {| fileSize := 1; fileType := ".js"; lastModified := 0;
                contentHash := "h"; startLine := 1; endLine := 1 |} |}.

End SearchFixtures.

Module IndexerFixtures.
Import Indexer.

(** The project [p] was indexed with [a.js], [b.js] and [gone.js]; the
    directory now holds [a.js] as it was, [b.js] with new content, and a
    new [c.js]. The digest of the sample world is the identity. *)
Definition sample_chunk (n : nat) (path hash : string) (size : Z) : Store.stored :=
  {| Store._id := n; Store.s_projectId := "p"; Store.s_filePath := path;
     Store.s_chunkIndex := 0; Store.s_totalChunks := 1; Store.s_content := "old";
     Store.s_embedding := Store.Vec [PrimFloat.one];
     Store.s_metadata :=
       {| Store.fileSize := size; Store.fileType := ".js"; Store.lastModified := 10;
          Store.contentHash := hash; Store.startLine := 1; Store.endLine := 1 |} |}.

Definition sample_store : Store.store :=
  {| Store.collection := [ sample_chunk 0 "a.js" "A" 1;
                           sample_chunk 1 "b.js" "old" 3;
                           sample_chunk 2 "gone.js" "G" 1 ];
     Store.next_id := 3;
     Store.project_metadata := ∅ |}.

Definition sample_files : list string := ["a.js"; "b.js"; "c.js"].

Definition sample_world : World :=
  {| glob := fun _ _ => Ok sample_files;
     stat_mtime := fun _ => Ok 10;
     readFile := fun path =>
       if String.eqb path "/repo/a.js" then Ok "A"
       else if String.eqb path "/repo/b.js" then Ok "new"
       else if String.eqb path "/repo/c.js" then Ok "C"
       else Throw "ENOENT";
     md5_hex := fun content => content;
     getEmbedding := fun _ => Ok [PrimFloat.one];
     db_error := fun _ => None |}.

Definition sample_run : state * outcome index_result :=
  indexDirectory sample_world "/repo" "p" [] true true sample_store.

(** [big.js] has two lines of 1500 characters, hence two chunks; the
    embedding provider of [flaky_world] answers for the first chunk and
    throws for any other text. *)
Definition two_chunk_content : string :=
  Chunker.repeat_char 1500 "a" ++ nl ++ Chunker.repeat_char 1500 "b".

Definition first_chunk_text : string :=
  match Chunker.chunkContent two_chunk_content "big.js" with
  | c :: _ => Chunker.content c
  | [] => ""
  end.

Definition flaky_world : World :=
  {| glob := fun _ _ => Ok ["big.js"];
     stat_mtime := fun _ => Ok 10;
     readFile := fun _ => Ok two_chunk_content;
     md5_hex := fun content => content;
     getEmbedding := fun text =>
       if String.eqb text first_chunk_text then Ok [PrimFloat.one]
       else Throw "embedding failed";
     db_error := fun _ => None |}.

Definition flaky_run : state * outcome index_result :=
  indexDirectory flaky_world "/repo" "p" [] false true Store.empty_store.

(** [huge.js] is one character longer than the limit of 1 MiB. *)
Definition huge_content : string := Chunker.repeat_char (1024 * 1024 + 1) "a".

Definition huge_world : World :=
  {| glob := fun _ _ => Ok ["huge.js"];
     stat_mtime := fun _ => Ok 10;
     readFile := fun _ => Ok huge_content;
     md5_hex := fun content => content;
     getEmbedding := fun _ => Ok [PrimFloat.one];
     db_error := fun _ => None |}.

End IndexerFixtures.

Module JobsFixtures.
Import Jobs.

(** An empty directory, and a directory that cannot be enumerated. *)
Definition empty_dir : Indexer.World :=
  {| Indexer.glob := fun _ _ => Ok [];
     Indexer.stat_mtime := fun _ => Throw "ENOENT";
     Indexer.readFile := fun _ => Throw "ENOENT";
     Indexer.md5_hex := fun content => content;
     Indexer.getEmbedding := fun _ => Ok [PrimFloat.one];
     Indexer.db_error := fun _ => None |}.

Definition missing_dir : Indexer.World :=
  {| Indexer.glob := fun _ _ => Throw "ENOENT";
     Indexer.stat_mtime := fun _ => Throw "ENOENT";
     Indexer.readFile := fun _ => Throw "ENOENT";
     Indexer.md5_hex := fun content => content;
     Indexer.getEmbedding := fun _ => Ok [PrimFloat.one];
     Indexer.db_error := fun _ => None |}.

(** A job is created on a fresh manager, run on the empty directory,
    then run again on the directory that cannot be enumerated; the clock
    counts its readings. *)
Definition created : job * manager :=
  createJob Z.of_nat "index" "p" {| directoryPath := "/d"; excludePatterns := [] |} new_manager.

Definition first_run : manager * Store.store * outcome Indexer.index_result :=
  runIndexJob Z.of_nat (id created.1) true empty_dir "/d" "p" [] false
    Store.empty_store created.2.

Definition second_run : manager * Store.store * outcome Indexer.index_result :=
  runIndexJob Z.of_nat (id created.1) true missing_dir "/d" "p" [] false
    first_run.1.2 first_run.1.1.

(** The registry when the second run has marked the job running. *)
Definition rerun_started : option manager :=
  head (observe Z.of_nat (id created.1) first_run.1.1
          (run_calls (Indexer.indexDirectory missing_dir "/d" "p" [] false true
                        first_run.1.2))).

End JobsFixtures.

(** * Properties *)

(** ** Chunking *)
Module ChunkerSpec.
Import Chunker.

Lemma append_cons x (a b : string) : String x a ++ b = String x (a ++ b).
Proof. reflexivity. Qed.

Lemma append_nil_l (b : string) : "" ++ b = b.
Proof. reflexivity. Qed.

Lemma append_assoc (a b c : string) : (a ++ b) ++ c = a ++ (b ++ c).
Proof.
  induction a as [|x a IH]; [reflexivity|].
  now rewrite !append_cons, IH.
Qed.

Lemma append_nil_r (a : string) : a ++ "" = a.
Proof.
  induction a as [|x a IH]; [reflexivity|].
  now rewrite append_cons, IH.
Qed.

Lemma chars_append (a b : string) :
  list_ascii_of_string (a ++ b) =
  (list_ascii_of_string a ++ list_ascii_of_string b)%list.
Proof.
  induction a as [|x a IH]; [reflexivity|].
  rewrite append_cons. simpl. now rewrite IH.
Qed.

Lemma concat_lines_snoc ls line :
  concat_lines (ls ++ [line]) = concat_lines ls ++ line ++ nl.
Proof.
  induction ls as [|l ls IH]; simpl.
  - now rewrite append_nil_l, append_nil_r.
  - rewrite IH. now rewrite !append_assoc.
Qed.

Lemma blank_append a b : blank (a ++ b) = (blank a && blank b)%bool.
Proof. unfold blank. now rewrite chars_append, forallb_app. Qed.

Lemma blank_concat_lines ls :
  blank (concat_lines ls) = true -> forall l, In l ls -> blank l = true.
Proof.
  induction ls as [|x ls IH]; simpl; intros Hb l Hin; [contradiction|].
  rewrite !blank_append in Hb.
  apply andb_prop in Hb as [Hx Hb]. apply andb_prop in Hb as [_ Hb].
  destruct Hin as [<-|Hin]; [assumption | now apply IH].
Qed.

Lemma drop_ws_nil l : drop_ws l = [] -> forallb is_ws l = true.
Proof.
  induction l as [|c l IH]; simpl; [reflexivity|].
  destruct (is_ws c); [assumption | discriminate].
Qed.

Lemma drop_ws_all l : forallb is_ws (drop_ws l) = true -> drop_ws l = [].
Proof.
  induction l as [|c l IH]; simpl; [reflexivity|].
  destruct (is_ws c) eqn:E; [assumption|].
  simpl. rewrite E. discriminate.
Qed.

Lemma forallb_rev_true {A} (f : A -> bool) l :
  forallb f (rev l) = true -> forallb f l = true.
Proof.
  rewrite !forallb_forall. intros H x Hx. apply H. now apply in_rev in Hx.
Qed.

(** A string that trims to the empty string holds white space only. *)
Lemma trim_empty_blank s : truthy (trim s) = false -> blank s = true.
Proof.
  unfold trim, blank. intros H.
  set (l := list_ascii_of_string s) in *.
  destruct (rev (drop_ws (rev (drop_ws l)))) as [|c r] eqn:E; [|discriminate H].
  assert (E1 : drop_ws (rev (drop_ws l)) = []).
  { destruct (drop_ws (rev (drop_ws l))) as [|x xs]; [reflexivity|].
    simpl in E. now destruct (rev xs). }
  apply drop_ws_nil, forallb_rev_true, drop_ws_all, drop_ws_nil in E1.
  exact E1.
Qed.

Lemma split_lines_nonempty s : split_lines s <> [].
Proof.
  destruct s as [|c s]; simpl; [discriminate|].
  destruct (Ascii.eqb c _); [discriminate|].
  destruct (split_lines s); discriminate.
Qed.

Lemma contiguous_snoc from cs c :
  (1 <= from)%nat ->
  contiguous from cs ->
  startLine c = S (covers_to from cs) ->
  (startLine c <= endLine c)%nat ->
  contiguous from (cs ++ [c]) /\ covers_to from (cs ++ [c]) = endLine c.
Proof.
  revert from. induction cs as [|d cs IH]; simpl; intros from Hfrom Hc Hs Hle.
  - split; [|lia]. repeat split; [lia | assumption].
  - destruct Hc as (Hd & Hdle & Hrest).
    destruct (IH (S (endLine d))) as [H1 H2]; try assumption; [lia|].
    repeat split; assumption.
Qed.

Lemma inv_init : inv [] init.
Proof. split; simpl; auto. Qed.

Lemma strlen_pos_nonempty s : (strlen s >? 0) = true -> s <> "".
Proof. intros H ->. discriminate H. Qed.

Lemma inv_step filename done st line :
  inv done st -> inv (done ++ [line]) (step filename st line).
Proof.
  intros [Hl Hc Hs Hle Hcur]. unfold step.
  destruct ((strlen (currentChunk st) + strlen line >? maxChunkSize)
            && (strlen (currentChunk st) >? 0))%bool eqn:E.
  - apply andb_prop in E as [_ Hpos]. apply strlen_pos_nonempty in Hpos.
    assert (Hlt : (l_startLine st < currentLine st)%nat).
    { destruct (Nat.eq_dec (l_startLine st) (currentLine st)) as [Heq|]; [|lia].
      exfalso. apply Hpos. rewrite Hcur, Heq, Hl.
      replace (S (length done) - 1)%nat with (length done) by lia.
      now rewrite drop_all. }
    destruct (contiguous_snoc 1 (chunks st) (close_chunk filename st)) as [H1 H2];
      simpl; try assumption; try lia.
    split; simpl.
    + rewrite Hl, length_app. simpl. lia.
    + exact H1.
    + rewrite H2. simpl. lia.
    + lia.
    + rewrite Hl. replace (S (length done) - 1)%nat with (length done) by lia.
      rewrite drop_app_length. simpl. reflexivity.
  - split; simpl.
    + rewrite Hl, length_app. simpl. lia.
    + assumption.
    + assumption.
    + lia.
    + rewrite Hcur. rewrite drop_app_le by lia.
      now rewrite concat_lines_snoc.
Qed.

Lemma inv_fold filename lines done st :
  inv done st -> inv (done ++ lines) (fold_left (step filename) lines st).
Proof.
  revert done st. induction lines as [|l lines IH]; intros done st H; simpl.
  - now rewrite app_nil_r.
  - replace (done ++ l :: lines)%list with ((done ++ [l]) ++ lines)%list
      by now rewrite <- app_assoc.
    apply IH, inv_step, H.
Qed.

Lemma inv_run filename content :
  inv (split_lines content) (run_loop filename (split_lines content)).
Proof. apply (inv_fold filename (split_lines content) [] init inv_init). Qed.

Lemma nonempty_not_truthy s : truthy s = true -> s <> "".
Proof. intros H ->. discriminate H. Qed.

(** What the accumulation yields: contiguous ranges from line 1, and the
    lines it leaves out are the trailing lines of a blank last group. *)
Lemma accumulate_spec content filename :
  let cs := accumulate content filename in
  contiguous 1 cs /\
  (covers_to 1 cs <= totalLines content)%nat /\
  (forall i line, (covers_to 1 cs <= i)%nat ->
     split_lines content !! i = Some line -> blank line = true).
Proof.
  unfold accumulate, totalLines.
  pose proof (inv_run filename content) as [Hl Hc Hs Hle Hcur].
  set (st := run_loop filename (split_lines content)) in *.
  destruct (truthy (trim (currentChunk st))) eqn:E; simpl.
  - assert (Hlt : (l_startLine st < currentLine st)%nat).
    { destruct (Nat.eq_dec (l_startLine st) (currentLine st)) as [Heq|]; [|lia].
      exfalso. rewrite Hcur, Heq, Hl in E.
      replace (S (length (split_lines content)) - 1)%nat
        with (length (split_lines content)) in E by lia.
      rewrite drop_all in E. discriminate E. }
    destruct (contiguous_snoc 1 (chunks st) (close_chunk filename st)) as [H1 H2];
      simpl; try assumption; try lia.
    rewrite H2. simpl. repeat split; [exact H1 | lia |].
    intros i line Hi Hlook. apply lookup_lt_Some in Hlook. lia.
  - repeat split; [assumption | lia |].
    intros i line Hi Hlook.
    apply trim_empty_blank in E. rewrite Hcur in E.
    apply (blank_concat_lines _ E).
    apply list_elem_of_In, (list_elem_of_lookup_2 _ (i - (l_startLine st - 1))).
    rewrite lookup_drop. rewrite <- Hlook. f_equal. lia.
Qed.

Lemma contiguous_reach from cs :
  contiguous from cs -> cs <> [] -> (from <= covers_to from cs)%nat.
Proof.
  revert from. induction cs as [|c cs IH]; simpl; intros from H Hne; [congruence|].
  destruct H as (Hs & Hle & Hrest).
  destruct cs as [|d cs]; [simpl; lia|].
  specialize (IH _ Hrest ltac:(discriminate)). lia.
Qed.

(** In a contiguous sequence each chunk starts on the line after the one
    where its predecessor ends: ascending order, no overlap, no gap. *)
Lemma contiguous_adjacent from cs i c1 c2 :
  contiguous from cs ->
  cs !! i = Some c1 -> cs !! S i = Some c2 ->
  startLine c2 = S (endLine c1) /\ (startLine c1 <= endLine c1 < startLine c2)%nat.
Proof.
  revert from i. induction cs as [|c cs IH]; intros from i H H1 H2; [discriminate|].
  destruct H as (Hs & Hle & Hrest).
  destruct i as [|i]; simpl in *.
  - injection H1 as <-. destruct cs as [|d cs]; [discriminate|].
    injection H2 as <-. destruct Hrest as (Hd & _). lia.
  - eapply IH; eassumption.
Qed.

Lemma whole_file_contiguous content filename :
  contiguous 1 [whole_file content filename] /\
  covers_to 1 [whole_file content filename] = totalLines content.
Proof.
  pose proof (split_lines_nonempty content) as Hne.
  unfold totalLines. simpl.
  destruct (split_lines content) as [|l ls]; [congruence|]. simpl.
  repeat split; lia.
Qed.

(** C3, as the code has it. The line ranges of the chunks returned by
    [chunkContent] start at line 1, follow one another in ascending order
    without overlap or gap, and end at or before [totalLines]; every
    line past the last chunk is made of white space only (the trailing
    group that [currentChunk.trim()] drops). *)
Theorem chunk_coverage (content filename : string) :
  let cs := chunkContent content filename in
  contiguous 1 cs /\
  (1 <= covers_to 1 cs <= totalLines content)%nat /\
  (forall i line, (covers_to 1 cs <= i)%nat ->
     split_lines content !! i = Some line -> blank line = true).
Proof.
  unfold chunkContent.
  destruct (accumulate_spec content filename) as (Hc & Hle & Hblank).
  destruct (accumulate content filename) as [|c cs] eqn:E.
  - destruct (whole_file_contiguous content filename) as [H1 H2].
    rewrite H2. split; [exact H1|]. split.
    + pose proof (split_lines_nonempty content). unfold totalLines.
      destruct (split_lines content); [congruence | simpl; lia].
    + intros i line Hi Hlook. apply lookup_lt_Some in Hlook.
      unfold totalLines in Hi. lia.
  - split; [exact Hc|]. split; [|exact Hblank].
    split; [|exact Hle].
    apply contiguous_reach; [exact Hc | discriminate].
Qed.

(** C3, the input where the stated coverage fails: one line of 2001
    characters followed by a line feed. The file has two lines, the only
    chunk is lines 1-1. *)
Lemma chunk_coverage_gap :
  let content := repeat_char 2001 "a" ++ nl in
  map (fun c => (startLine c, endLine c)) (chunkContent content "big.txt") = [(1, 1)%nat]
  /\ totalLines content = 2%nat
  /\ covers_to 1 (chunkContent content "big.txt") <> totalLines content.
Proof. vm_compute. repeat split; discriminate. Qed.

(** *** Content that accumulates no chunk *)

Lemma strlen_append (a b : string) : strlen (a ++ b) = strlen a + strlen b.
Proof.
  unfold strlen. induction a as [|x a IH]; [reflexivity|].
  rewrite append_cons. cbn [String.length]. lia.
Qed.

(** Joining the lines again gives back the content, plus the line feed
    the loop appends after the last line. *)
Lemma concat_split_lines s : concat_lines (split_lines s) = s ++ nl.
Proof.
  induction s as [|c s IH]; [reflexivity|].
  cbn [split_lines].
  destruct (Ascii.eqb c (ascii_of_nat 10)) eqn:E.
  - apply Ascii.eqb_eq in E. subst c.
    cbn [concat_lines]. rewrite IH, append_nil_l. reflexivity.
  - destruct (split_lines s) as [|l ls] eqn:El.
    + exfalso. now apply (split_lines_nonempty s).
    + cbn [concat_lines] in *. rewrite !append_cons, IH. reflexivity.
Qed.

Lemma concat_lines_app l1 l2 :
  concat_lines (l1 ++ l2) = concat_lines l1 ++ concat_lines l2.
Proof.
  induction l1 as [|x l1 IH]; [reflexivity|].
  cbn [app concat_lines]. now rewrite IH, !append_assoc.
Qed.

Lemma strlen_nonneg s : 0 <= strlen s.
Proof. unfold strlen. lia. Qed.

(** As long as everything read fits in one chunk, no chunk is closed. *)
Lemma small_no_close filename lines :
  forall done st,
    chunks st = [] -> currentChunk st = concat_lines done ->
    strlen (concat_lines (done ++ lines)) <= maxChunkSize + 1 ->
    chunks (fold_left (step filename) lines st) = [] /\
    currentChunk (fold_left (step filename) lines st) = concat_lines (done ++ lines).
Proof.
  induction lines as [|line lines IH]; intros done st Hc Hcur Hlen.
  - rewrite app_nil_r. now split.
  - cbn [fold_left].
    replace (done ++ line :: lines)%list with ((done ++ [line]) ++ lines)%list in *
      by now rewrite <- app_assoc.
    apply IH; [| |exact Hlen].
    + unfold step.
      destruct ((strlen (currentChunk st) + strlen line >? maxChunkSize)
                && (strlen (currentChunk st) >? 0))%bool eqn:E; [|exact Hc].
      exfalso. apply andb_prop in E as [E _].
      rewrite concat_lines_app, concat_lines_snoc, !strlen_append in Hlen.
      rewrite Hcur in E.
      pose proof (strlen_nonneg (concat_lines lines)).
      change (strlen nl) with 1 in Hlen. lia.
    + unfold step.
      destruct ((strlen (currentChunk st) + strlen line >? maxChunkSize)
                && (strlen (currentChunk st) >? 0))%bool eqn:E.
      * exfalso. apply andb_prop in E as [E _].
        rewrite concat_lines_app, concat_lines_snoc, !strlen_append in Hlen.
        rewrite Hcur in E.
        pose proof (strlen_nonneg (concat_lines lines)).
        change (strlen nl) with 1 in Hlen. lia.
      * cbn [currentChunk]. now rewrite Hcur, concat_lines_snoc.
Qed.

Lemma forallb_drop_ws l : forallb is_ws l = true -> drop_ws l = [].
Proof.
  induction l as [|c l IH]; cbn [forallb drop_ws]; [reflexivity|].
  destruct (is_ws c); [exact IH | discriminate].
Qed.

Lemma blank_trim s : blank s = true -> truthy (trim s) = false.
Proof.
  unfold blank, trim. intros H. now rewrite (forallb_drop_ws _ H).
Qed.

(** Content of at most 2000 characters, all of them white space, yields
    no chunk. *)
Lemma blank_content_no_chunk content filename :
  blank content = true -> strlen content <= maxChunkSize ->
  accumulate content filename = [].
Proof.
  intros Hb Hlen. unfold accumulate, run_loop.
  destruct (small_no_close filename (split_lines content) [] init) as [Hc Hcur];
    [reflexivity | reflexivity | |].
  { cbn [app]. rewrite concat_split_lines, strlen_append.
    change (strlen nl) with 1. lia. }
  cbn [app] in Hcur. rewrite Hcur, concat_split_lines, Hc.
  rewrite blank_trim; [reflexivity|].
  rewrite blank_append, Hb. reflexivity.
Qed.

Lemma chunkContent_nonempty content filename :
  (1 <= length (chunkContent content filename))%nat.
Proof.
  unfold chunkContent.
  destruct (accumulate content filename); simpl; lia.
Qed.

(** Empty content, and content of blank lines, accumulate no chunk. *)
Example accumulate_empty filename : accumulate "" filename = [].
Proof. reflexivity. Qed.

Example accumulate_spaces filename : accumulate ("  " ++ nl ++ " ") filename = [].
Proof. reflexivity. Qed.

(** C8. When the line accumulation yields no chunk, [chunkContent]
    returns exactly one chunk, the whole file, from line 1 to the line
    count; this is the case of empty content and of white space that
    fits in one chunk; hence [chunkContent] never returns an empty
    array. *)
Theorem whole_file_fallback (content filename : string) :
  (accumulate content filename = [] ->
   chunkContent content filename = [whole_file content filename] /\
   startLine (whole_file content filename) = 1%nat /\
   endLine (whole_file content filename) = totalLines content) /\
  (blank content = true -> strlen content <= maxChunkSize ->
   accumulate content filename = []) /\
  (1 <= length (chunkContent content filename))%nat.
Proof.
  split; [|split; [apply blank_content_no_chunk | apply chunkContent_nonempty]].
  intros H. unfold chunkContent. rewrite H. repeat split.
Qed.

Lemma whole_file_fallback_witness :
  chunkContent "" "empty.txt" = [whole_file "" "empty.txt"] /\
  startLine (whole_file "" "empty.txt") = 1%nat /\
  endLine (whole_file "" "empty.txt") = totalLines "".
Proof.
  apply (proj1 (whole_file_fallback "" "empty.txt")). reflexivity.
Defined.

(** *** The text and the size of a chunk *)

Lemma lines_between_app (done rest : list string) a b :
  (b <= length done)%nat ->
  lines_between (done ++ rest) a b = lines_between done a b.
Proof.
  intros Hb. unfold lines_between.
  destruct (Nat.le_gt_cases (a - 1) (length done)) as [Ha|Ha].
  - rewrite drop_app_le by exact Ha.
    rewrite take_app_le; [reflexivity|]. rewrite length_drop. lia.
  - replace (b - (a - 1))%nat with 0%nat by lia. reflexivity.
Qed.

Lemma lines_between_all (done : list string) a :
  lines_between done a (length done) = drop (a - 1) done.
Proof.
  unfold lines_between. apply take_ge. rewrite length_drop. lia.
Qed.

Lemma close_chunk_text filename st :
  content (close_chunk filename st)
  = header filename (l_startLine st) (currentLine st - 1) ++ currentChunk st.
Proof.
  unfold close_chunk, header. cbn [content].
  rewrite !append_assoc. reflexivity.
Qed.

Lemma chunk_ok_app filename done rest c :
  chunk_ok filename done c -> chunk_ok filename (done ++ rest) c.
Proof.
  intros (Hle & Hc & Hs). unfold chunk_ok.
  rewrite lines_between_app by exact Hle.
  split; [rewrite length_app; lia|]. now split.
Qed.

Lemma concat_lines_empty ls : concat_lines ls = "" -> ls = [].
Proof.
  destruct ls as [|l ls]; [reflexivity|]. cbn [concat_lines].
  intros H. assert (Hl : strlen (l ++ nl ++ concat_lines ls) = 0) by now rewrite H.
  rewrite !strlen_append in Hl. change (strlen nl) with 1 in Hl.
  pose proof (strlen_nonneg l). pose proof (strlen_nonneg (concat_lines ls)). lia.
Qed.

Lemma strlen_zero s : strlen s = 0 -> s = "".
Proof. destruct s; [reflexivity|]. unfold strlen. cbn. lia. Qed.

Lemma closed_chunk_ok filename done st :
  inv done st -> group_ok st -> (l_startLine st < currentLine st)%nat ->
  chunk_ok filename done (close_chunk filename st).
Proof.
  intros [Hl Hc Hs Hle Hcur] Hg Hlt. unfold chunk_ok.
  cbn [close_chunk startLine endLine]. rewrite Hl.
  replace (S (length done) - 1)%nat with (length done) by lia.
  rewrite lines_between_all, <- Hcur.
  split; [lia|]. split.
  - rewrite close_chunk_text, Hl.
    now replace (S (length done) - 1)%nat with (length done) by lia.
  - destruct Hg as [Hg|Hg]; [left; lia | now right].
Qed.

Lemma step_ok filename done st line :
  inv done st -> group_ok st -> Forall (chunk_ok filename done) (chunks st) ->
  group_ok (step filename st line) /\
  Forall (chunk_ok filename (done ++ [line])) (chunks (step filename st line)).
Proof.
  intros Hinv Hg Hall.
  pose proof Hinv as [Hl Hc Hs Hle Hcur].
  unfold step.
  destruct ((strlen (currentChunk st) + strlen line >? maxChunkSize)
            && (strlen (currentChunk st) >? 0))%bool eqn:E.
  - apply andb_prop in E as [_ Hpos]. apply strlen_pos_nonempty in Hpos.
    assert (Hlt : (l_startLine st < currentLine st)%nat).
    { destruct (Nat.eq_dec (l_startLine st) (currentLine st)) as [Heq|]; [|lia].
      exfalso. apply Hpos. rewrite Hcur, Heq, Hl.
      replace (S (length done) - 1)%nat with (length done) by lia.
      now rewrite drop_all. }
    split.
    + left. cbn [currentLine l_startLine]. lia.
    + cbn [chunks]. apply Forall_app. split.
      * eapply Forall_impl; [exact Hall|]. intros c. apply chunk_ok_app.
      * constructor; [|constructor].
        apply chunk_ok_app. now apply closed_chunk_ok.
  - split.
    + unfold group_ok. cbn [currentLine l_startLine currentChunk].
      apply andb_false_iff in E as [E|E].
      * right. rewrite !strlen_append. change (strlen nl) with 1. lia.
      * left. assert (H0 : strlen (currentChunk st) = 0).
        { pose proof (strlen_nonneg (currentChunk st)). lia. }
        apply strlen_zero in H0. rewrite Hcur in H0.
        apply concat_lines_empty in H0.
        assert (Hlen : length (drop (l_startLine st - 1) done) = 0%nat) by now rewrite H0.
        rewrite length_drop in Hlen. lia.
    + cbn [chunks]. eapply Forall_impl; [exact Hall|]. intros c. apply chunk_ok_app.
Qed.

Lemma fold_ok filename lines :
  forall done st,
    inv done st -> group_ok st -> Forall (chunk_ok filename done) (chunks st) ->
    group_ok (fold_left (step filename) lines st) /\
    Forall (chunk_ok filename (done ++ lines)) (chunks (fold_left (step filename) lines st)).
Proof.
  induction lines as [|l lines IH]; intros done st Hinv Hg Hall; cbn [fold_left].
  - rewrite app_nil_r. now split.
  - replace (done ++ l :: lines)%list with ((done ++ [l]) ++ lines)%list
      by now rewrite <- app_assoc.
    destruct (step_ok filename done st l Hinv Hg Hall) as [Hg' Hall'].
    apply IH; [now apply inv_step | exact Hg' | exact Hall'].
Qed.

Lemma accumulate_ok content filename :
  Forall (chunk_ok filename (split_lines content)) (accumulate content filename).
Proof.
  unfold accumulate, run_loop.
  pose proof (inv_run filename content) as Hinv. unfold run_loop in Hinv.
  destruct (fold_ok filename (split_lines content) [] init inv_init) as [Hg Hall].
  { left. cbn. lia. }
  { constructor. }
  cbn [app] in Hall.
  set (st := fold_left (step filename) (split_lines content) init) in *.
  destruct (truthy (trim (currentChunk st))) eqn:E; [|exact Hall].
  apply Forall_app. split; [exact Hall|]. constructor; [|constructor].
  apply closed_chunk_ok; [exact Hinv | exact Hg |].
  pose proof Hinv as [Hl Hc Hs Hle Hcur].
  destruct (Nat.eq_dec (l_startLine st) (currentLine st)) as [Heq|]; [|lia].
  exfalso. rewrite Hcur, Heq, Hl in E.
  replace (S (length (split_lines content)) - 1)%nat
    with (length (split_lines content)) in E by lia.
  rewrite drop_all in E. discriminate E.
Qed.

(** The lines of contiguous chunks, put end to end, are the first lines
    of the file. *)
Lemma contiguous_lines (ls : list string) cs :
  forall from, (1 <= from)%nat -> contiguous from cs ->
    Forall (fun c => (endLine c <= length ls)%nat) cs ->
    (drop (from - 1) (take (covers_to from cs) ls)
     = flat_map (fun c => lines_between ls (startLine c) (endLine c)) cs)%list.
Proof.
  induction cs as [|c cs IH]; intros from Hfrom Hc Hall.
  - cbn [covers_to flat_map]. apply drop_ge. rewrite length_take. lia.
  - cbn [contiguous covers_to flat_map] in *. destruct Hc as (Hs & Hle & Hrest).
    apply Forall_cons in Hall as [Hc1 Hall].
    rewrite <- (IH (S (endLine c))); [|lia|exact Hrest|exact Hall].
    replace (S (endLine c) - 1)%nat with (endLine c) by lia.
    unfold lines_between. rewrite Hs.
    assert (Hcov : (endLine c <= covers_to (S (endLine c)) cs)%nat).
    { destruct cs as [|d cs]; [cbn; lia|].
      pose proof (contiguous_reach _ _ Hrest ltac:(discriminate)). lia. }
    set (n := covers_to (S (endLine c)) cs) in *.
    rewrite <- (take_drop (endLine c - (from - 1)) (drop (from - 1) (take n ls))).
    f_equal.
    + rewrite !take_drop_commute, take_take. f_equal. f_equal. lia.
    + rewrite drop_drop. f_equal. lia.
Qed.

(** X9. Every chunk the accumulation yields is its header followed by
    the lines of its range, each with its line feed: no line is cut or
    left out inside a range. A chunk of more than one line is at most
    2001 characters long after the header; only a chunk made of a single
    line can be longer. Put end to end, the lines of the chunks are the
    first lines of the file. When nothing is accumulated, the only chunk
    is the whole content after a two-line header, and every line of the
    file is white space. *)
Theorem chunk_text_and_size (content filename : string) :
  let lines := split_lines content in
  let cs := chunkContent content filename in
  (Forall
     (fun c =>
        let body := concat_lines (lines_between lines (startLine c) (endLine c)) in
        Chunker.content c = header filename (startLine c) (endLine c) ++ body /\
        (startLine c = endLine c \/ strlen body <= maxChunkSize + 1))
     cs /\
   flat_map (fun c => lines_between lines (startLine c) (endLine c)) cs
   = take (covers_to 1 cs) lines) \/
  (cs = [whole_file content filename] /\
   Chunker.content (whole_file content filename)
   = "File: " ++ filename ++ nl ++ nl ++ content /\
   Forall (fun l => blank l = true) lines).
Proof.
  intros lines cs. subst lines cs. unfold chunkContent.
  pose proof (accumulate_ok content filename) as Hall.
  destruct (accumulate_spec content filename) as (Hc & Hle & Hblank).
  destruct (accumulate content filename) as [|c cs] eqn:E.
  - right. split; [reflexivity|]. split; [reflexivity|].
    apply Forall_forall. intros l Hl.
    apply list_elem_of_lookup in Hl as [i Hi].
    apply (Hblank i l); [cbn; lia | exact Hi].
  - left. split.
    + eapply Forall_impl; [exact Hall|]. intros x (_ & H1 & H2). now split.
    + rewrite <- (contiguous_lines (split_lines content) (c :: cs) 1);
        [reflexivity | lia | exact Hc |].
      eapply Forall_impl; [exact Hall|]. now intros x (H1 & _).
Qed.

(** X10. Content of at most 2000 characters always gives exactly one
    chunk, from line 1 to the last line. *)
Theorem small_file_single_chunk (content filename : string) :
  strlen content <= maxChunkSize ->
  exists c, chunkContent content filename = [c] /\
    startLine c = 1%nat /\ endLine c = totalLines content.
Proof.
  intros Hlen. unfold chunkContent, accumulate, run_loop.
  pose proof (inv_run filename content) as [Hl Hc Hs Hle Hcur]. unfold run_loop in *.
  destruct (small_no_close filename (split_lines content) [] init) as [Hch _];
    [reflexivity | reflexivity | |].
  { cbn [app]. rewrite concat_split_lines, strlen_append.
    change (strlen nl) with 1. lia. }
  set (st := fold_left (step filename) (split_lines content) init) in *.
  rewrite Hch in *. cbn [covers_to] in Hs.
  destruct (truthy (trim (currentChunk st))).
  - cbn [app]. eexists. split; [reflexivity|].
    cbn [close_chunk startLine endLine]. unfold totalLines. split; lia.
  - eexists. split; [reflexivity|]. split; reflexivity.
Qed.

Lemma small_file_single_chunk_witness :
  exists c, chunkContent ("a" ++ nl ++ "b") "f.txt" = [c] /\
    startLine c = 1%nat /\ endLine c = totalLines ("a" ++ nl ++ "b").
Proof.
  apply (small_file_single_chunk ("a" ++ nl ++ "b") "f.txt").
  vm_compute. discriminate.
Defined.

End ChunkerSpec.

(** ** Similarity search *)
Module SearchSpec.
Import Store SearchFixtures.

Lemma insert_by_score_perm x l : insert_by_score x l ≡ₚ x :: l.
Proof.
  induction l as [|y l IH]; simpl; [reflexivity|].
  destruct (PrimFloat.ltb _ _); [reflexivity|].
  rewrite IH. apply Permutation_swap.
Qed.

Lemma sort_by_score_perm_acc l acc :
  fold_left (fun acc x => insert_by_score x acc) l acc ≡ₚ (acc ++ l)%list.
Proof.
  revert acc. induction l as [|x l IH]; intros acc; simpl.
  - now rewrite app_nil_r.
  - rewrite IH, insert_by_score_perm. simpl. apply Permutation_middle.
Qed.

(** Sorting rearranges the scored documents and loses none. *)
Lemma sort_by_score_perm l : sort_by_score l ≡ₚ l.
Proof. unfold sort_by_score. now rewrite sort_by_score_perm_acc. Qed.

Lemma slice0_length {A} (l : list A) (k : Z) :
  Z.of_nat (length (slice0 l k)) =
  if k <? 0 then Z.max (Z.of_nat (length l) + k) 0
  else Z.min k (Z.of_nat (length l)).
Proof.
  unfold slice0. rewrite length_take.
  destruct (k <? 0) eqn:E; [apply Z.ltb_lt in E | apply Z.ltb_ge in E]; lia.
Qed.

Lemma slice0_subset {A} (l : list A) (k : Z) x : x ∈ slice0 l k -> x ∈ l.
Proof. unfold slice0. apply subseteq_take. Qed.

(** The guard of [cosineSimilarity]: a missing vector, or vectors of
    different lengths, score 0. *)
Lemma cosineSimilarity_guard (a b : option (list float)) :
  (a = None \/ b = None \/
   exists u v, a = Some u /\ b = Some v /\ length u <> length v) ->
  cosineSimilarity a b = PrimFloat.zero.
Proof.
  intros [-> | [-> | (u & v & -> & -> & Hne)]]; simpl.
  - reflexivity.
  - destruct a; reflexivity.
  - apply Nat.eqb_neq in Hne. now rewrite Hne.
Qed.

(** The number of results: what [slice(0, topK)] keeps of the matching
    documents. *)
Lemma search_length queryEmbedding (topK : option Z) projectId s :
  Z.of_nat (length (search queryEmbedding topK projectId s)) =
    (if default 3 topK <? 0
     then Z.max (Z.of_nat (length (matched projectId s)) + default 3 topK) 0
     else Z.min (default 3 topK) (Z.of_nat (length (matched projectId s)))).
Proof.
  unfold search. fold (matched projectId s).
  replace (match topK with Some k0 => k0 | None => 3 end) with (default 3 topK)
    by now destruct topK.
  rewrite slice0_length.
  rewrite (Permutation_length (sort_by_score_perm _)), length_map.
  reflexivity.
Qed.

(** C10, as the code has it. Every result of [search] is a stored
    document that matches the filter, scored with [cosineSimilarity] of
    the query and its embedding; that score is 0 when the query or the
    embedding is missing or their lengths differ, so no stored embedding
    makes [search] fail; the number of results is [min(topK, n)] for
    [topK >= 0] and [max(n + topK, 0)] for a negative [topK], [n] being
    the number of matching documents. *)
Theorem search_scores_and_size (queryEmbedding : option (list float))
    (topK : option Z) (projectId : option string) (s : store) :
  let k := default 3 topK in
  let n := Z.of_nat (length (matched projectId s)) in
  let results := search queryEmbedding topK projectId s in
  (forall r, r ∈ results ->
     exists doc, doc ∈ matched projectId s /\ id r = _id doc /\
       score r = cosineSimilarity queryEmbedding (embedding_value (s_embedding doc)) /\
       ((queryEmbedding = None \/ embedding_value (s_embedding doc) = None \/
         exists u v, queryEmbedding = Some u /\
                     embedding_value (s_embedding doc) = Some v /\
                     length u <> length v) ->
        score r = PrimFloat.zero)) /\
  Z.of_nat (length results) =
    (if k <? 0 then Z.max (n + k) 0 else Z.min k n).
Proof.
  intros k n results. subst results. unfold search.
  fold (matched projectId s).
  replace (match topK with Some k0 => k0 | None => 3 end) with k
    by (subst k; now destruct topK).
  split.
  - intros r Hr. apply slice0_subset in Hr.
    rewrite sort_by_score_perm in Hr.
    apply list_elem_of_fmap in Hr as (doc & -> & Hdoc).
    exists doc. split; [exact Hdoc|]. split; [reflexivity|]. split; [reflexivity|].
    intros H. simpl. now apply cosineSimilarity_guard.
  - apply search_length.
Qed.

(** For a [topK] that is not negative, at most [topK] results. *)
Corollary search_at_most_topK queryEmbedding (k : Z) projectId s :
  0 <= k -> Z.of_nat (length (search queryEmbedding (Some k) projectId s)) <= k.
Proof.
  intros Hk. rewrite search_length. simpl.
  destruct (k <? 0) eqn:E; [apply Z.ltb_lt in E |]; lia.
Qed.

(** C10, the input where "at most topK results" fails: with [topK = -1]
    and two stored documents [slice(0, -1)] returns one result. *)
Lemma search_negative_topK :
  length (search (Some [PrimFloat.one]) (Some (-1)) None two_docs) = 1%nat
  /\ ~ (Z.of_nat (length (search (Some [PrimFloat.one]) (Some (-1)) None two_docs)) <= -1).
Proof. split; [reflexivity|]. vm_compute. intros H. apply H. reflexivity. Qed.

(** A stored embedding of another dimension scores 0. *)
Example mismatch_scores_zero :
  map score (search (Some [PrimFloat.one]) (Some 5) None two_docs)
  = [PrimFloat.one; PrimFloat.zero].
Proof. reflexivity. Qed.

End SearchSpec.

(** ** The document store *)
Module StoreSpec.
Import Store.

Lemma filter_app_length {A} (P : A -> Prop) `{forall x, Decision (P x)} (l1 l2 : list A) :
  length (filter P (l1 ++ l2)%list) = (length (filter P l1) + length (filter P l2))%nat.
Proof. now rewrite filter_app, length_app. Qed.

Lemma filter_all {A} (P : A -> Prop) `{forall x, Decision (P x)} (l : list A) :
  (forall x, x ∈ l -> P x) -> filter P l = l.
Proof.
  induction l as [|x l IH]; intros Hl; [reflexivity|].
  rewrite filter_cons_True by (apply Hl; left).
  f_equal. apply IH. intros y Hy. apply Hl. now right.
Qed.

Lemma filter_nothing {A} (P : A -> Prop) `{forall x, Decision (P x)} (l : list A) :
  (forall x, x ∈ l -> ~ P x) -> filter P l = [].
Proof.
  induction l as [|x l IH]; intros Hl; [reflexivity|].
  rewrite filter_cons_False by (apply Hl; left).
  apply IH. intros y Hy. apply Hl. now right.
Qed.

(** *** removeFileChunks *)

(** X1. [removeFileChunks] returns the number of chunks stored for the
    file in the project and leaves none of them; every other document
    stays, in its place; a second call finds nothing to delete and
    changes nothing. *)
Theorem removeFileChunks_exact (pid path : string) (s : store) :
  let out := removeFileChunks pid path s in
  out.1 = length (filter (matches pid path) (collection s)) /\
  filter (matches pid path) (collection out.2) = [] /\
  (forall pid' path', (pid', path') <> (pid, path) ->
     filter (matches pid' path') (collection out.2)
     = filter (matches pid' path') (collection s)) /\
  project_metadata out.2 = project_metadata s /\
  removeFileChunks pid path out.2 = (0%nat, out.2).
Proof.
  intros out. subst out. cbn [removeFileChunks fst snd collection project_metadata].
  assert (Hnone : filter (matches pid path)
                    (filter (fun d => ~ matches pid path d) (collection s)) = []).
  { apply filter_nothing. intros d Hd. now apply list_elem_of_filter in Hd as [Hd _]. }
  split; [reflexivity|]. split; [exact Hnone|]. split; [|split; [reflexivity|]].
  - intros pid' path' Hne. rewrite list_filter_filter. apply list_filter_iff.
    intros d. unfold matches. split; [tauto|].
    intros [H1 H2]. split; [now split|].
    intros [H3 H4]. apply Hne. congruence.
  - unfold removeFileChunks. cbn [collection next_id project_metadata].
    rewrite Hnone. cbn [length]. f_equal. f_equal.
    apply filter_all. intros d Hd. now apply list_elem_of_filter in Hd as [Hd _].
Qed.

(** *** The snapshot and the statistics *)

Lemma getExistingFiles_fold pid path (l : list stored) :
  forall acc : gmap string file_record,
    fold_left
      (fun (fileMap : gmap string file_record) d =>
         if decide (s_projectId d = pid) then
           match fileMap !! s_filePath d with
           | Some _ => fileMap
           | None =>
               <[ s_filePath d :=
                    {| fr_fileSize := fileSize (s_metadata d);
                       fr_lastModified := lastModified (s_metadata d);
                       fr_contentHash := contentHash (s_metadata d) |} ]> fileMap
           end
         else fileMap) l acc !! path
    = match acc !! path with
      | Some r => Some r
      | None => record_of <$> head (filter (matches pid path) l)
      end.
Proof.
  induction l as [|d l IH]; intros acc; cbn [fold_left].
  - now destruct (acc !! path).
  - rewrite IH. clear IH.
    destruct (decide (s_projectId d = pid)) as [Hp|Hp].
    + destruct (decide (s_filePath d = path)) as [Hf|Hf].
      * rewrite (filter_cons_True (matches pid path)) by now split.
        subst path. destruct (acc !! s_filePath d) as [r|] eqn:E.
        -- now rewrite E.
        -- rewrite lookup_insert_eq. reflexivity.
      * rewrite (filter_cons_False (matches pid path)) by (intros [_ H]; contradiction).
        destruct (acc !! s_filePath d) as [r|] eqn:E; [reflexivity|].
        now rewrite lookup_insert_ne.
    + rewrite (filter_cons_False (matches pid path)) by (intros [H _]; contradiction).
      reflexivity.
Qed.

(** The record the snapshot holds for a path is read off the first
    chunk stored for it in the project. *)
Lemma snapshot_lookup pid path s :
  getExistingFiles pid s !! path
  = record_of <$> head (filter (matches pid path) (collection s)).
Proof.
  unfold getExistingFiles. rewrite getExistingFiles_fold.
  now rewrite lookup_empty.
Qed.

Lemma head_is_Some {A} (l : list A) : is_Some (head l) <-> l <> [].
Proof.
  destruct l; cbn; split; intros H; try congruence.
  - now destruct H.
  - eauto.
Qed.

Lemma snapshot_is_Some pid path s :
  is_Some (getExistingFiles pid s !! path) <->
  exists d, d ∈ collection s /\ s_projectId d = pid /\ s_filePath d = path.
Proof.
  rewrite snapshot_lookup, fmap_is_Some, head_is_Some. split.
  - intros Hne. destruct (filter (matches pid path) (collection s)) as [|d l] eqn:E;
      [congruence|].
    assert (Hd : d ∈ filter (matches pid path) (collection s)) by (rewrite E; left).
    apply list_elem_of_filter in Hd as [[H1 H2] Hin]. eauto.
  - intros (d & Hin & H1 & H2) E.
    assert (Hd : d ∈ filter (matches pid path) (collection s))
      by (apply list_elem_of_filter; split; [now split | exact Hin]).
    rewrite E in Hd. inversion Hd.
Qed.

Lemma remove_dups_shorter {A} `{EqDecision A} (l : list A) :
  (length (remove_dups l) <= length l)%nat.
Proof.
  induction l as [|x l IH]; cbn [remove_dups length]; [lia|].
  destruct (decide_rel elem_of x l); cbn [length]; lia.
Qed.

Lemma stats_files_elem pid path s :
  path ∈ files (getProjectStats pid s) <->
  exists d, d ∈ collection s /\ s_projectId d = pid /\ s_filePath d = path.
Proof.
  cbn [getProjectStats files]. rewrite elem_of_remove_dups, list_elem_of_fmap.
  split.
  - intros (d & -> & Hd). apply list_elem_of_filter in Hd as [Hp Hin]. eauto.
  - intros (d & Hin & Hp & Hf). exists d. split; [now symmetry|].
    apply list_elem_of_filter. now split.
Qed.



(** *** addDocuments *)

Lemma inserted_project pid (docs : list document) (n : nat) :
  length (filter (fun d => s_projectId d = pid)
            (imap (fun i d => to_insert (n + i) d) docs))
  = length (filter (fun d => projectId d = pid) docs).
Proof.
  revert n. induction docs as [|doc docs IH]; intros n; [reflexivity|].
  cbn [imap]. rewrite !filter_cons. cbn [to_insert s_projectId].
  assert (Hrest : imap ((fun i d => to_insert (n + i) d) ∘ S) docs
                  = imap (fun i d => to_insert (S n + i) d) docs).
  { apply imap_ext. intros i d _. cbn. f_equal. lia. }
  rewrite Hrest.
  destruct (decide (projectId doc = pid)); cbn [length]; now rewrite IH.
Qed.


(** *** Projects *)

(** X5. [saveProjectMetadata] then [getProjectMetadata] gives back the
    directory and the exclude patterns saved; saving again replaces the
    record; the records of other projects and the documents are left
    alone. A project never saved has no metadata. *)
Theorem metadata_round_trip (pid dir : string) (excl : list string) (s : store) :
  let s' := saveProjectMetadata pid dir excl s in
  getProjectMetadata pid s'
  = Some {| directoryPath := dir; excludePatterns := excl |} /\
  (forall pid', pid' <> pid -> getProjectMetadata pid' s' = getProjectMetadata pid' s) /\
  (forall dir2 excl2,
     saveProjectMetadata pid dir2 excl2 s' = saveProjectMetadata pid dir2 excl2 s) /\
  collection s' = collection s /\
  getProjectMetadata pid empty_store = None.
Proof.
  intros s'. subst s'. unfold getProjectMetadata.
  cbn [saveProjectMetadata project_metadata collection].
  split; [apply lookup_insert_eq|].
  split; [intros pid' Hne; now apply lookup_insert_ne|].
  split; [|split; [reflexivity | apply lookup_empty]].
  intros dir2 excl2. unfold saveProjectMetadata.
  cbn [collection next_id project_metadata]. now rewrite insert_insert_eq.
Qed.

(** X6. [deleteProject] returns the number of documents the project
    had and leaves the project with no document, no file, an empty
    snapshot and no metadata; the documents, snapshot and metadata of
    every other project are untouched. Deleting again, or deleting a
    project that does not exist, returns 0 and changes nothing. *)
Theorem deleteProject_exact (pid : string) (s : store) :
  let out := deleteProject pid s in
  out.1 = countDocuments pid s /\
  countDocuments pid out.2 = 0%nat /\
  files (getProjectStats pid out.2) = [] /\
  getExistingFiles pid out.2 = ∅ /\
  getProjectMetadata pid out.2 = None /\
  (forall pid', pid' <> pid ->
     filter (fun d => s_projectId d = pid') (collection out.2)
     = filter (fun d => s_projectId d = pid') (collection s) /\
     getExistingFiles pid' out.2 = getExistingFiles pid' s /\
     getProjectMetadata pid' out.2 = getProjectMetadata pid' s) /\
  (countDocuments pid s = 0%nat -> getProjectMetadata pid s = None ->
   out = (0%nat, s)) /\
  deleteProject pid out.2 = (0%nat, out.2).
Proof.
  intros out. subst out.
  assert (Hnone : forall l : list stored,
            filter (fun d => s_projectId d = pid)
              (filter (fun d => s_projectId d <> pid) l) = []).
  { intros l. apply filter_nothing. intros d Hd.
    now apply list_elem_of_filter in Hd as [Hd _]. }
  assert (Hother : forall pid' (l : list stored), pid' <> pid ->
            filter (fun d => s_projectId d = pid')
              (filter (fun d => s_projectId d <> pid) l)
            = filter (fun d => s_projectId d = pid') l).
  { intros pid' l Hne. rewrite list_filter_filter. apply list_filter_iff.
    intros d. split; [tauto|]. intros H. split; [exact H | congruence]. }
  assert (Hid : forall s0, countDocuments pid s0 = 0%nat ->
            getProjectMetadata pid s0 = None -> deleteProject pid s0 = (0%nat, s0)).
  { intros s0 H0 Hm. unfold deleteProject, countDocuments, getProjectMetadata in *.
    rewrite H0. f_equal. destruct s0 as [coll nid pm]. cbn [collection next_id project_metadata] in *.
    f_equal.
    - apply filter_all. intros d Hd Hp.
      apply nil_length_inv in H0.
      assert (Hin : d ∈ filter (fun d => s_projectId d = pid) coll)
        by (apply list_elem_of_filter; now split).
      rewrite H0 in Hin. inversion Hin.
    - now apply delete_id. }
  assert (Hcount : countDocuments pid (deleteProject pid s).2 = 0%nat).
  { unfold countDocuments. cbn [deleteProject snd collection]. now rewrite Hnone. }
  assert (Hmeta : getProjectMetadata pid (deleteProject pid s).2 = None).
  { unfold getProjectMetadata. cbn [deleteProject snd project_metadata].
    apply lookup_delete_eq. }
  split; [reflexivity|]. split; [exact Hcount|].
  split.
  { cbn [deleteProject snd getProjectStats files collection]. now rewrite Hnone. }
  split.
  { apply map_eq. intros path. rewrite snapshot_lookup, lookup_empty.
    cbn [deleteProject snd collection].
    replace (filter (matches pid path) (filter (fun d => s_projectId d <> pid) (collection s)))
      with (@nil stored); [reflexivity|].
    symmetry. apply filter_nothing. intros d Hd [Hp _].
    now apply list_elem_of_filter in Hd as [Hd _]. }
  split; [exact Hmeta|].
  split.
  { intros pid' Hne. cbn [deleteProject snd collection].
    split; [now apply Hother|]. split.
    - apply map_eq. intros path. rewrite !snapshot_lookup.
      cbn [deleteProject snd collection]. f_equal. f_equal.
      rewrite list_filter_filter. apply list_filter_iff.
      intros d. unfold matches. split; [tauto|].
      intros [H1 H2]. split; [now split | congruence].
    - unfold getProjectMetadata. cbn [project_metadata]. now apply lookup_delete_ne. }
  split; [apply Hid|].
  apply Hid; assumption.
Qed.

(** X7. [getProjects] lists each project once, with the number of its
    documents. As soon as one metadata record exists, the projects
    listed are exactly those with a record, with their directory and
    patterns: a project that has documents but no record is left out.
    Without any record, the projects listed are those that have a
    document, with no directory and no patterns. *)
Theorem getProjects_listing (s : store) :
  let ps := getProjects s in
  NoDup (map pi_projectId ps) /\
  (forall p, p ∈ ps -> documentCount p = countDocuments (pi_projectId p) s) /\
  (project_metadata s <> ∅ ->
   forall pid,
     (pid ∈ map pi_projectId ps <-> is_Some (getProjectMetadata pid s)) /\
     (forall p, p ∈ ps -> pi_projectId p = pid ->
        exists m, getProjectMetadata pid s = Some m /\
          pi_directoryPath p = Some (directoryPath m) /\
          pi_excludePatterns p = excludePatterns m)) /\
  (project_metadata s = ∅ ->
   (forall pid, pid ∈ map pi_projectId ps <-> (0 < countDocuments pid s)%nat) /\
   (forall p, p ∈ ps -> pi_directoryPath p = None /\ pi_excludePatterns p = [])).
Proof.
  intros ps. subst ps. unfold getProjects, getProjectMetadata.
  destruct (Nat.ltb 0 (length (map_to_list (project_metadata s)))) eqn:E.
  - apply Nat.ltb_lt in E.
    assert (Hne : project_metadata s <> ∅).
    { intros H0. rewrite H0, map_to_list_empty in E. cbn in E. lia. }
    split.
    { rewrite map_map. cbn [pi_projectId].
      apply (NoDup_fst_map_to_list (project_metadata s)). }
    split.
    { intros p (m & -> & _)%list_elem_of_fmap. reflexivity. }
    split; [|intros H0; contradiction].
    intros _ pid. split.
    + rewrite map_map. cbn [pi_projectId]. rewrite list_elem_of_fmap. split.
      * intros ([k m] & -> & Hin). apply elem_of_map_to_list in Hin. eauto.
      * intros [m Hm]. exists (pid, m). split; [reflexivity|].
        now apply elem_of_map_to_list.
    + intros p ([k m] & -> & Hin)%list_elem_of_fmap Hp. cbn in Hp. subst k.
      apply elem_of_map_to_list in Hin. exists m. now repeat split.
  - apply Nat.ltb_ge in E.
    assert (He : project_metadata s = ∅).
    { apply map_to_list_empty_iff. destruct (map_to_list (project_metadata s));
        [reflexivity | cbn in E; lia]. }
    split.
    { rewrite map_map. cbn [pi_projectId]. rewrite map_id. apply NoDup_remove_dups. }
    split.
    { intros p (m & -> & _)%list_elem_of_fmap. reflexivity. }
    split; [intros Hne; contradiction|].
    intros _. split.
    + intros pid. rewrite map_map. cbn [pi_projectId]. rewrite map_id.
      rewrite elem_of_remove_dups, list_elem_of_fmap. unfold countDocuments. split.
      * intros (d & -> & Hd).
        assert (Hin : d ∈ filter (fun x => s_projectId x = s_projectId d) (collection s))
          by (apply list_elem_of_filter; now split).
        destruct (filter (fun x => s_projectId x = s_projectId d) (collection s));
          [inversion Hin | cbn; lia].
      * intros Hpos.
        destruct (filter (fun d => s_projectId d = pid) (collection s)) as [|d l] eqn:Ef;
          [cbn in Hpos; lia|].
        assert (Hin : d ∈ filter (fun d => s_projectId d = pid) (collection s))
          by (rewrite Ef; left).
        apply list_elem_of_filter in Hin as [Hp Hin]. exists d. now split.
    + intros p (pid & -> & _)%list_elem_of_fmap. now split.
Qed.

(** *** The scope of a search *)

(** X8. A search narrowed to a project returns documents of that
    project only; an empty project id narrows nothing, like [null]. A
    result copies the path, content and metadata of a stored document
    that has an [embedding] field. Without [topK] at most 3 results come
    back, and [topK = 0] gives none. *)
Theorem search_scope (q : option (list float)) (topK : option Z)
    (projectId : option string) (s : store) :
  (forall pid r, projectId = Some pid -> pid <> "" ->
     r ∈ search q topK projectId s -> sr_projectId r = pid) /\
  search q topK (Some "") s = search q topK None s /\
  (forall r, r ∈ search q topK projectId s ->
     exists doc, doc ∈ collection s /\ s_embedding doc <> NoField /\
       id r = _id doc /\ sr_projectId r = s_projectId doc /\
       sr_filePath r = s_filePath doc /\ sr_content r = s_content doc /\
       sr_metadata r = s_metadata doc) /\
  search q None projectId s = search q (Some 3) projectId s /\
  (length (search q None projectId s) <= 3)%nat /\
  search q (Some 0) projectId s = [].
Proof.
  assert (Hres : forall r, r ∈ search q topK projectId s ->
            exists doc, doc ∈ collection s /\ search_filter projectId doc = true /\
                        r = scored_of q doc).
  { intros r Hr. unfold search in Hr.
    apply SearchSpec.slice0_subset in Hr.
    rewrite SearchSpec.sort_by_score_perm in Hr.
    apply list_elem_of_fmap in Hr as (doc & -> & Hdoc).
    apply list_elem_of_In, filter_In in Hdoc as [Hin Hf].
    exists doc. split; [now apply list_elem_of_In|]. now split. }
  split.
  { intros pid r -> Hne Hr. destruct (Hres r Hr) as (doc & _ & Hf & ->).
    cbn [scored_of sr_projectId]. unfold search_filter in Hf.
    apply andb_prop in Hf as [_ Hf].
    destruct pid as [|c pid]; [congruence|]. cbn [Chunker.truthy] in Hf.
    now apply bool_decide_eq_true in Hf. }
  split; [reflexivity|].
  split.
  { intros r Hr. destruct (Hres r Hr) as (doc & Hin & Hf & ->).
    exists doc. split; [exact Hin|]. split; [|now repeat split].
    unfold search_filter in Hf. apply andb_prop in Hf as [Hf _].
    intros He. rewrite He in Hf. discriminate. }
  split; [reflexivity|].
  split.
  { pose proof (SearchSpec.search_length q None projectId s) as H.
    cbn [default] in H. change (3 <? 0) with false in H. cbv iota in H. lia. }
  unfold search, slice0. change (0 <? 0) with false. cbv iota.
  now rewrite Z.min_l by lia.
Qed.

(** *** Adding, then searching *)

Lemma slice0_all {A} (l : list A) (k : Z) :
  Z.of_nat (length l) <= k -> slice0 l k = l.
Proof.
  intros Hk. unfold slice0.
  destruct (Z.ltb_spec k 0) as [Hneg|_]; [lia|].
  rewrite Z.min_r by lia. rewrite Nat2Z.id. apply firstn_all.
Qed.

Lemma matched_within_project pid (s : store) :
  (length (matched (Some pid) s) <= countDocuments pid s)%nat \/ pid = "".
Proof.
  destruct pid as [|c pid]; [now right|]. left.
  unfold matched, countDocuments.
  induction (collection s) as [|d l IH]; [reflexivity|].
  cbn [List.filter]. rewrite filter_cons.
  unfold search_filter at 1. cbn [Chunker.truthy].
  destruct (decide (s_projectId d = String c pid)) as [Hd|Hd].
  - destruct (_ && _)%bool; cbn [length]; lia.
  - rewrite bool_decide_eq_false_2 by exact Hd. rewrite andb_false_r. exact IH.
Qed.



End StoreSpec.

(** ** Text files *)
Module TextFileSpec.
Import Indexer.

Lemma lower_char_not_R c : lower_char c <> "R"%char.
Proof. destruct c as [[] [] [] [] [] [] [] []]; vm_compute; discriminate. Qed.

Lemma lower_char_dot c : lower_char c = "."%char -> c = "."%char.
Proof. destruct c as [[] [] [] [] [] [] [] []]; vm_compute; congruence. Qed.

Lemma chars_of_string_of_list l :
  list_ascii_of_string (string_of_list_ascii l) = l.
Proof. apply list_ascii_of_string_of_list_ascii. Qed.

(** The suffix found starts at the last dot: no dot follows. *)
Lemma last_dot_suffix_shape l s :
  last_dot_suffix l = Some s ->
  exists t, s = ("."%char :: t) /\ Forall (fun c => c <> "."%char) t.
Proof.
  revert s. induction l as [|c l IH]; intros s; cbn [last_dot_suffix]; [discriminate|].
  destruct (last_dot_suffix l) as [s'|] eqn:E.
  - intros H. injection H as <-. now apply IH.
  - destruct (Ascii.eqb c ".") eqn:Ec; [|discriminate].
    intros H. injection H as <-. apply Ascii.eqb_eq in Ec. subst c.
    exists l. split; [reflexivity|].
    clear IH. induction l as [|d l IHl]; [constructor|].
    cbn [last_dot_suffix] in E.
    destruct (last_dot_suffix l) eqn:El; [discriminate|].
    destruct (Ascii.eqb d ".") eqn:Ed; [discriminate|].
    constructor; [now apply Ascii.eqb_neq | now apply IHl].
Qed.

Lemma extname_shape p :
  extname p = "" \/
  exists t, extname p = String "." (string_of_list_ascii t) /\
            Forall (fun c => c <> "."%char) t.
Proof.
  unfold extname.
  destruct (basename_from (list_ascii_of_string p) []) as [|c rest]; [now left|].
  destruct (last_dot_suffix rest) as [s|] eqn:E; [|now left].
  right. destruct (last_dot_suffix_shape _ _ E) as (t & -> & Ht).
  exists t. now split.
Qed.

Lemma basename_from_app l2 :
  Forall (fun c => c <> "/"%char) l2 ->
  forall l1 acc, basename_from (l1 ++ l2) acc = (basename_from l1 acc ++ l2)%list.
Proof.
  intros Hl2 l1. induction l1 as [|c l1 IH]; intros acc; cbn [app basename_from].
  - revert acc. induction Hl2 as [|d l2 Hd _ IH2]; intros acc; cbn [basename_from].
    + now rewrite app_nil_r.
    + apply Ascii.eqb_neq in Hd. rewrite Hd, IH2. now rewrite <- app_assoc.
  - destruct (Ascii.eqb c "/"); apply IH.
Qed.

Lemma last_dot_suffix_app l s :
  last_dot_suffix s = Some s -> last_dot_suffix (l ++ s) = Some s.
Proof.
  intros Hs. induction l as [|c l IH]; [exact Hs|].
  cbn [app last_dot_suffix]. now rewrite IH.
Qed.

Lemma chars_app (a b : string) :
  list_ascii_of_string (a ++ b)
  = (list_ascii_of_string a ++ list_ascii_of_string b)%list.
Proof. apply ChunkerSpec.chars_append. Qed.

Lemma extname_env_example p : extname (p ++ ".env.example") = ".example".
Proof.
  unfold extname. rewrite chars_app.
  rewrite basename_from_app
    by (cbn; repeat constructor; discriminate).
  destruct (basename_from (list_ascii_of_string p) []) as [|c rest].
  - reflexivity.
  - cbn [app].
    change (list_ascii_of_string ".env.example")
      with (list_ascii_of_string ".env" ++ list_ascii_of_string ".example")%list.
    rewrite app_assoc, last_dot_suffix_app; reflexivity.
Qed.

(** X11. [isTextFile] looks at the lower-cased last extension only. A
    name without extension is a text file. The extension it looks up
    never holds a second dot nor a capital letter, so the entries [.R]
    and [.env.example] of the list never match: a name that ends in
    [.env.example] has the extension [.example] and is not a text
    file. *)
Theorem isTextFile_last_extension (filename : string) :
  let ext := toLowerCase (extname filename) in
  (extname filename = "" -> isTextFile filename = true) /\
  (extname filename <> "" -> (isTextFile filename = true <-> ext ∈ textExtensions)) /\
  ext <> ".R" /\ ext <> ".env.example" /\
  extname (filename ++ ".env.example") = ".example" /\
  isTextFile (filename ++ ".env.example") = false.
Proof.
  intros ext. subst ext.
  split.
  { intros H. unfold isTextFile. rewrite H. apply orb_true_r. }
  split.
  { intros Hne. unfold isTextFile.
    destruct (extname filename) as [|c e] eqn:E; [congruence|].
    cbn [Chunker.truthy negb]. rewrite orb_false_r.
    rewrite existsb_exists. split.
    - intros (x & Hx & Heq). apply String.eqb_eq in Heq. subst x.
      now apply list_elem_of_In.
    - intros H. eexists. split; [apply list_elem_of_In, H | apply String.eqb_refl]. }
  split.
  { destruct (extname_shape filename) as [-> | (t & -> & Ht)]; [discriminate|].
    unfold toLowerCase. cbn [list_ascii_of_string map string_of_list_ascii].
    intros H. injection H as H.
    destruct (list_ascii_of_string (string_of_list_ascii t)) as [|c [|d l]];
      cbn in H; try discriminate.
    injection H as H. now apply lower_char_not_R in H. }
  split.
  { destruct (extname_shape filename) as [-> | (t & -> & Ht)]; [discriminate|].
    unfold toLowerCase. cbn [list_ascii_of_string map string_of_list_ascii].
    rewrite chars_of_string_of_list.
    intros H. injection H as H.
    assert (Hl : map lower_char t = list_ascii_of_string "env.example").
    { rewrite <- (chars_of_string_of_list (map lower_char t)). now rewrite H. }
    assert (Hdot : "."%char ∈ map lower_char t).
    { rewrite Hl. cbn. do 3 right. left. }
    apply list_elem_of_fmap in Hdot as (c & Hc & Hin).
    symmetry in Hc. apply lower_char_dot in Hc. subst c.
    rewrite Forall_forall in Ht. now apply (Ht _ Hin). }
  split; [apply extname_env_example|].
  unfold isTextFile. rewrite extname_env_example. reflexivity.
Qed.

End TextFileSpec.

(** ** The indexing run *)
Module IndexerSpec.
Import Indexer IndexerFixtures.

#[local] Arguments isTextFile : simpl never.
#[local] Arguments extname : simpl never.
#[local] Arguments file_progress : simpl never.
#[local] Arguments show_nat : simpl never.
#[local] Arguments strlen : simpl never.
#[local] Arguments Chunker.chunkContent : simpl never.
#[local] Arguments Store.getExistingFiles : simpl never.
#[local] Arguments Z.mul : simpl never.
#[local] Arguments Nat.modulo : simpl never.
#[local] Arguments inject_Z : simpl never.

Section Facts.
Context (w : World) (pid : string).

Local Abbreviation embedded := (Indexer.embedded w pid).
Local Abbreviation admissible := (Indexer.admissible w).
Local Abbreviation verdict_of := (Indexer.verdict_of w pid).
Local Abbreviation purged_by := (Indexer.purged_by pid).
Local Abbreviation with_verdict := (Indexer.with_verdict w pid).
Local Abbreviation walk_facts := (Indexer.walk_facts w pid).
Local Abbreviation purge_facts := (Indexer.purge_facts pid).
Local Abbreviation delta_facts := (Indexer.delta_facts w pid).

(** *** The embedding loop in closed form *)

Lemma push_documents_nil st : push_documents [] st = st.
Proof. destruct st. unfold push_documents. simpl. now rewrite app_nil_r. Qed.

Lemma embed_chunks_eq file content hash mtime total chunks :
  forall i st,
    embed_chunks w pid file content hash mtime total i chunks st =
    (push_documents (embedded file content hash mtime total i chunks).1 st,
     (embedded file content hash mtime total i chunks).2).
Proof.
  induction chunks as [|c chunks IH]; intros i st; simpl.
  - now rewrite push_documents_nil.
  - unfold mbind, M_bind, lift, modify. simpl.
    destruct (getEmbedding w (Chunker.content c)) as [e|msg]; simpl.
    + rewrite IH. unfold push_documents. simpl.
      now rewrite <- app_assoc.
    + now rewrite push_documents_nil.
Qed.

Lemma embedded_docs file content hash mtime total chunks :
  forall i d, d ∈ (embedded file content hash mtime total i chunks).1 ->
    Store.projectId d = pid /\ Store.filePath d = file.
Proof.
  induction chunks as [|c chunks IH]; intros i d; simpl.
  - intros H. inversion H.
  - destruct (getEmbedding w (Chunker.content c)); simpl.
    + intros [->|H]%elem_of_cons; [split; reflexivity | eapply IH, H].
    + intros H. inversion H.
Qed.

(** Unfolding of the monad and of the closures of the run. *)
Ltac exec :=
  unfold process_file, process_text_file, delta_decision, removeFileChunks,
    addDocuments, saveProjectMetadata, getExistingFiles, db_call, on_store,
    logMethod, updateProgress, try_catch, modify, gets, lift, throw,
    mbind, M_bind, mret, M_ret in *;
  simpl in *.

Ltac split_cases :=
  repeat (case_match; simpl in *; simplify_eq; try rewrite embed_chunks_eq in *).

Ltac unfold_setters :=
  unfold push_documents, emit, set_store, push_document, incr_processed,
    incr_skipped, incr_updated, incr_added, incr_deleted, add_currentFile,
    incr_fileIndex in *;
  simpl in *.

(** *** One iteration never throws *)

Lemma process_file_returns deltaOnly tracked dirPath existing total start file st :
  (process_file w pid deltaOnly tracked dirPath existing total start file st).2 = Ok tt.
Proof.
  exec. split_cases; try reflexivity.
Qed.

(** *** The delta decision, case by case *)

(** The effect of one iteration of the walk in delta mode. *)
Lemma process_file_delta tracked dirPath existing total start file st :
  let st' := (process_file w pid true tracked dirPath existing total start file st).1 in
  let v := verdict_of existing dirPath file in
  skipped st' = (skipped st + count_if (v = Some Unchanged))%nat /\
  updated st' = (updated st + count_if (v = Some Updated))%nat /\
  added st' = (added st + count_if (v = Some Added))%nat /\
  deleted st' = deleted st /\
  currentFiles st' = {[ file ]} ∪ currentFiles st /\
  store st' = (if decide (v = Some Updated)
               then (Store.removeFileChunks pid file (store st)).2
               else store st) /\
  exists ds, documents st' = (documents st ++ ds)%list /\
    (forall d, d ∈ ds -> Store.projectId d = pid /\ Store.filePath d = file) /\
    (v = None \/ v = Some Unchanged -> ds = []).
Proof.
  unfold verdict_of, admissible, count_if.
  exec. split_cases; unfold_setters;
    repeat (split; [first [reflexivity | lia | now destruct st] |]).
  all: try (exists []; rewrite app_nil_r; split; [reflexivity|];
            split; [intros d Hd; inversion Hd | reflexivity]).
  all: try (eexists; split; [reflexivity|]; split;
            [intros d Hd; eapply embedded_docs, Hd
            | intros [?|?]; congruence]).
Qed.

(** A document is pushed only for an updated or an added file. *)
Lemma process_file_pushed tracked dirPath existing total start file st :
  let st' := (process_file w pid true tracked dirPath existing total start file st).1 in
  forall ds d, documents st' = (documents st ++ ds)%list -> d ∈ ds ->
    verdict_of existing dirPath file = Some Updated \/
    verdict_of existing dirPath file = Some Added.
Proof.
  intros st' ds d Hdocs Hd.
  destruct (process_file_delta tracked dirPath existing total start file st)
    as (_ & _ & _ & _ & _ & _ & ds' & Hdocs' & _ & Hnil).
  fold st' in Hdocs'. rewrite Hdocs in Hdocs'. apply app_inv_head in Hdocs'. subst ds'.
  destruct (verdict_of existing dirPath file) as [[]|]; auto.
  - rewrite Hnil in Hd by auto. inversion Hd.
  - rewrite Hnil in Hd by auto. inversion Hd.
Qed.

(** *** The walk *)

Lemma purge_filter g ps (l : list Store.stored) :
  filter (fun d => ~ purged_by ps d) (filter (fun d => ~ Store.matches pid g d) l)
  = filter (fun d => ~ purged_by (g :: ps) d) l.
Proof.
  rewrite list_filter_filter. apply list_filter_iff.
  intros d. unfold purged_by, Store.matches. rewrite elem_of_cons.
  split.
  - intros [H1 H2] [Hp [Heq|Hin]]; [apply H2; now split | apply H1; now split].
  - intros H. split; intros [Hp Hq]; apply H; (split; [exact Hp|]); [now right | now left].
Qed.

Lemma purge_filter_nil (l : list Store.stored) :
  filter (fun d => ~ purged_by [] d) l = l.
Proof.
  induction l as [|d l IH]; [reflexivity|].
  rewrite filter_cons_True; [now rewrite IH|].
  intros [_ H]. inversion H.
Qed.

Lemma filter_length_cons {A} (P : A -> Prop) `{forall x, Decision (P x)} x l :
  length (filter P (x :: l)) = (count_if (P x) + length (filter P l))%nat.
Proof.
  unfold count_if. rewrite filter_cons. destruct (decide (P x)); reflexivity.
Qed.

(** The walk of delta mode never throws, and its effect on the counters,
    the store and the pending batch follows the verdicts. *)
Lemma walk_delta tracked dirPath existing total start files :
  forall st,
    let out := for_each files
                 (process_file w pid true tracked dirPath existing total start) st in
    out.2 = Ok tt /\ walk_facts existing dirPath files st out.1.
Proof.
  induction files as [|g files IH]; intros st; simpl.
  - split; [reflexivity|]. split; simpl; try lia; try reflexivity.
    + now rewrite (left_id_L ∅ (∪)).
    + now rewrite purge_filter_nil.
    + exists []. rewrite app_nil_r. split; [reflexivity|]. intros d Hd. inversion Hd.
  - unfold mbind, M_bind.
    pose proof (process_file_returns true tracked dirPath existing total start g st) as Hret.
    pose proof (process_file_delta tracked dirPath existing total start g st) as Hstep.
    destruct (process_file w pid true tracked dirPath existing total start g st)
      as [st1 r] eqn:E.
    simpl in Hret, Hstep. subst r.
    destruct Hstep as (Hs & Hu & Ha & Hd & Hc & Hst & ds1 & Hdocs & Hds1 & _).
    destruct (IH st1) as [Hok [Is Iu Ia Id Ic Icol Iid (ds2 & Idocs & Ids2)]].
    split; [exact Hok|].
    split; unfold with_verdict in *.
    + rewrite Is, Hs, filter_length_cons. lia.
    + rewrite Iu, Hu, filter_length_cons. lia.
    + rewrite Ia, Ha, filter_length_cons. lia.
    + now rewrite Id, Hd.
    + rewrite Ic, Hc, list_to_set_cons.
      now rewrite (assoc_L (∪)), (comm_L (∪) (list_to_set files)).
    + rewrite Icol, Hst. rewrite filter_cons.
      destruct (decide (verdict_of existing dirPath g = Some Updated)); simpl.
      * apply purge_filter.
      * reflexivity.
    + rewrite Iid, Hst.
      destruct (decide (verdict_of existing dirPath g = Some Updated)); reflexivity.
    + exists (ds1 ++ ds2)%list. split.
      * now rewrite Idocs, Hdocs, app_assoc.
      * intros d [Hin|Hin]%elem_of_app.
        -- destruct (Hds1 d Hin) as [Hp Hf]. split; [exact Hp|].
           rewrite Hf. split; [left|].
           pose proof (process_file_pushed tracked dirPath existing total start g st) as Hv.
           rewrite E in Hv. simpl in Hv. apply (Hv ds1 d Hdocs Hin).
        -- destruct (Ids2 d Hin) as (Hp & Hf & Hv).
           split; [exact Hp|]. split; [now right | exact Hv].
Qed.

(** *** The deletion pass *)

Lemma purge_filter_app ps qs (l : list Store.stored) :
  filter (fun d => ~ purged_by qs d) (filter (fun d => ~ purged_by ps d) l)
  = filter (fun d => ~ purged_by (ps ++ qs) d) l.
Proof.
  rewrite list_filter_filter. apply list_filter_iff.
  intros d. unfold purged_by. rewrite elem_of_app. tauto.
Qed.

Lemma purge_filter_one g (l : list Store.stored) :
  filter (fun d => ~ Store.matches pid g d) l = filter (fun d => ~ purged_by [g] d) l.
Proof.
  apply list_filter_iff. intros d. unfold purged_by, Store.matches.
  rewrite list_elem_of_singleton. tauto.
Qed.

Lemma purge_deleted_eq g st :
  purge_deleted w pid g st =
  match db_error w (OpRemoveFileChunks pid g) with
  | Some e => (st, Throw e)
  | None => (incr_deleted (set_store (Store.removeFileChunks pid g (store st)).2 st), Ok tt)
  end.
Proof.
  unfold purge_deleted. exec.
  destruct (db_error w (OpRemoveFileChunks pid g)); reflexivity.
Qed.

Lemma purge_loop ps :
  forall st, exists done,
    purge_facts ps done st (for_each ps (purge_deleted w pid) st).
Proof.
  induction ps as [|g ps IH]; intros st.
  - exists []. split; simpl; auto; try lia.
    now rewrite purge_filter_nil.
  - cbn [for_each]. unfold mbind, M_bind. rewrite purge_deleted_eq.
    destruct (db_error w (OpRemoveFileChunks pid g)) as [msg|].
    + exists []. split; simpl; auto; try lia; try discriminate;
        try apply prefix_nil; try now rewrite purge_filter_nil.
    + destruct (IH (incr_deleted (set_store (Store.removeFileChunks pid g (store st)).2 st)))
        as [done [H1 H2 H3 H4 H5 H6 H7 H8]].
      unfold_setters.
      exists (g :: done). split; simpl.
      * now apply prefix_cons.
      * intros H. now rewrite H2.
      * rewrite H3. rewrite purge_filter_one.
        apply (purge_filter_app [g] done).
      * exact H4.
      * rewrite H5. lia.
      * exact H6.
      * exact H7.
      * exact H8.
Qed.

(** *** A whole run in delta mode *)

(** The chunks the bulk insert stores come from the pending batch. *)
Lemma inserted_from_batch (docs : list Store.document) (n : nat) d :
  d ∈ imap (fun i doc => Store.to_insert (n + i) doc) docs ->
  exists doc, doc ∈ docs /\ Store.s_projectId d = Store.projectId doc /\
              Store.s_filePath d = Store.filePath doc.
Proof.
  intros (i & doc & -> & Hdoc)%elem_of_lookup_imap.
  exists doc. split; [eapply list_elem_of_lookup_2, Hdoc|]. split; reflexivity.
Qed.

Ltac red_state :=
  cbn [fst snd store sink documents processed skipped updated added deleted
       currentFiles fileIndex init_state push_documents emit set_store
       push_document incr_processed incr_skipped incr_updated incr_added
       incr_deleted add_currentFile incr_fileIndex
       Store.collection Store.next_id Store.project_metadata
       Store.addDocuments Store.saveProjectMetadata] in *.

Ltac exec_run :=
  unfold indexDirectory, index_run, index_body, load_existing, remove_deleted,
    save_documents, build_result, addDocuments, saveProjectMetadata,
    getExistingFiles, db_call, logMethod, updateProgress, try_catch, modify,
    gets, lift, throw, mbind, M_bind, mret, M_ret in *;
  red_state.

Lemma delta_run_effect tracked dirPath excl s files :
  glob w dirPath (defaultExcludes ++ excl) = Ok files ->
  db_error w (OpGetExistingFiles pid) = None ->
  delta_facts s (Store.getExistingFiles pid s) dirPath files
    (indexDirectory w dirPath pid excl true tracked s).
Proof.
  intros Hglob Hex.
  exec_run. rewrite Hglob, Hex. red_state.
  destruct tracked; red_state.
  all: match goal with |- context [for_each ?fs (process_file _ _ _ ?tr _ _ ?n _) ?s0] =>
         destruct (walk_delta tr dirPath (Store.getExistingFiles pid s) n 20 fs s0)
           as [Hok [Ws Wu Wa Wd Wc Wcol Wid (ds & Wdocs & Wds)]];
         destruct (for_each fs
                     (process_file w pid true tr dirPath (Store.getExistingFiles pid s) n 20) s0)
           as [st1 r1] eqn:E1 end.
  all: red_state; subst r1.
  all: rewrite (right_id_L ∅ (∪)) in Wc.
  all: rewrite Wc.
  all: match goal with |- context [for_each ?ps (purge_deleted w pid) ?s1] =>
         destruct (purge_loop ps s1) as [done [P1 P2 P3 P4 P5 P6 P7 (P8 & P9 & P10 & P11)]];
         destruct (for_each ps (purge_deleted w pid) s1) as [st2 r2] eqn:E2 end.
  all: red_state.
  all: rewrite Wcol, purge_filter_app in P3.
  all: rewrite app_nil_l in Wdocs.
  all: destruct r2 as [[]|msg2]; red_state.
  all: repeat (case_match; red_state; simplify_eq).
  all: split; red_state; try lia.
  all: try (intros r Hr; simplify_eq; reflexivity).
  all: try (exists done, []; rewrite app_nil_r;
            split; [exact P1|]; split; [exact P3|];
            split; [intros ? Hd; inversion Hd|];
            split; [lia|];
            split; [intros r Hr; first [discriminate Hr | now apply P2] | now left]).
  all: try (eexists done, _; split; [exact P1|]; split; [rewrite P3; reflexivity|];
            split; [|split; [lia|];
                     split; [intros r Hr; first [discriminate Hr | now apply P2]
                            | right; now rewrite P4, Wid]];
            intros d (doc & Hdoc & -> & ->)%inserted_from_batch;
            rewrite ?P6, ?Wdocs in Hdoc; apply Wds, Hdoc).
Qed.

(** A run that completes has loaded the snapshot. *)
Lemma completed_run_loaded tracked dirPath excl s st r :
  indexDirectory w dirPath pid excl true tracked s = (st, Ok r) ->
  db_error w (OpGetExistingFiles pid) = None.
Proof.
  exec_run.
  destruct (glob w dirPath (defaultExcludes ++ excl)) as [files|msg];
    destruct (db_error w (OpGetExistingFiles pid)) as [e|]; [|reflexivity| |reflexivity];
    destruct tracked; red_state; intros H; discriminate H.
Qed.

Lemma filter_none {A} (P : A -> Prop) `{forall x, Decision (P x)} (l : list A) :
  (forall x, x ∈ l -> ~ P x) -> filter P l = [].
Proof.
  induction l as [|x l IH]; intros Hl; [reflexivity|].
  rewrite filter_cons_False by (apply Hl; left).
  apply IH. intros y Hy. apply Hl. now right.
Qed.

Lemma filter_kept {A} (P Q : A -> Prop) `{forall x, Decision (P x)}
    `{forall x, Decision (Q x)} (l : list A) :
  (forall x, P x -> Q x) -> filter P (filter Q l) = filter P l.
Proof.
  intros HPQ. rewrite list_filter_filter. apply list_filter_iff.
  intros x. split; [tauto | auto].
Qed.

Lemma with_verdict_elem v existing dirPath files f :
  f ∈ with_verdict v existing dirPath files <->
  f ∈ files /\ verdict_of existing dirPath f = Some v.
Proof. unfold with_verdict. rewrite list_elem_of_filter. tauto. Qed.

Lemma deletedFiles_elem (existing : gmap string Store.file_record) files p :
  p ∈ deletedFiles existing (list_to_set files) <->
  is_Some (existing !! p) /\ p ∉ files.
Proof.
  unfold deletedFiles. rewrite list_elem_of_filter, not_elem_of_list_to_set.
  rewrite list_elem_of_fmap. split.
  - intros [Hp ([k fr] & -> & Hin)]. apply elem_of_map_to_list in Hin. eauto.
  - intros [[fr Hfr] Hp]. split; [exact Hp|].
    exists (p, fr). split; [reflexivity|]. now apply elem_of_map_to_list.
Qed.

(** No chunk of [(pid, p)] is left among the old chunks once [p] was
    purged. *)
Lemma purged_none paths p (l : list Store.stored) :
  p ∈ paths ->
  filter (Store.matches pid p) (filter (fun d => ~ purged_by paths d) l) = [].
Proof.
  intros Hp. apply filter_none. intros d Hd [Hpid Hpath].
  apply list_elem_of_filter in Hd as [Hnot _]. apply Hnot.
  split; [exact Hpid | now rewrite Hpath].
Qed.

(** The old chunks of a path that was not purged are all kept. *)
Lemma unpurged_kept paths p (l : list Store.stored) :
  p ∉ paths ->
  filter (Store.matches pid p) (filter (fun d => ~ purged_by paths d) l)
  = filter (Store.matches pid p) l.
Proof.
  intros Hp. apply filter_kept. intros d [Hpid Hpath] [_ Hin].
  apply Hp. now rewrite <- Hpath.
Qed.


(** The unchanged test, spelled out. *)
Lemma is_unchanged_spec e hash size mtime :
  is_unchanged e hash size mtime = true <->
  Store.fr_contentHash e = hash /\ Store.fr_fileSize e = size /\
  mtime <= Store.fr_lastModified e.
Proof.
  unfold is_unchanged. rewrite !andb_true_iff, String.eqb_eq, Z.eqb_eq, Z.leb_le.
  tauto.
Qed.

Lemma verdict_of_admissible existing dirPath f mtime content :
  isTextFile f = true ->
  stat_mtime w (path_join dirPath f) = Ok mtime ->
  readFile w (path_join dirPath f) = Ok content ->
  strlen content <= 1024 * 1024 ->
  verdict_of existing dirPath f =
    match existing !! f with
    | Some e =>
        if is_unchanged e (md5_hex w content) (strlen content) mtime
        then Some Unchanged
        else match db_error w (OpRemoveFileChunks pid f) with
             | None => Some Updated
             | Some _ => None
             end
    | None => Some Added
    end.
Proof.
  intros Ht Hs Hr Hsize. unfold verdict_of, admissible.
  rewrite Ht, Hs, Hr.
  destruct (strlen content >? 1024 * 1024) eqn:E; [|reflexivity].
  apply Z.gtb_lt in E. lia.
Qed.


(** *** The progress milestones *)

Lemma progress_values_app evs1 evs2 :
  progress_values (evs1 ++ evs2) = (progress_values evs1 ++ progress_values evs2)%list.
Proof. unfold progress_values. apply flat_map_app. Qed.

Lemma file_progress_mono start k1 k2 total :
  start <= 85 -> (k1 <= k2)%nat ->
  (file_progress start k1 total <= file_progress start k2 total)%Q.
Proof.
  intros Hs Hk. unfold file_progress.
  apply Qplus_le_r. apply Qmult_le_compat_r.
  - unfold Qdiv. apply Qmult_le_compat_r.
    + rewrite <- Zle_Qle. lia.
    + apply Qinv_le_0_compat. change 0%Q with (inject_Z 0). rewrite <- Zle_Qle. lia.
  - change 0%Q with (inject_Z 0). rewrite <- Zle_Qle. lia.
Qed.

Lemma file_progress_range start k total :
  0 <= start <= 85 -> (k <= total)%nat ->
  (inject_Z start <= file_progress start k total <= inject_Z 85)%Q.
Proof.
  intros Hs Hk. unfold file_progress.
  assert (H0 : (0 <= inject_Z (85 - start))%Q)
    by (change 0%Q with (inject_Z 0); rewrite <- Zle_Qle; lia).
  assert (Hk0 : (0 <= inject_Z (Z.of_nat k))%Q)
    by (change 0%Q with (inject_Z 0); rewrite <- Zle_Qle; lia).
  assert (Ht0 : (0 <= / inject_Z (Z.of_nat total))%Q).
  { apply Qinv_le_0_compat. change 0%Q with (inject_Z 0). rewrite <- Zle_Qle. lia. }
  assert (Hfrac : (inject_Z (Z.of_nat k) / inject_Z (Z.of_nat total) <= 1)%Q).
  { destruct total as [|t].
    - assert (k = 0%nat) by lia. subst k. vm_compute. discriminate.
    - apply Qle_shift_div_r.
      + change 0%Q with (inject_Z 0). rewrite <- Zlt_Qlt. lia.
      + rewrite Qmult_1_l. rewrite <- Zle_Qle. lia. }
  split.
  - rewrite <- (Qplus_0_r (inject_Z start)) at 1. apply Qplus_le_r.
    apply Qmult_le_0_compat; [|exact H0].
    unfold Qdiv. now apply Qmult_le_0_compat.
  - apply Qle_trans with (inject_Z start + 1 * inject_Z (85 - start))%Q.
    + apply Qplus_le_r. now apply Qmult_le_compat_r.
    + rewrite Qmult_1_l, <- inject_Z_plus.
      replace (start + (85 - start)) with 85 by lia. apply Qle_refl.
Qed.

(** What one iteration reports: nothing, or the percentage of the
    current [fileIndex]. *)
Lemma process_file_sink deltaOnly tracked dirPath existing total start file st :
  let st' := (process_file w pid deltaOnly tracked dirPath existing total start file st).1 in
  fileIndex st' = (fileIndex st + if isTextFile file then 1 else 0)%nat /\
  exists evs, sink st' = (sink st ++ evs)%list /\
    (progress_values evs = [] \/
     (isTextFile file = true /\
      progress_values evs = [file_progress start (fileIndex st') total])).
Proof.
  exec. split_cases; unfold_setters; (split; [lia|]).
  all: rewrite <- ?app_assoc; try (exists []; rewrite app_nil_r; split; [reflexivity | now left]).
  all: eexists; (split; [reflexivity|]); cbn;
    first [now left | right; split; [reflexivity|]; do 2 f_equal; lia].
Qed.

(** The percentages reported during the walk are those of strictly
    increasing file indexes. *)
Lemma walk_sink deltaOnly tracked dirPath existing total start files :
  forall st,
    let st' := (for_each files
                  (process_file w pid deltaOnly tracked dirPath existing total start) st).1 in
    fileIndex st' = (fileIndex st + length (List.filter isTextFile files))%nat /\
    exists evs ks, sink st' = (sink st ++ evs)%list /\
      progress_values evs = map (fun k => file_progress start k total) ks /\
      StronglySorted lt ks /\
      Forall (fun k => (fileIndex st < k <= fileIndex st')%nat) ks.
Proof.
  induction files as [|g files IH]; intros st.
  - cbn. split; [lia|]. exists [], []. rewrite app_nil_r.
    repeat split; constructor.
  - cbn [for_each]. unfold mbind, M_bind.
    pose proof (process_file_returns deltaOnly tracked dirPath existing total start g st) as Hret.
    pose proof (process_file_sink deltaOnly tracked dirPath existing total start g st) as Hstep.
    destruct (process_file w pid deltaOnly tracked dirPath existing total start g st)
      as [st1 r] eqn:E.
    cbn [fst snd] in Hret, Hstep. subst r. cbn zeta in Hstep.
    destruct Hstep as (Hidx & evs1 & Hsink1 & Hvals).
    destruct (IH st1) as (Hidx2 & evs2 & ks & Hsink2 & Hvals2 & Hsorted & Hrange).
    cbn zeta in *.
    set (st' := (for_each files _ st1).1) in *.
    assert (Hlen : fileIndex st' = (fileIndex st + length (List.filter isTextFile (g :: files)))%nat).
    { rewrite Hidx2, Hidx. cbn [List.filter]. destruct (isTextFile g); cbn [length]; lia. }
    split; [exact Hlen|].
    destruct Hvals as [Hnone | [Htext Hone]].
    + exists (evs1 ++ evs2)%list, ks.
      split; [now rewrite Hsink2, Hsink1, app_assoc|].
      split; [now rewrite progress_values_app, Hnone|].
      split; [exact Hsorted|].
      eapply Forall_impl; [exact Hrange|]. cbn. intros k Hk. lia.
    + rewrite Htext in Hidx.
      exists (evs1 ++ evs2)%list, (fileIndex st1 :: ks).
      split; [now rewrite Hsink2, Hsink1, app_assoc|].
      split; [now rewrite progress_values_app, Hone, Hvals2|].
      split.
      * constructor; [exact Hsorted|].
        eapply Forall_impl; [exact Hrange|]. cbn. intros k Hk. lia.
      * constructor; [lia|].
        eapply Forall_impl; [exact Hrange|]. cbn. intros k Hk. lia.
Qed.

Lemma walk_returns deltaOnly tracked dirPath existing total start files :
  forall st,
    (for_each files
       (process_file w pid deltaOnly tracked dirPath existing total start) st).2 = Ok tt.
Proof.
  induction files as [|g files IH]; intros st; [reflexivity|].
  cbn [for_each]. unfold mbind, M_bind.
  pose proof (process_file_returns deltaOnly tracked dirPath existing total start g st) as Hret.
  destruct (process_file w pid deltaOnly tracked dirPath existing total start g st) as [st1 r].
  cbn [snd] in Hret. subst r. apply IH.
Qed.

(** Milestones before the walk, the percentages of the walk, milestones
    after it. *)
Lemma sorted_sandwich (pre : list Q) (ks : list nat) (post : list Q) start total :
  0 <= start <= 85 ->
  StronglySorted Qle pre -> Forall (fun x => (x <= inject_Z start)%Q) pre ->
  StronglySorted lt ks -> Forall (fun k => (k <= total)%nat) ks ->
  StronglySorted Qle post -> Forall (fun z => (inject_Z 85 <= z)%Q) post ->
  StronglySorted Qle (pre ++ map (fun k => file_progress start k total) ks ++ post).
Proof.
  intros Hs Hpre Hlo Hks Hrange Hpost Hhi.
  assert (Hmid : StronglySorted Qle (map (fun k => file_progress start k total) ks)).
  { clear Hrange. induction Hks as [|k ks Hks IH Hall]; cbn; constructor.
    - exact IH.
    - apply Forall_map. eapply Forall_impl; [exact Hall|]. cbn.
      intros k' Hk'. apply file_progress_mono; lia. }
  rewrite Forall_forall in Hlo. rewrite Forall_forall in Hrange.
  rewrite Forall_forall in Hhi.
  assert (Hin : forall y, y ∈ map (fun k => file_progress start k total) ks ->
                  (inject_Z start <= y <= inject_Z 85)%Q).
  { intros y (k & -> & Hk)%list_elem_of_fmap.
    apply file_progress_range; [exact Hs | now apply Hrange]. }
  apply StronglySorted_app_2; [|exact Hpre|].
  - intros x y Hx [Hy|Hy]%elem_of_app.
    + apply Qle_trans with (inject_Z start); [now apply Hlo | now apply Hin].
    + apply Qle_trans with (inject_Z start); [now apply Hlo|].
      apply Qle_trans with (inject_Z 85); [|now apply Hhi].
      rewrite <- Zle_Qle. lia.
  - apply StronglySorted_app_2; [|exact Hmid|exact Hpost].
    intros x y Hx Hy. apply Qle_trans with (inject_Z 85);
      [now apply Hin | now apply Hhi].
Qed.

Ltac q_list :=
  repeat match goal with
    | |- Forall _ [] => constructor
    | |- StronglySorted _ [] => constructor
    | |- Forall _ (_ :: _) => constructor; [vm_compute; discriminate|]
    | |- StronglySorted _ (_ :: _) => constructor
    end.

Ltac sandwich_with pre f ks post :=
  match f with
  | (fun k => file_progress ?start k ?total) =>
      change (StronglySorted Qle (pre ++ map f ks ++ post));
      apply (sorted_sandwich pre ks post start total);
      [ lia | q_list | q_list | assumption
      | match goal with
        | H : Forall _ ks |- _ =>
            eapply Forall_impl; [exact H|]; cbn beta; intros; lia
        end
      | q_list | q_list ]
  end.

Ltac sandwich :=
  match goal with
  | |- StronglySorted Qle (?a :: ?b :: ?c :: map ?f ?ks ++ ?post) =>
      sandwich_with [a; b; c] f ks post
  | |- StronglySorted Qle (?a :: ?b :: map ?f ?ks ++ ?post) =>
      sandwich_with [a; b] f ks post
  | |- StronglySorted Qle (map ?f ?ks ++ ?post) =>
      sandwich_with (@nil Q) f ks post
  | |- StronglySorted Qle (?a :: ?b :: ?c :: map ?f ?ks) =>
      rewrite <- (app_nil_r (map f ks)); sandwich_with [a; b; c] f ks (@nil Q)
  | |- StronglySorted Qle (?a :: ?b :: map ?f ?ks) =>
      rewrite <- (app_nil_r (map f ks)); sandwich_with [a; b] f ks (@nil Q)
  | |- StronglySorted Qle (map ?f ?ks) =>
      rewrite <- (app_nil_r (map f ks)); sandwich_with (@nil Q) f ks (@nil Q)
  end.

(** The percentages an indexing run reports never decrease. *)
Lemma run_progress_sorted deltaOnly tracked dirPath excl s :
  StronglySorted Qle
    (progress_values (sink (indexDirectory w dirPath pid excl deltaOnly tracked s).1)).
Proof.
  exec_run.
  destruct (glob w dirPath (defaultExcludes ++ excl)) as [files|msg] eqn:Hglob; red_state.
  2: { destruct tracked; red_state; cbn; q_list. }
  destruct deltaOnly;
    [destruct (db_error w (OpGetExistingFiles pid)) eqn:Hex|];
    destruct tracked; red_state.
  all: try (cbn; q_list; fail).
  all: match goal with
       | |- context [for_each ?fs (process_file _ _ ?d ?tr ?dir ?ex ?n ?start) ?s0] =>
           destruct (walk_sink d tr dir ex n start fs s0)
             as (Hidx & evs & ks & Hsink & Hvals & Hks & Hrange);
           pose proof (walk_returns d tr dir ex n start fs s0) as Hok;
           destruct (for_each fs (process_file w pid d tr dir ex n start) s0)
             as [st1 r1] eqn:E1
       end.
  all: red_state; subst r1.
  all: try match goal with
       | |- context [for_each ?ps (purge_deleted w pid) ?s1] =>
           destruct (purge_loop ps s1)
             as [done [P1 P2 P3 P4 P5 P6 P7 (P8 & P9 & P10 & P11)]];
           destruct (for_each ps (purge_deleted w pid) s1) as [st2 r2] eqn:E2;
           red_state; destruct r2 as [[]|msg2]; red_state
       end.
  all: repeat (case_match; red_state; simplify_eq).
  all: red_state.
  all: rewrite ?progress_values_app, ?P7, ?progress_values_app, ?Hsink,
         ?progress_values_app, ?Hvals.
  all: cbn [progress_values flat_map app].
  all: rewrite <- ?app_assoc; cbn [app].
  all: sandwich.
Qed.

(** *** Failures *)

(** A file whose [stat] or read throws: the error is caught and logged,
    the walk goes on, and nothing else changes. *)
Lemma unreadable_file_skipped deltaOnly tracked dirPath existing total start file st msg :
  isTextFile file = true ->
  stat_mtime w (path_join dirPath file) = Throw msg \/
  (exists mtime, stat_mtime w (path_join dirPath file) = Ok mtime /\
                 readFile w (path_join dirPath file) = Throw msg) ->
  process_file w pid deltaOnly tracked dirPath existing total start file st =
  (emit (if tracked
         then JobLog ("Error processing file " ++ file ++ ": " ++ msg) error
         else LoggerInfo ("Error processing file " ++ file ++ ": " ++ msg))
     (incr_fileIndex (add_currentFile file st)), Ok tt).
Proof.
  intros Ht [Hs | (mtime & Hs & Hr)]; exec; rewrite Ht, Hs; cbn; [reflexivity|].
  rewrite Hr. reflexivity.
Qed.

(** The embedding loop that throws has pushed a document for each chunk
    before the one whose embedding failed, and for no other. *)
Lemma embedded_throw file content hash mtime total chunks :
  forall i ds msg,
    embedded file content hash mtime total i chunks = (ds, Throw msg) ->
    (length ds < length chunks)%nat /\
    map Store.content ds = map Chunker.content (take (length ds) chunks) /\
    map Store.chunkIndex ds = seq i (length ds) /\
    exists c, chunks !! length ds = Some c /\
              getEmbedding w (Chunker.content c) = Throw msg.
Proof.
  induction chunks as [|c chunks IH]; intros i ds msg; cbn [Indexer.embedded].
  - intros H. discriminate H.
  - destruct (getEmbedding w (Chunker.content c)) as [e|m] eqn:He.
    + destruct (Indexer.embedded w pid file content hash mtime total (S i) chunks)
        as [ds' r'] eqn:E.
      cbn [fst snd]. intros H. injection H as <- ->.
      destruct (IH (S i) ds' msg E) as (Hlen & Hc & Hi & c' & Hlook & Hthrow).
      cbn [length take map seq]. split; [lia|].
      split; [now rewrite Hc|]. split; [now rewrite Hi|].
      exists c'. split; [exact Hlook | exact Hthrow].
    + intros H. injection H as <- <-. cbn.
      split; [lia|]. split; [reflexivity|]. split; [reflexivity|].
      exists c. split; [reflexivity | exact He].
Qed.

(** A file whose embedding throws: the error is caught and logged and
    the file is not counted as processed, but the documents of the
    chunks embedded before the failure stay on the batch. *)
Lemma embedding_failure_caught deltaOnly tracked dirPath existing total start
    file st mtime content ds msg :
  isTextFile file = true ->
  stat_mtime w (path_join dirPath file) = Ok mtime ->
  readFile w (path_join dirPath file) = Ok content ->
  strlen content <= 1024 * 1024 ->
  (deltaOnly = true ->
   forall e, existing !! file = Some e ->
     is_unchanged e (md5_hex w content) (strlen content) mtime = false /\
     db_error w (OpRemoveFileChunks pid file) = None) ->
  embedded file content (md5_hex w content) mtime
    (length (Chunker.chunkContent content file)) 0
    (Chunker.chunkContent content file) = (ds, Throw msg) ->
  let out := process_file w pid deltaOnly tracked dirPath existing total start file st in
  out.2 = Ok tt /\
  documents out.1 = (documents st ++ ds)%list /\
  processed out.1 = processed st /\
  sink out.1 =
    (sink st ++ [if tracked
                 then JobLog ("Error processing file " ++ file ++ ": " ++ msg) error
                 else LoggerInfo ("Error processing file " ++ file ++ ": " ++ msg)])%list.
Proof.
  intros Ht Hs Hr Hsize Hdelta Hemb out. subst out.
  assert (Hgt : (strlen content >? 1024 * 1024) = false) by lia.
  unfold process_file, process_text_file, delta_decision, removeFileChunks,
    db_call, on_store, logMethod, updateProgress, try_catch, modify, gets, lift,
    mbind, M_bind, mret, M_ret.
  rewrite Ht, Hs, Hr. cbn beta iota. rewrite Hgt.
  destruct deltaOnly.
  - destruct (existing !! file) as [e|] eqn:He.
    + destruct (Hdelta eq_refl e eq_refl) as [Hu Hdb]. rewrite Hu, Hdb.
      cbn beta iota. rewrite embed_chunks_eq.
      fold (Indexer.embedded w pid). rewrite Hemb.
      destruct tracked; red_state; repeat split; reflexivity.
    + cbn beta iota. rewrite embed_chunks_eq.
      fold (Indexer.embedded w pid). rewrite Hemb.
      destruct tracked; red_state; repeat split; reflexivity.
  - cbn beta iota. rewrite embed_chunks_eq.
    fold (Indexer.embedded w pid). rewrite Hemb.
    destruct tracked; red_state; repeat split; reflexivity.
Qed.

(** The walk visits every file, whatever fails on the way. *)
Lemma process_file_current deltaOnly tracked dirPath existing total start file st :
  currentFiles (process_file w pid deltaOnly tracked dirPath existing total start file st).1
  = {[ file ]} ∪ currentFiles st.
Proof.
  exec. split_cases; unfold_setters; reflexivity.
Qed.

Lemma walk_visits_all deltaOnly tracked dirPath existing total start files :
  forall st,
    currentFiles
      (for_each files (process_file w pid deltaOnly tracked dirPath existing total start) st).1
    = list_to_set files ∪ currentFiles st.
Proof.
  induction files as [|f files IH]; intros st.
  - cbn. now rewrite (left_id_L ∅ (∪)).
  - cbn [for_each]. unfold mbind, M_bind.
    pose proof (process_file_returns deltaOnly tracked dirPath existing total start f st) as Hok.
    pose proof (process_file_current deltaOnly tracked dirPath existing total start f st) as Hcur.
    destruct (process_file w pid deltaOnly tracked dirPath existing total start f st)
      as [st1 r1].
    cbn [fst snd] in *. subst r1. rewrite IH, Hcur.
    rewrite list_to_set_cons.
    rewrite (comm_L (∪) {[ f ]} (list_to_set files)).
    now rewrite (assoc_L (∪)).
Qed.

(** A failure of the directory enumeration aborts the run. *)
Lemma enumeration_failure_fatal deltaOnly tracked dirPath excl s msg :
  glob w dirPath (defaultExcludes ++ excl) = Throw msg ->
  (indexDirectory w dirPath pid excl deltaOnly tracked s).2 = Throw msg.
Proof.
  intros Hglob. exec_run. rewrite Hglob. destruct tracked; reflexivity.
Qed.

(** A run that returns has upserted the project metadata, and has
    inserted its batch when there was one: a failure of either call
    aborts the run. *)
Lemma completed_run_persisted deltaOnly tracked dirPath excl s r :
  (indexDirectory w dirPath pid excl deltaOnly tracked s).2 = Ok r ->
  db_error w (OpSaveProjectMetadata pid) = None /\
  (chunksIndexed r <> 0%nat -> db_error w OpAddDocuments = None).
Proof.
  exec_run.
  destruct (glob w dirPath (defaultExcludes ++ excl)) as [files|msg] eqn:Hglob; red_state.
  2: { destruct tracked; red_state; discriminate. }
  destruct deltaOnly;
    [destruct (db_error w (OpGetExistingFiles pid)) eqn:Hex|];
    destruct tracked; red_state.
  all: try discriminate.
  all: match goal with
       | |- context [for_each ?fs (process_file _ _ ?d ?tr ?dir ?ex ?n ?start) ?s0] =>
           pose proof (walk_returns d tr dir ex n start fs s0) as Hok;
           destruct (for_each fs (process_file w pid d tr dir ex n start) s0)
             as [st1 r1] eqn:E1
       end.
  all: red_state; subst r1.
  all: try match goal with
       | |- context [for_each ?ps (purge_deleted w pid) ?s1] =>
           destruct (purge_loop ps s1)
             as [done [P1 P2 P3 P4 P5 P6 P7 (P8 & P9 & P10 & P11)]];
           destruct (for_each ps (purge_deleted w pid) s1) as [st2 r2] eqn:E2;
           red_state; destruct r2 as [[]|msg2]; red_state
       end.
  all: repeat (case_match; red_state; simplify_eq).
  all: intros Hr; simplify_eq; red_state.
  all: split; [first [reflexivity | assumption]|]; cbn [chunksIndexed]; intros Hn.
  all: first [ reflexivity | assumption
             | exfalso;
               match goal with
               | H : (0 <? ?n)%nat = false |- _ =>
                   apply Nat.ltb_ge in H; apply Hn; lia
               end ].
Qed.

(** *** The counters of the walk *)

Lemma embedded_ok file content hash mtime total chunks :
  forall i,
    (embedded file content hash mtime total i chunks).2 = Ok tt ->
    length (embedded file content hash mtime total i chunks).1 = length chunks /\
    map Store.chunkIndex (embedded file content hash mtime total i chunks).1
    = seq i (length chunks) /\
    map Store.content (embedded file content hash mtime total i chunks).1
    = map Chunker.content chunks /\
    Forall (fun d => Store.totalChunks d = total /\ Store.filePath d = file /\
                     Store.projectId d = pid /\
                     Store.fileSize (Store.meta d) = strlen content /\
                     Store.contentHash (Store.meta d) = hash /\
                     Store.lastModified (Store.meta d) = mtime)
           (embedded file content hash mtime total i chunks).1.
Proof.
  induction chunks as [|c chunks IH]; intros i; cbn [Indexer.embedded].
  - intros _. repeat split. constructor.
  - destruct (getEmbedding w (Chunker.content c)) as [e|msg]; cbn [fst snd];
      [|discriminate].
    intros Hok. destruct (IH (S i) Hok) as (H1 & H2 & H3 & H4).
    cbn [length map seq]. rewrite H1, H2, H3.
    repeat split. constructor; [|exact H4]. cbn. repeat split.
Qed.

Lemma process_file_counts deltaOnly tracked dirPath existing total start file st :
  let st' := (process_file w pid deltaOnly tracked dirPath existing total start file st).1 in
  let b := if isTextFile file then 1%nat else 0%nat in
  fileIndex st' = (fileIndex st + b)%nat /\
  (processed st <= processed st' <= processed st + b)%nat /\
  (length (documents st) + (processed st' - processed st) <= length (documents st'))%nat /\
  (skipped st + updated st + added st <= skipped st' + updated st' + added st'
   <= skipped st + updated st + added st + b)%nat /\
  (skipped st <= skipped st' /\ updated st <= updated st' /\ added st <= added st')%nat /\
  (deltaOnly = true ->
   (processed st' - processed st
    <= (updated st' - updated st) + (added st' - added st))%nat) /\
  (deltaOnly = false ->
   store st' = store st /\ skipped st' = skipped st /\ updated st' = updated st /\
   added st' = added st) /\
  deleted st' = deleted st.
Proof.
  exec. split_cases; unfold_setters.
  all: repeat split; try lia; try congruence; try reflexivity.
  all: rewrite ?length_app; try lia.
  all: match goal with
       | H : (Indexer.embedded _ _ ?f ?c ?h ?m ?t ?i ?cs).2 = Ok ?a |- _ =>
           destruct a;
           destruct (embedded_ok f c h m t cs i H) as (Hlen & _);
           rewrite Hlen;
           pose proof (ChunkerSpec.chunkContent_nonempty c f); lia
       end.
Qed.

Lemma walk_counts deltaOnly tracked dirPath existing total start files :
  forall st,
    let st' := (for_each files
                  (process_file w pid deltaOnly tracked dirPath existing total start) st).1 in
    let t := length (List.filter isTextFile files) in
    fileIndex st' = (fileIndex st + t)%nat /\
    (processed st <= processed st' <= processed st + t)%nat /\
    (length (documents st) + (processed st' - processed st) <= length (documents st'))%nat /\
    (skipped st + updated st + added st <= skipped st' + updated st' + added st'
     <= skipped st + updated st + added st + t)%nat /\
    (skipped st <= skipped st' /\ updated st <= updated st' /\ added st <= added st')%nat /\
    (deltaOnly = true ->
     (processed st' - processed st
      <= (updated st' - updated st) + (added st' - added st))%nat) /\
    (deltaOnly = false ->
     store st' = store st /\ skipped st' = skipped st /\ updated st' = updated st /\
     added st' = added st) /\
    deleted st' = deleted st.
Proof.
  induction files as [|f files IH]; intros st.
  - cbn. repeat split; lia.
  - cbn [for_each]. unfold mbind, M_bind.
    pose proof (process_file_returns deltaOnly tracked dirPath existing total start f st)
      as Hok.
    pose proof (process_file_counts deltaOnly tracked dirPath existing total start f st)
      as Hstep.
    destruct (process_file w pid deltaOnly tracked dirPath existing total start f st)
      as [st1 r1].
    cbn [fst snd] in Hok, Hstep. subst r1.
    specialize (IH st1). cbn zeta in IH, Hstep |- *.
    cbn [List.filter].
    destruct Hstep as (S1 & S2 & S3 & S4 & S5 & S6 & S7 & S8).
    destruct IH as (I1 & I2 & I3 & I4 & I5 & I6 & I7 & I8).
    set (st2 := (for_each files
                   (process_file w pid deltaOnly tracked dirPath existing total start) st1).1)
      in *.
    assert (Hb : length (if isTextFile f then f :: List.filter isTextFile files
                         else List.filter isTextFile files)
                 = ((if isTextFile f then 1 else 0)
                    + length (List.filter isTextFile files))%nat)
      by (destruct (isTextFile f); reflexivity).
    rewrite Hb.
    split; [lia|]. split; [lia|]. split; [lia|]. split; [lia|]. split; [lia|].
    split; [intros Hd; specialize (S6 Hd); specialize (I6 Hd); lia|].
    split; [|lia].
    intros Hd. destruct (S7 Hd) as (A1 & A2 & A3 & A4).
    destruct (I7 Hd) as (B1 & B2 & B3 & B4).
    repeat split; congruence.
Qed.

(** X18. The statistics of a run that returns. [filesTotal] is the
    number of text files found, [filesProcessed] the number of files
    whose chunks were all embedded, at most [filesTotal] and at most
    [chunksIndexed], since each such file gives at least one chunk;
    [chunksIndexed] is the size of the batch. A delta run adds its
    counters: skipped, updated and added files are together at most the
    text files found, and only updated or added files are processed. *)
Theorem run_statistics deltaOnly tracked dirPath excl s r :
  (indexDirectory w dirPath pid excl deltaOnly tracked s).2 = Ok r ->
  exists files, glob w dirPath (defaultExcludes ++ excl) = Ok files /\
    r_success r = true /\ r_projectId r = pid /\
    filesTotal r = length (List.filter isTextFile files) /\
    (filesProcessed r <= filesTotal r)%nat /\
    (filesProcessed r <= chunksIndexed r)%nat /\
    chunksIndexed r
    = length (documents (indexDirectory w dirPath pid excl deltaOnly tracked s).1) /\
    match deltaStats r with
    | Some ds =>
        deltaOnly = true /\ ds_total ds = filesTotal r /\
        (ds_skipped ds + ds_updated ds + ds_added ds <= ds_total ds)%nat /\
        (filesProcessed r <= ds_updated ds + ds_added ds)%nat
    | None => deltaOnly = false
    end.
Proof.
  exec_run.
  destruct (glob w dirPath (defaultExcludes ++ excl)) as [files|msg] eqn:Hglob; red_state.
  2: { destruct tracked; red_state; discriminate. }
  destruct deltaOnly;
    [destruct (db_error w (OpGetExistingFiles pid)) eqn:Hex|];
    destruct tracked; red_state.
  all: try discriminate.
  all: match goal with
       | |- context [for_each ?fs (process_file _ _ ?d ?tr ?dir ?ex ?n ?start) ?s0] =>
           pose proof (walk_returns d tr dir ex n start fs s0) as Hok;
           pose proof (walk_counts d tr dir ex n start fs s0) as Hcount;
           destruct (for_each fs (process_file w pid d tr dir ex n start) s0)
             as [st1 r1] eqn:E1
       end.
  all: red_state; subst r1.
  all: destruct Hcount as (C1 & C2 & C3 & C4 & C5 & C6 & C7 & C8); red_state.
  all: try match goal with
       | |- context [for_each ?ps (purge_deleted w pid) ?s1] =>
           destruct (purge_loop ps s1)
             as [done [P1 P2 P3 P4 P5 P6 P7 (P8 & P9 & P10 & P11)]];
           destruct (for_each ps (purge_deleted w pid) s1) as [st2 r2] eqn:E2;
           red_state; destruct r2 as [[]|msg2]; red_state
       end.
  all: repeat (case_match; red_state; simplify_eq).
  all: intros Hr; simplify_eq; red_state.
  all: cbn [deltaStats] in *; simplify_eq.
  all: exists files; split; [reflexivity|].
  all: cbn [r_success r_projectId filesTotal filesProcessed chunksIndexed deltaStats
            ds_total ds_skipped ds_updated ds_added].
  all: try specialize (C6 eq_refl).
  all: cbn [length] in C3.
  all: rewrite ?P6.
  all: repeat split; try reflexivity; try lia.
Qed.

(** *** What a run does to the store *)

Lemma others_after_remove pid' file (l : list Store.stored) :
  pid' <> pid ->
  filter (fun d => Store.s_projectId d = pid')
    (filter (fun d => ~ Store.matches pid file d) l)
  = filter (fun d => Store.s_projectId d = pid') l.
Proof.
  intros Hne. rewrite list_filter_filter. apply list_filter_iff.
  intros d. unfold Store.matches. split; [tauto|].
  intros Hd. split; [exact Hd|]. intros [Hp _]. congruence.
Qed.

Lemma embedded_project file content hash mtime total chunks i :
  Forall (fun d => Store.projectId d = pid)
    (embedded file content hash mtime total i chunks).1.
Proof.
  apply Forall_forall. intros d Hd.
  now destruct (embedded_docs file content hash mtime total chunks i d Hd).
Qed.

Lemma process_file_store deltaOnly tracked dirPath existing total start file st :
  let st' := (process_file w pid deltaOnly tracked dirPath existing total start file st).1 in
  Store.project_metadata (store st') = Store.project_metadata (store st) /\
  Store.next_id (store st') = Store.next_id (store st) /\
  (forall pid', pid' <> pid ->
     filter (fun d => Store.s_projectId d = pid') (Store.collection (store st'))
     = filter (fun d => Store.s_projectId d = pid') (Store.collection (store st))) /\
  exists ds, documents st' = (documents st ++ ds)%list /\
             Forall (fun d => Store.projectId d = pid) ds.
Proof.
  exec. split_cases; unfold_setters.
  all: repeat split; try reflexivity.
  all: try (intros pid' Hne; first [reflexivity | now apply others_after_remove]).
  all: first [ exists []; rewrite app_nil_r; split; [reflexivity | constructor]
             | eexists; split; [reflexivity | apply embedded_project] ].
Qed.

Lemma walk_store deltaOnly tracked dirPath existing total start files :
  forall st,
    let st' := (for_each files
                  (process_file w pid deltaOnly tracked dirPath existing total start) st).1 in
    Store.project_metadata (store st') = Store.project_metadata (store st) /\
    Store.next_id (store st') = Store.next_id (store st) /\
    (forall pid', pid' <> pid ->
       filter (fun d => Store.s_projectId d = pid') (Store.collection (store st'))
       = filter (fun d => Store.s_projectId d = pid') (Store.collection (store st))) /\
    exists ds, documents st' = (documents st ++ ds)%list /\
               Forall (fun d => Store.projectId d = pid) ds.
Proof.
  induction files as [|f files IH]; intros st.
  - cbn. repeat split. exists []. now rewrite app_nil_r.
  - cbn [for_each]. unfold mbind, M_bind.
    pose proof (process_file_returns deltaOnly tracked dirPath existing total start f st)
      as Hok.
    pose proof (process_file_store deltaOnly tracked dirPath existing total start f st)
      as Hstep.
    destruct (process_file w pid deltaOnly tracked dirPath existing total start f st)
      as [st1 r1].
    cbn [fst snd] in Hok, Hstep. subst r1.
    specialize (IH st1). cbn zeta in IH, Hstep |- *.
    destruct Hstep as (S1 & S2 & S3 & ds1 & S4 & S5).
    destruct IH as (I1 & I2 & I3 & ds2 & I4 & I5).
    split; [congruence|]. split; [congruence|].
    split; [intros pid' Hne; rewrite I3, S3 by exact Hne; reflexivity|].
    exists (ds1 ++ ds2)%list. split.
    + rewrite I4, S4. now rewrite <- app_assoc.
    + now apply Forall_app.
Qed.

Lemma purge_metadata ps :
  forall st,
    Store.project_metadata (store (for_each ps (purge_deleted w pid) st).1)
    = Store.project_metadata (store st).
Proof.
  induction ps as [|g ps IH]; intros st; [reflexivity|].
  cbn [for_each]. unfold mbind, M_bind. rewrite purge_deleted_eq.
  destruct (db_error w (OpRemoveFileChunks pid g)); [reflexivity|].
  rewrite IH. reflexivity.
Qed.

Lemma others_after_purge pid' done (l : list Store.stored) :
  pid' <> pid ->
  filter (fun d => Store.s_projectId d = pid')
    (filter (fun d => ~ Indexer.purged_by pid done d) l)
  = filter (fun d => Store.s_projectId d = pid') l.
Proof.
  intros Hne. rewrite list_filter_filter. apply list_filter_iff.
  intros d. unfold Indexer.purged_by. split; [tauto|].
  intros Hd. split; [exact Hd|]. intros [Hp _]. congruence.
Qed.

Lemma others_after_insert pid' (l : list Store.stored) (docs : list Store.document) n :
  pid' <> pid ->
  Forall (fun d => Store.projectId d = pid) docs ->
  filter (fun d => Store.s_projectId d = pid')
    (l ++ imap (fun i d => Store.to_insert (n + i) d) docs)%list
  = filter (fun d => Store.s_projectId d = pid') l.
Proof.
  intros Hne Hdocs. rewrite filter_app.
  rewrite (StoreSpec.filter_nothing _ (imap _ docs)); [now rewrite app_nil_r|].
  intros d (i & doc & -> & Hdoc)%elem_of_lookup_imap.
  cbn. rewrite Forall_forall in Hdocs.
  rewrite (Hdocs doc) by (eapply list_elem_of_lookup_2, Hdoc). congruence.
Qed.

(** X19. A run of the indexer for one project leaves the other projects
    alone, however it ends: their documents stay as they were, in their
    order, and so do their metadata records. A run that returns has
    recorded the directory and the caller's exclude patterns (without
    the default ones) for its project; a run that throws has left the
    metadata record of its project as it was. *)
Theorem run_isolated deltaOnly tracked dirPath excl s :
  let out := indexDirectory w dirPath pid excl deltaOnly tracked s in
  (forall pid', pid' <> pid ->
     filter (fun d => Store.s_projectId d = pid') (Store.collection (store out.1))
     = filter (fun d => Store.s_projectId d = pid') (Store.collection s) /\
     Store.getProjectMetadata pid' (store out.1) = Store.getProjectMetadata pid' s) /\
  (forall r, out.2 = Ok r ->
     Store.getProjectMetadata pid (store out.1)
     = Some {| Store.directoryPath := dirPath; Store.excludePatterns := excl |}) /\
  (forall msg, out.2 = Throw msg ->
     Store.getProjectMetadata pid (store out.1) = Store.getProjectMetadata pid s).
Proof.
  intros out. subst out. unfold Store.getProjectMetadata.
  exec_run.
  destruct (glob w dirPath (defaultExcludes ++ excl)) as [files|msg] eqn:Hglob; red_state.
  2: { destruct tracked; red_state; repeat split; try discriminate; reflexivity. }
  destruct deltaOnly;
    [destruct (db_error w (OpGetExistingFiles pid)) eqn:Hex|];
    destruct tracked; red_state.
  all: try (repeat split; try discriminate; reflexivity).
  all: match goal with
       | |- context [for_each ?fs (process_file _ _ ?d ?tr ?dir ?ex ?n ?start) ?s0] =>
           pose proof (walk_returns d tr dir ex n start fs s0) as Hok;
           pose proof (walk_store d tr dir ex n start fs s0) as Hst;
           destruct (for_each fs (process_file w pid d tr dir ex n start) s0)
             as [st1 r1] eqn:E1
       end.
  all: red_state; subst r1.
  all: destruct Hst as (W1 & W2 & W3 & ds & W4 & W5); red_state.
  all: cbn [app] in W4; subst ds.
  all: try match goal with
       | |- context [for_each ?ps (purge_deleted w pid) ?s1] =>
           pose proof (purge_metadata ps s1) as Pm;
           destruct (purge_loop ps s1)
             as [done [P1 P2 P3 P4 P5 P6 P7 (P8 & P9 & P10 & P11)]];
           destruct (for_each ps (purge_deleted w pid) s1) as [st2 r2] eqn:E2;
           red_state; destruct r2 as [[]|msg2]; red_state
       end.
  all: repeat (case_match; red_state; simplify_eq).
  all: split; [intros pid' Hne; split|split; [intros r Hr|intros m Hm]].
  all: simplify_eq; red_state.
  all: rewrite ?lookup_insert_eq, ?lookup_insert_ne by congruence.
  all: rewrite ?Pm, ?W1; try reflexivity.
  all: rewrite ?others_after_insert by (try rewrite P6; assumption).
  all: rewrite ?P3, ?others_after_purge by assumption.
  all: try (now apply W3).
Qed.

(** X20. A full (non-delta) run deletes nothing: the collection it
    leaves is the one it found followed by what it inserted, which is
    either nothing or its whole batch, under fresh ids in the order of
    the batch. After a run that returns, the inserted documents are
    exactly the [chunksIndexed] of the result: indexing the same
    directory again in full mode adds its chunks a second time. *)
Theorem full_run_appends tracked dirPath excl s :
  let out := indexDirectory w dirPath pid excl false tracked s in
  exists inserted,
    Store.collection (store out.1) = (Store.collection s ++ inserted)%list /\
    (inserted = [] \/
     inserted = imap (fun i doc => Store.to_insert (Store.next_id s + i) doc)
                  (documents out.1)) /\
    Forall (fun d => Store.s_projectId d = pid) inserted /\
    (forall r, out.2 = Ok r ->
       inserted = imap (fun i doc => Store.to_insert (Store.next_id s + i) doc)
                    (documents out.1) /\
       length inserted = chunksIndexed r).
Proof.
  intros out. subst out.
  exec_run.
  destruct (glob w dirPath (defaultExcludes ++ excl)) as [files|msg] eqn:Hglob; red_state.
  2: { destruct tracked; red_state; exists []; rewrite app_nil_r;
       repeat split; try discriminate; auto. }
  destruct tracked; red_state.
  all: match goal with
       | |- context [for_each ?fs (process_file _ _ ?d ?tr ?dir ?ex ?n ?start) ?s0] =>
           pose proof (walk_returns d tr dir ex n start fs s0) as Hok;
           pose proof (walk_store d tr dir ex n start fs s0) as Hst;
           pose proof (walk_counts d tr dir ex n start fs s0) as Hcount;
           destruct (for_each fs (process_file w pid d tr dir ex n start) s0)
             as [st1 r1] eqn:E1
       end.
  all: red_state; subst r1.
  all: destruct Hst as (W1 & W2 & W3 & ds & W4 & W5); red_state.
  all: cbn [app] in W4; subst ds.
  all: destruct Hcount as (_ & _ & _ & _ & _ & _ & C7 & _); red_state.
  all: destruct (C7 eq_refl) as (C8 & _); clear C7; red_state.
  all: repeat (case_match; red_state; simplify_eq).
  all: rewrite ?C8, ?W2; red_state.
  all: first [ eexists; split; [reflexivity|]
             | exists []; rewrite app_nil_r; split; [reflexivity|] ].
  all: (split; [first [now left | now right]|]); split.
  all: try (intros r Hr; simplify_eq; cbn [chunksIndexed]).
  all: try (split; [reflexivity|]; now rewrite length_imap).
  all: try (apply Forall_forall; intros d (i & doc & -> & Hdoc)%elem_of_lookup_imap;
            cbn; rewrite Forall_forall in W5; apply W5;
            eapply list_elem_of_lookup_2, Hdoc).
  all: try (now constructor).
  all: match goal with
       | H : (0 <? ?n)%nat = false |- _ => apply Nat.ltb_ge in H
       end.
  all: match goal with
       | |- context [imap _ ?l] =>
           destruct l; [split; reflexivity | cbn [length] in *; lia]
       end.
Qed.

(** *** One file of the walk *)

Lemma embedded_all_ok file content hash mtime total chunks :
  forall i,
    (forall c, c ∈ chunks -> exists e, getEmbedding w (Chunker.content c) = Ok e) ->
    (embedded file content hash mtime total i chunks).2 = Ok tt.
Proof.
  induction chunks as [|c chunks IH]; intros i Hall; cbn [Indexer.embedded]; [reflexivity|].
  assert (Hc : c ∈ c :: chunks) by left.
  destruct (Hall c Hc) as [e He]. rewrite He. cbn [snd].
  apply IH. intros c' Hc'. apply Hall. now right.
Qed.

Lemma embedded_lines file content hash mtime total chunks :
  forall i,
    (embedded file content hash mtime total i chunks).2 = Ok tt ->
    map (fun d => (Store.startLine (Store.meta d), Store.endLine (Store.meta d)))
        (embedded file content hash mtime total i chunks).1
    = map (fun c => (Chunker.startLine c, Chunker.endLine c)) chunks.
Proof.
  induction chunks as [|c chunks IH]; intros i; cbn [Indexer.embedded]; [reflexivity|].
  destruct (getEmbedding w (Chunker.content c)) as [e|msg]; cbn [fst snd];
    [|discriminate].
  intros Hok. cbn [map]. now rewrite (IH (S i) Hok).
Qed.


(** X22. A text file longer than 1 MiB is passed over with one warning:
    no document is pushed, no counter but [fileIndex] moves (the file is
    neither processed nor skipped, updated or added), and the store
    keeps whatever chunks it held for the file. The file is still
    recorded as present, so that a delta run does not purge it. *)
Theorem large_file_skipped (deltaOnly tracked : bool) dirPath
    (existing : gmap string Store.file_record) total start file st mtime content :
  isTextFile file = true ->
  stat_mtime w (path_join dirPath file) = Ok mtime ->
  readFile w (path_join dirPath file) = Ok content ->
  strlen content > 1024 * 1024 ->
  let st' := (process_file w pid deltaOnly tracked dirPath existing total start file st).1 in
  documents st' = documents st /\ store st' = store st /\
  processed st' = processed st /\ skipped st' = skipped st /\
  updated st' = updated st /\ added st' = added st /\
  fileIndex st' = S (fileIndex st) /\
  currentFiles st' = {[ file ]} ∪ currentFiles st /\
  sink st' = (sink st ++ [if tracked then JobLog ("Skipping large file: " ++ file) warn
                          else LoggerInfo ("Skipping large file: " ++ file)])%list.
Proof.
  intros Htext Hstat Hread Hsize st'. subst st'.
  assert (Hgt : (strlen content >? 1024 * 1024) = true)
    by (rewrite Z.gtb_ltb; apply Z.ltb_lt; lia).
  exec. rewrite Htext, Hstat, Hread. simpl. rewrite Hgt. simpl.
  repeat split.
Qed.

(** *** Where the messages go *)

Lemma process_file_events deltaOnly tracked dirPath existing total start file st :
  let st' := (process_file w pid deltaOnly tracked dirPath existing total start file st).1 in
  exists evs, sink st' = (sink st ++ evs)%list /\
    Forall (fun e => match e with
                     | LoggerInfo _ => tracked = false
                     | _ => tracked = true
                     end) evs.
Proof.
  exec. split_cases; unfold_setters.
  all: rewrite <- ?app_assoc.
  all: first [ exists []; rewrite app_nil_r; split; [reflexivity | constructor]
             | eexists; split; [reflexivity | repeat constructor] ].
Qed.

Lemma walk_events deltaOnly tracked dirPath existing total start files :
  forall st,
    let st' := (for_each files
                  (process_file w pid deltaOnly tracked dirPath existing total start) st).1 in
    exists evs, sink st' = (sink st ++ evs)%list /\
      Forall (fun e => match e with
                       | LoggerInfo _ => tracked = false
                       | _ => tracked = true
                       end) evs.
Proof.
  induction files as [|f files IH]; intros st.
  - cbn. exists []. rewrite app_nil_r. split; [reflexivity | constructor].
  - cbn [for_each]. unfold mbind, M_bind.
    pose proof (process_file_returns deltaOnly tracked dirPath existing total start f st)
      as Hok.
    pose proof (process_file_events deltaOnly tracked dirPath existing total start f st)
      as Hstep.
    destruct (process_file w pid deltaOnly tracked dirPath existing total start f st)
      as [st1 r1].
    cbn [fst snd] in Hok, Hstep. subst r1.
    specialize (IH st1). cbn zeta in IH, Hstep |- *.
    destruct Hstep as (evs1 & S1 & S2). destruct IH as (evs2 & I1 & I2).
    exists (evs1 ++ evs2)%list. split.
    + now rewrite I1, S1, app_assoc.
    + now apply Forall_app.
Qed.



(** *** A delta run in closed form *)

Local Abbreviation file_documents := (Indexer.file_documents w pid).

Lemma process_file_batch tracked dirPath existing total start file st :
  documents (process_file w pid true tracked dirPath existing total start file st).1
  = (documents st ++ file_documents existing dirPath file)%list.
Proof.
  unfold Indexer.file_documents, Indexer.verdict_of, Indexer.admissible.
  exec. split_cases; unfold_setters.
  all: rewrite ?app_nil_r; reflexivity.
Qed.

Lemma walk_batch tracked dirPath existing total start files :
  forall st,
    documents (for_each files
                 (process_file w pid true tracked dirPath existing total start) st).1
    = (documents st ++ flat_map (file_documents existing dirPath) files)%list.
Proof.
  induction files as [|f files IH]; intros st.
  - cbn. now rewrite app_nil_r.
  - cbn [for_each flat_map]. unfold mbind, M_bind.
    pose proof (process_file_returns true tracked dirPath existing total start f st)
      as Hok.
    pose proof (process_file_batch tracked dirPath existing total start f st) as Hstep.
    destruct (process_file w pid true tracked dirPath existing total start f st)
      as [st1 r1].
    cbn [fst snd] in Hok, Hstep. subst r1.
    rewrite IH, Hstep. now rewrite <- app_assoc.
Qed.

Lemma store_ext (a b : Store.store) :
  Store.collection a = Store.collection b ->
  Store.next_id a = Store.next_id b ->
  Store.project_metadata a = Store.project_metadata b ->
  a = b.
Proof. destruct a, b. cbn. now intros -> -> ->. Qed.

(** The store a completed delta run leaves: the chunks of the updated
    and of the deleted files are gone, the batch follows. *)
Lemma delta_run_closed tracked dirPath excl s files r :
  glob w dirPath (defaultExcludes ++ excl) = Ok files ->
  (indexDirectory w dirPath pid excl true tracked s).2 = Ok r ->
  let existing := Store.getExistingFiles pid s in
  let batch := flat_map (file_documents existing dirPath) files in
  db_error w (OpGetExistingFiles pid) = None /\
  db_error w (OpSaveProjectMetadata pid) = None /\
  Store.collection (store (indexDirectory w dirPath pid excl true tracked s).1)
  = (filter (fun d => ~ purged_by (with_verdict Updated existing dirPath files ++
                                   deletedFiles existing (list_to_set files)) d)
       (Store.collection s)
     ++ imap (fun i doc => Store.to_insert (Store.next_id s + i) doc) batch)%list /\
  Store.project_metadata (store (indexDirectory w dirPath pid excl true tracked s).1)
  = <[ pid := {| Store.directoryPath := dirPath; Store.excludePatterns := excl |} ]>
      (Store.project_metadata s) /\
  documents (indexDirectory w dirPath pid excl true tracked s).1 = batch /\
  filesTotal r = length (List.filter isTextFile files).
Proof.
  intros Hglob Hr existing batch. subst existing batch.
  revert Hr. exec_run. rewrite Hglob. red_state.
  destruct (db_error w (OpGetExistingFiles pid)) eqn:Hex;
    destruct tracked; red_state.
  all: try discriminate.
  all: match goal with
       | |- context [for_each ?fs (process_file _ _ _ ?tr ?dir ?ex ?n ?start) ?s0] =>
           destruct (walk_delta tr dir ex n start fs s0)
             as [Hok [Ws Wu Wa Wd Wc Wcol Wid _]];
           pose proof (walk_batch tr dir ex n start fs s0) as Wdocs;
           pose proof (walk_store true tr dir ex n start fs s0) as (Wmeta & _);
           destruct (for_each fs (process_file w pid true tr dir ex n start) s0)
             as [st1 r1] eqn:E1
       end.
  all: red_state; subst r1.
  all: rewrite (right_id_L ∅ (∪)) in Wc.
  all: rewrite Wc.
  all: match goal with
       | |- context [for_each ?ps (purge_deleted w pid) ?s1] =>
           pose proof (purge_metadata ps s1) as Pm;
           destruct (purge_loop ps s1)
             as [done [P1 P2 P3 P4 P5 P6 P7 (P8 & P9 & P10 & P11)]];
           destruct (for_each ps (purge_deleted w pid) s1) as [st2 r2] eqn:E2
       end.
  all: red_state.
  all: rewrite Wcol, purge_filter_app in P3.
  all: rewrite app_nil_l in Wdocs.
  all: destruct r2 as [[]|msg2]; red_state.
  all: try (specialize (P2 eq_refl); subst done).
  all: repeat (case_match; red_state; simplify_eq).
  all: intros Hr; simplify_eq; red_state.
  all: rewrite ?P6, ?Wdocs in *.
  all: repeat split; try reflexivity.
  all: rewrite ?P3, ?P4, ?Wid, ?Pm, ?Wmeta; try reflexivity.
  all: match goal with
       | H : (0 <? length ?b)%nat = false |- _ =>
           destruct b; [now rewrite app_nil_r | discriminate H]
       end.
Qed.

(** *** The snapshot a completed delta run leaves *)

Lemma embedded_meta file content hash mtime total chunks :
  forall i d, d ∈ (embedded file content hash mtime total i chunks).1 ->
    Store.fileSize (Store.meta d) = strlen content /\
    Store.lastModified (Store.meta d) = mtime /\
    Store.contentHash (Store.meta d) = hash.
Proof.
  induction chunks as [|c chunks IH]; intros i d; cbn [Indexer.embedded].
  - intros H. inversion H.
  - destruct (getEmbedding w (Chunker.content c)); cbn [fst].
    + intros [->|H]%elem_of_cons; [repeat split | eapply IH, H].
    + intros H. inversion H.
Qed.

(** What is known of a document of the batch. *)
Lemma file_documents_elem existing dirPath f d :
  d ∈ file_documents existing dirPath f ->
  Store.projectId d = pid /\ Store.filePath d = f /\
  exists mtime content,
    admissible dirPath f = Some (mtime, content) /\
    (verdict_of existing dirPath f = Some Updated \/
     verdict_of existing dirPath f = Some Added) /\
    Store.fileSize (Store.meta d) = strlen content /\
    Store.lastModified (Store.meta d) = mtime /\
    Store.contentHash (Store.meta d) = md5_hex w content.
Proof.
  unfold Indexer.file_documents.
  destruct (admissible dirPath f) as [[mtime content]|]; [|intros H; inversion H].
  destruct (verdict_of existing dirPath f) as [[]|]; try (intros H; inversion H; fail).
  all: intros Hd; destruct (embedded_docs _ _ _ _ _ _ _ _ Hd) as [Hp Hf];
    destruct (embedded_meta _ _ _ _ _ _ _ _ Hd) as (M1 & M2 & M3).
  all: split; [exact Hp|]; split; [exact Hf|]; exists mtime, content.
  all: repeat split; auto.
Qed.

Lemma batch_elem existing dirPath files d :
  d ∈ flat_map (file_documents existing dirPath) files <->
  exists f, f ∈ files /\ d ∈ file_documents existing dirPath f.
Proof.
  induction files as [|g files IH]; cbn [flat_map].
  - split; [intros H; inversion H | intros (f & H & _); inversion H].
  - rewrite elem_of_app, IH. split.
    + intros [H | (f & H1 & H2)]; [exists g; split; [left | exact H]
                                  | exists f; split; [now right | exact H2]].
    + intros (f & [->|H1]%elem_of_cons & H2); [now left | right; eauto].
Qed.

Lemma inserted_elem (n : nat) (batch : list Store.document) d :
  d ∈ imap (fun i doc => Store.to_insert (n + i) doc) batch <->
  exists i doc, batch !! i = Some doc /\ d = Store.to_insert (n + i) doc.
Proof.
  rewrite elem_of_lookup_imap. split.
  - intros (i & doc & -> & H). eauto.
  - intros (i & doc & H & ->). eauto.
Qed.

(** The chunks a completed delta run holds for a file of the walk. *)
Lemma chunks_after_run existing dirPath files (l : list Store.stored) n f :
  f ∈ files ->
  filter (Store.matches pid f)
    (filter (fun d => ~ purged_by (with_verdict Updated existing dirPath files ++
                                   deletedFiles existing (list_to_set files)) d) l
     ++ imap (fun i doc => Store.to_insert (n + i) doc)
          (flat_map (file_documents existing dirPath) files))%list
  = ((if decide (verdict_of existing dirPath f = Some Updated) then []
      else filter (Store.matches pid f) l)
     ++ filter (Store.matches pid f)
          (imap (fun i doc => Store.to_insert (n + i) doc)
             (flat_map (file_documents existing dirPath) files)))%list.
Proof.
  intros Hf. rewrite filter_app. f_equal.
  destruct (decide (verdict_of existing dirPath f = Some Updated)) as [Hv|Hv].
  - apply purged_none. apply elem_of_app. left. now apply with_verdict_elem.
  - apply unpurged_kept. intros [Hin|Hin]%elem_of_app.
    + apply with_verdict_elem in Hin as [_ Hin]. contradiction.
    + apply deletedFiles_elem in Hin as [_ Hin]. contradiction.
Qed.

Lemma inserted_of_file existing dirPath files n f d :
  d ∈ filter (Store.matches pid f)
        (imap (fun i doc => Store.to_insert (n + i) doc)
           (flat_map (file_documents existing dirPath) files)) ->
  exists doc, doc ∈ file_documents existing dirPath f /\
    Store.s_metadata d = Store.meta doc.
Proof.
  intros [[Hp Hpath] Hin]%list_elem_of_filter.
  apply inserted_elem in Hin as (i & doc & Hdoc & ->).
  apply list_elem_of_lookup_2 in Hdoc.
  apply batch_elem in Hdoc as (g & Hg & Hdoc).
  destruct (file_documents_elem _ _ _ _ Hdoc) as (_ & Hfg & _).
  cbn in Hpath. rewrite Hfg in Hpath. subst g.
  exists doc. split; [exact Hdoc | reflexivity].
Qed.

Lemma inserted_none existing dirPath files n f :
  file_documents existing dirPath f = [] ->
  filter (Store.matches pid f)
    (imap (fun i doc => Store.to_insert (n + i) doc)
       (flat_map (file_documents existing dirPath) files)) = [].
Proof.
  intros Hnone.
  destruct (filter _ _) as [|d l] eqn:E; [reflexivity|].
  assert (Hd : d ∈ d :: l) by left. rewrite <- E in Hd.
  apply inserted_of_file in Hd as (doc & Hdoc & _).
  rewrite Hnone in Hdoc. inversion Hdoc.
Qed.

Lemma inserted_some existing dirPath files n f :
  f ∈ files -> file_documents existing dirPath f <> [] ->
  filter (Store.matches pid f)
    (imap (fun i doc => Store.to_insert (n + i) doc)
       (flat_map (file_documents existing dirPath) files)) <> [].
Proof.
  intros Hf Hsome Hnil.
  destruct (file_documents existing dirPath f) as [|doc ds] eqn:E; [congruence|].
  assert (Hdoc : doc ∈ flat_map (file_documents existing dirPath) files).
  { apply batch_elem. exists f. split; [exact Hf|]. rewrite E. left. }
  apply list_elem_of_lookup_1 in Hdoc as [i Hi].
  assert (Hin : Store.to_insert (n + i) doc
                ∈ filter (Store.matches pid f)
                    (imap (fun i doc => Store.to_insert (n + i) doc)
                       (flat_map (file_documents existing dirPath) files))).
  { apply list_elem_of_filter. split.
    - assert (Hd : doc ∈ file_documents existing dirPath f) by (rewrite E; left).
      destruct (file_documents_elem _ _ _ _ Hd) as (Hp & Hpath & _).
      split; cbn; assumption.
    - apply inserted_elem. eauto. }
  rewrite Hnil in Hin. inversion Hin.
Qed.

Lemma no_chunk_without_record s f :
  Store.getExistingFiles pid s !! f = None ->
  filter (Store.matches pid f) (Store.collection s) = [].
Proof.
  rewrite StoreSpec.snapshot_lookup.
  destruct (filter _ _); [reflexivity | discriminate].
Qed.

(** The record the next snapshot holds for a file of the walk. *)
Lemma snapshot_after_run dirPath files s s1 f :
  let existing := Store.getExistingFiles pid s in
  Store.collection s1
  = (filter (fun d => ~ purged_by (with_verdict Updated existing dirPath files ++
                                   deletedFiles existing (list_to_set files)) d)
       (Store.collection s)
     ++ imap (fun i doc => Store.to_insert (Store.next_id s + i) doc)
          (flat_map (file_documents existing dirPath) files))%list ->
  f ∈ files ->
  Store.getExistingFiles pid s1 !! f =
  match verdict_of existing dirPath f, admissible dirPath f with
  | Some (Updated | Added), Some (mtime, content) =>
      match file_documents existing dirPath f with
      | [] => None
      | _ :: _ => Some {| Store.fr_fileSize := strlen content;
                          Store.fr_lastModified := mtime;
                          Store.fr_contentHash := md5_hex w content |}
      end
  | _, _ => existing !! f
  end.
Proof.
  intros existing Hcoll Hf.
  rewrite StoreSpec.snapshot_lookup, Hcoll, chunks_after_run by exact Hf.
  fold existing.
  assert (Hmeta : forall d mtime content,
            admissible dirPath f = Some (mtime, content) ->
            d ∈ filter (Store.matches pid f)
                  (imap (fun i doc => Store.to_insert (Store.next_id s + i) doc)
                     (flat_map (file_documents existing dirPath) files)) ->
            Store.record_of d = {| Store.fr_fileSize := strlen content;
                                   Store.fr_lastModified := mtime;
                                   Store.fr_contentHash := md5_hex w content |}).
  { intros d mtime content Ha Hd.
    apply inserted_of_file in Hd as (doc & Hdoc & Hm).
    destruct (file_documents_elem _ _ _ _ Hdoc)
      as (_ & _ & mtime' & content' & Ha' & _ & M1 & M2 & M3).
    rewrite Ha in Ha'. injection Ha' as <- <-.
    unfold Store.record_of. now rewrite Hm, M1, M2, M3. }
  assert (Hfresh : forall mtime content,
            admissible dirPath f = Some (mtime, content) ->
            Store.record_of <$>
              head (filter (Store.matches pid f)
                      (imap (fun i doc => Store.to_insert (Store.next_id s + i) doc)
                         (flat_map (file_documents existing dirPath) files)))
            = match file_documents existing dirPath f with
              | [] => None
              | _ :: _ => Some {| Store.fr_fileSize := strlen content;
                                  Store.fr_lastModified := mtime;
                                  Store.fr_contentHash := md5_hex w content |}
              end).
  { intros mtime content Ha.
    destruct (file_documents existing dirPath f) as [|doc ds] eqn:E.
    - now rewrite inserted_none.
    - pose proof (inserted_some existing dirPath files (Store.next_id s) f Hf) as Hsome.
      rewrite E in Hsome. specialize (Hsome ltac:(discriminate)).
      pose proof (Hmeta) as Hm.
      destruct (filter (Store.matches pid f) _) as [|d l]; [congruence|].
      cbn. f_equal. apply (Hm d mtime content Ha). left. }
  assert (Hquiet : file_documents existing dirPath f = [] ->
            verdict_of existing dirPath f <> Some Updated ->
            Store.record_of <$>
              head ((if decide (verdict_of existing dirPath f = Some Updated) then []
                     else filter (Store.matches pid f) (Store.collection s)) ++
                    filter (Store.matches pid f)
                      (imap (fun i doc => Store.to_insert (Store.next_id s + i) doc)
                         (flat_map (file_documents existing dirPath) files)))%list
            = existing !! f).
  { intros Hnone Hv. rewrite inserted_none by exact Hnone.
    rewrite decide_False by exact Hv. rewrite app_nil_r.
    subst existing. now rewrite StoreSpec.snapshot_lookup. }
  destruct (verdict_of existing dirPath f) as [[]|] eqn:Hv;
    destruct (admissible dirPath f) as [[mtime content]|] eqn:Ha.
  all: try (apply Hquiet; [|discriminate];
            unfold Indexer.file_documents; rewrite ?Ha, ?Hv; reflexivity).
  all: try (exfalso; unfold Indexer.verdict_of in Hv; rewrite Ha in Hv; discriminate).
  - rewrite decide_True by reflexivity. cbn [app]. now apply Hfresh.
  - rewrite decide_False by discriminate.
    assert (Hnew : existing !! f = None).
    { unfold Indexer.verdict_of in Hv. rewrite Ha in Hv.
      destruct (existing !! f) as [e|]; [|reflexivity].
      destruct (is_unchanged _ _ _ _); [discriminate|].
      destruct (db_error _ _); discriminate. }
    rewrite no_chunk_without_record by exact Hnew. cbn [app]. now apply Hfresh.
Qed.

Lemma verdict_lookup_ext (existing existing' : gmap string Store.file_record) dirPath f :
  existing' !! f = existing !! f ->
  verdict_of existing' dirPath f = verdict_of existing dirPath f.
Proof.
  intros H. unfold Indexer.verdict_of.
  destruct (admissible dirPath f) as [[mtime content]|]; [|reflexivity].
  now rewrite H.
Qed.

Lemma unchanged_own_record mtime content :
  is_unchanged {| Store.fr_fileSize := strlen content;
                  Store.fr_lastModified := mtime;
                  Store.fr_contentHash := md5_hex w content |}
    (md5_hex w content) (strlen content) mtime = true.
Proof. apply is_unchanged_spec. cbn. repeat split. lia. Qed.

(** On the store a completed delta run left, no file of the walk is
    updated and none gives a document. *)
Lemma rerun_verdict dirPath files s s1 f :
  let existing := Store.getExistingFiles pid s in
  Store.collection s1
  = (filter (fun d => ~ purged_by (with_verdict Updated existing dirPath files ++
                                   deletedFiles existing (list_to_set files)) d)
       (Store.collection s)
     ++ imap (fun i doc => Store.to_insert (Store.next_id s + i) doc)
          (flat_map (file_documents existing dirPath) files))%list ->
  f ∈ files ->
  verdict_of (Store.getExistingFiles pid s1) dirPath f <> Some Updated /\
  file_documents (Store.getExistingFiles pid s1) dirPath f = [].
Proof.
  intros existing Hcoll Hf.
  pose proof (snapshot_after_run dirPath files s s1 f Hcoll Hf) as H2.
  cbn zeta in H2. fold existing in H2.
  assert (Hdocs : forall v, verdict_of (Store.getExistingFiles pid s1) dirPath f = v ->
            v <> Some Updated -> v <> Some Added ->
            file_documents (Store.getExistingFiles pid s1) dirPath f = []).
  { intros v Hv H1 H3. unfold Indexer.file_documents. rewrite Hv.
    destruct (admissible dirPath f) as [[? ?]|]; [|reflexivity].
    destruct v as [[]|]; congruence. }
  destruct (admissible dirPath f) as [[mtime content]|] eqn:Ha.
  2: { assert (V2 : verdict_of (Store.getExistingFiles pid s1) dirPath f = None)
         by (unfold Indexer.verdict_of; now rewrite Ha).
       split; [congruence|]. apply (Hdocs None V2); discriminate. }
  destruct (verdict_of existing dirPath f) as [[]|] eqn:Hv1.
  - pose proof (verdict_lookup_ext _ _ dirPath f H2) as V2. rewrite Hv1 in V2.
    split; [congruence|]. apply (Hdocs _ V2); discriminate.
  - destruct (file_documents existing dirPath f) as [|doc ds] eqn:E.
    + assert (V2 : verdict_of (Store.getExistingFiles pid s1) dirPath f = Some Added)
        by (unfold Indexer.verdict_of; now rewrite Ha, H2).
      split; [congruence|].
      unfold Indexer.file_documents in E |- *. rewrite Ha, Hv1 in E. now rewrite Ha, V2.
    + assert (V2 : verdict_of (Store.getExistingFiles pid s1) dirPath f = Some Unchanged)
        by (unfold Indexer.verdict_of; now rewrite Ha, H2, unchanged_own_record).
      split; [congruence|]. apply (Hdocs _ V2); discriminate.
  - destruct (file_documents existing dirPath f) as [|doc ds] eqn:E.
    + assert (V2 : verdict_of (Store.getExistingFiles pid s1) dirPath f = Some Added)
        by (unfold Indexer.verdict_of; now rewrite Ha, H2).
      split; [congruence|].
      unfold Indexer.file_documents in E |- *. rewrite Ha, Hv1 in E. now rewrite Ha, V2.
    + assert (V2 : verdict_of (Store.getExistingFiles pid s1) dirPath f = Some Unchanged)
        by (unfold Indexer.verdict_of; now rewrite Ha, H2, unchanged_own_record).
      split; [congruence|]. apply (Hdocs _ V2); discriminate.
  - pose proof (verdict_lookup_ext _ _ dirPath f H2) as V2. rewrite Hv1 in V2.
    split; [congruence|]. apply (Hdocs _ V2); discriminate.
Qed.

(** Every chunk the project holds after the run belongs to a file of the
    walk. *)
Lemma paths_after_run dirPath files s s1 d :
  let existing := Store.getExistingFiles pid s in
  Store.collection s1
  = (filter (fun d => ~ purged_by (with_verdict Updated existing dirPath files ++
                                   deletedFiles existing (list_to_set files)) d)
       (Store.collection s)
     ++ imap (fun i doc => Store.to_insert (Store.next_id s + i) doc)
          (flat_map (file_documents existing dirPath) files))%list ->
  d ∈ Store.collection s1 -> Store.s_projectId d = pid ->
  Store.s_filePath d ∈ files.
Proof.
  intros existing Hcoll Hd Hpid.
  rewrite Hcoll in Hd. apply elem_of_app in Hd as [Hd|Hd].
  - apply list_elem_of_filter in Hd as [Hkept Hd].
    destruct (decide (Store.s_filePath d ∈ files)) as [?|Hout]; [assumption|]. exfalso.
    apply Hkept. split; [exact Hpid|]. apply elem_of_app. right.
    apply deletedFiles_elem. split; [|exact Hout].
    apply StoreSpec.snapshot_is_Some. exists d. auto.
  - apply inserted_elem in Hd as (i & doc & Hdoc & ->).
    apply list_elem_of_lookup_2 in Hdoc.
    apply batch_elem in Hdoc as (g & Hg & Hdoc).
    destruct (file_documents_elem _ _ _ _ Hdoc) as (_ & Hfg & _).
    cbn. now rewrite Hfg.
Qed.

Lemma rerun_nothing_deleted dirPath files s s1 :
  let existing := Store.getExistingFiles pid s in
  Store.collection s1
  = (filter (fun d => ~ purged_by (with_verdict Updated existing dirPath files ++
                                   deletedFiles existing (list_to_set files)) d)
       (Store.collection s)
     ++ imap (fun i doc => Store.to_insert (Store.next_id s + i) doc)
          (flat_map (file_documents existing dirPath) files))%list ->
  deletedFiles (Store.getExistingFiles pid s1) (list_to_set files) = [].
Proof.
  intros existing Hcoll.
  destruct (deletedFiles (Store.getExistingFiles pid s1) (list_to_set files))
    as [|p ps] eqn:E; [reflexivity|]. exfalso.
  assert (Hp : p ∈ deletedFiles (Store.getExistingFiles pid s1) (list_to_set files))
    by (rewrite E; left).
  apply deletedFiles_elem in Hp as [Hkey Hnot]. apply Hnot. clear Hnot E.
  apply StoreSpec.snapshot_is_Some in Hkey as (d & Hd & Hpid & Hpath).
  rewrite <- Hpath. now apply (paths_after_run dirPath files s s1 d Hcoll).
Qed.

Lemma flat_map_nothing {A B} (f : A -> list B) (l : list A) :
  (forall x, x ∈ l -> f x = []) -> flat_map f l = [].
Proof.
  induction l as [|x l IH]; intros H; [reflexivity|].
  cbn [flat_map]. rewrite H by left. apply IH. intros y Hy. apply H. now right.
Qed.



End Facts.

(** *** A sample delta run *)

(** One file skipped, one updated, one added, one deleted. *)
Example sample_run_stats :
  sample_run.2 =
  Ok {| r_success := true; filesProcessed := 2; chunksIndexed := 2;
        r_projectId := "p"; filesTotal := 3;
        deltaStats := Some {| ds_skipped := 1; ds_updated := 1; ds_added := 1;
                              ds_deleted := 1; ds_total := 3 |} |}.
Proof. vm_compute. reflexivity. Qed.



(** *** A file whose embedding fails half-way *)


(** *** The statistics and the files of the sample runs *)

Lemma run_statistics_witness :
  exists files, glob sample_world "/repo" (defaultExcludes ++ []) = Ok files /\
    length (List.filter isTextFile files) = 3%nat.
Proof.
  assert (Hr : (indexDirectory sample_world "/repo" "p" [] true true sample_store).2
               = Ok {| r_success := true; filesProcessed := 2; chunksIndexed := 2;
                       r_projectId := "p"; filesTotal := 3;
                       deltaStats := Some {| ds_skipped := 1; ds_updated := 1;
                                             ds_added := 1; ds_deleted := 1;
                                             ds_total := 3 |} |}).
  { vm_compute. reflexivity. }
  destruct (run_statistics sample_world "p" true true "/repo" [] sample_store _ Hr)
    as (files & Hglob & _ & _ & Htotal & _).
  exists files. split; [exact Hglob | symmetry; exact Htotal].
Defined.


Lemma large_file_skipped_witness :
  documents (process_file huge_world "p" false true "/repo" ∅ 1 15 "huge.js"
               (init_state Store.empty_store)).1 = [] /\
  processed (process_file huge_world "p" false true "/repo" ∅ 1 15 "huge.js"
               (init_state Store.empty_store)).1 = 0%nat.
Proof.
  assert (Hsize : strlen huge_content > 1024 * 1024) by (vm_compute; reflexivity).
  destruct (large_file_skipped huge_world "p" false true "/repo" ∅ 1 15 "huge.js"
              (init_state Store.empty_store) 10 huge_content
              eq_refl eq_refl eq_refl Hsize)
    as (Hdocs & _ & Hproc & _).
  split; [exact Hdocs | exact Hproc].
Defined.



End IndexerSpec.

(** ** The job coordinator *)
Module JobsSpec.
Import Jobs JobsFixtures.

Section WithClock.
Context (clock : nat -> Z).

Local Abbreviation history := (Jobs.history clock).

(** *** The log buffer *)

(** The buffer is the window of the last 50 entries of everything that
    was ever appended, and appending keeps it so. *)
Lemma push_log_window (h : list log_entry) (e : log_entry) :
  push_log e (drop (length h - 50) h) =
  drop (length (h ++ [e]) - 50) (h ++ [e]).
Proof.
  unfold push_log.
  rewrite <- (drop_app_le h [e]) by lia.
  rewrite length_drop, !length_app. simpl.
  destruct (Nat.ltb_spec 50 (length h + 1 - (length h - 50))) as [Hlt|Hge].
  - rewrite drop_drop. f_equal. lia.
  - f_equal. lia.
Qed.

Lemma window_length {A} (h : list A) : (length (drop (length h - 50) h) <= 50)%nat.
Proof. rewrite length_drop. lia. Qed.

Lemma addJobLog_lookup key msg l m j :
  jobs m !! key = Some j ->
  exists e, label e = (msg, l) /\
    jobs (addJobLog clock key msg l m) !! key
    = Some (set_logs (push_log e (logs j)) j).
Proof.
  intros Hj. unfold addJobLog. rewrite Hj. simpl.
  eexists. split; [|apply lookup_insert_eq]. reflexivity.
Qed.

Lemma addJobLog_fold key entries :
  forall m j h,
    jobs m !! key = Some j ->
    logs j = drop (length h - 50) h ->
    exists j' h',
      jobs (fold_left (fun m e => addJobLog clock key e.1 e.2 m) entries m) !! key = Some j'
      /\ logs j' = drop (length h' - 50) h'
      /\ map label h' = (map label h ++ entries)%list.
Proof.
  induction entries as [|[msg l] entries IH]; intros m j h Hj Hlogs; simpl.
  - exists j, h. now rewrite app_nil_r.
  - destruct (addJobLog_lookup key msg l m j Hj) as (e & He & Hlook).
    destruct (IH _ _ (h ++ [e])%list Hlook) as (j' & h' & H1 & H2 & H3).
    { simpl. rewrite Hlogs. apply push_log_window. }
    exists j', h'. split; [exact H1|]. split; [exact H2|].
    rewrite H3, map_app. simpl. rewrite He. now rewrite <- app_assoc.
Qed.

(** C9. After any sequence of [addJobLog] calls on a job made by
    [createJob], its [logs] hold at most 50 entries, and they are the
    last 50 of the entries logged, oldest first. *)
Theorem logs_capped (type pid : string) (p : params) (m : manager)
    (entries : list (string * Indexer.level)) :
  let j := (createJob clock type pid p m).1 in
  let m1 := (createJob clock type pid p m).2 in
  let m2 := fold_left (fun m e => addJobLog clock (id j) e.1 e.2 m) entries m1 in
  exists j2, jobs m2 !! id j = Some j2 /\
    (length (logs j2) <= 50)%nat /\
    map label (logs j2) = drop (length entries - 50) entries.
Proof.
  intros j m1 m2.
  destruct (addJobLog_fold (id j) entries m1 j []) as (j' & h' & H1 & H2 & H3).
  - subst j m1. simpl. apply lookup_insert_eq.
  - reflexivity.
  - exists j'. split; [exact H1|]. simpl in H3.
    assert (Hlen : length h' = length entries)
      by (rewrite <- H3; now rewrite length_map).
    rewrite H2. split; [apply window_length|].
    change (map label (drop (length h' - 50) h'))
      with (label <$> drop (length h' - 50) h').
    rewrite fmap_drop. change (label <$> h') with (map label h').
    now rewrite H3, Hlen.
Qed.

(** *** Garbage collection *)

(** What [cleanupOldJobs] leaves under a key. *)
Lemma cleanup_lookup (maxAge : option Z) (m : manager) (key : string) :
  jobs (cleanupOldJobs clock maxAge m).2 !! key =
    match jobs m !! key with
    | Some j =>
        match endTime j with
        | Some e =>
            if e <? clock (clock_reads m) - default (24 * 60 * 60 * 1000) maxAge
            then None else Some j
        | None => Some j
        end
    | None => None
    end.
Proof.
  simpl. rewrite map_lookup_filter.
  destruct (jobs m !! key) as [j|]; simpl; [|reflexivity].
  case_guard as Hs; simpl; unfold stale in Hs;
    destruct (endTime j) as [e|]; try destruct (e <? _); congruence.
Qed.

Corollary cleanup_keeps_unfinished (maxAge : option Z) (m : manager) key j :
  jobs m !! key = Some j -> endTime j = None ->
  jobs (cleanupOldJobs clock maxAge m).2 !! key = Some j.
Proof. intros Hj He. rewrite cleanup_lookup, Hj, He. reflexivity. Qed.

(** *** One call on the manager, seen from the job *)

Lemma perform_spec key m c j :
  jobs m !! key = Some j ->
  exists j', jobs (perform clock key m c) !! key = Some j' /\
    startTime j' = startTime j /\
    (clock_reads m <= clock_reads (perform clock key m c))%nat /\
    effect c (clock (clock_reads m)) j j'.
Proof.
  intros Hj. destruct c as [u | msg l | p msg]; cbn [perform effect].
  - unfold updateJob. rewrite Hj. destruct u as [us ur up ust ue]. cbn.
    destruct us as [st|]; [destruct (is_terminal st)|];
      cbn; (eexists; split; [apply lookup_insert_eq|]); cbn; repeat split; first [reflexivity | lia].
  - unfold addJobLog. rewrite Hj. cbn.
    eexists; split; [apply lookup_insert_eq|]. cbn. repeat split; first [reflexivity | lia].
  - unfold updateProgress. rewrite Hj.
    destruct msg as [msg|]; [destruct (Chunker.truthy msg)|].
    + unfold addJobLog. cbn. rewrite lookup_insert_eq. cbn.
      eexists; split; [apply lookup_insert_eq|]. cbn. repeat split; first [reflexivity | lia].
    + cbn. eexists; split; [apply lookup_insert_eq|]. cbn. repeat split; first [reflexivity | lia].
    + cbn. eexists; split; [apply lookup_insert_eq|]. cbn. repeat split; first [reflexivity | lia].
Qed.

Lemma run_history_unfold key wired w dir pid excl deltaOnly s m :
  run_history clock key wired w dir pid excl deltaOnly s m =
  history key m (run_calls (Indexer.indexDirectory w dir pid excl deltaOnly
                              (Chunker.truthy key && wired) s)).
Proof. reflexivity. Qed.

Lemma history_cons key m c cs j' :
  jobs (perform clock key m c) !! key = Some j' ->
  history key m (c :: cs) = j' :: history key (perform clock key m c) cs.
Proof. intros H. unfold history. cbn. now rewrite H. Qed.

Lemma history_app key cs1 cs2 :
  forall m, history key m (cs1 ++ cs2) =
            (history key m cs1 ++ history key (fold_left (perform clock key) cs1 m) cs2)%list.
Proof.
  induction cs1 as [|c cs1 IH]; intros m; [reflexivity|].
  unfold history in *. cbn.
  destruct (jobs (perform clock key m c) !! key); cbn; now rewrite IH.
Qed.

Lemma forward_quiet evs : Forall quiet (flat_map forward evs).
Proof.
  induction evs as [|[msg l | p msg | msg] evs IH]; cbn; auto.
  - constructor; [exact I | exact IH].
  - constructor; [exact I | exact IH].
Qed.

Lemma quiet_history key cs :
  Forall quiet cs ->
  forall m j, jobs m !! key = Some j ->
    (exists j', jobs (fold_left (perform clock key) cs m) !! key = Some j' /\ same_core j j') /\
    (clock_reads m <= clock_reads (fold_left (perform clock key) cs m))%nat /\
    Forall (same_core j) (history key m cs).
Proof.
  induction 1 as [|c cs Hc Hcs IH]; intros m j Hj.
  - cbn. split; [exists j; split; [exact Hj | repeat split]|]. split; [lia | constructor].
  - destruct (perform_spec key m c j Hj) as (j1 & Hj1 & Hst & Hclk & Heff).
    assert (Hsame : same_core j j1).
    { destruct c; cbn in Hc, Heff; [contradiction| |];
        destruct Heff as (H1 & H2 & H3 & H4); repeat split; assumption. }
    destruct (IH _ _ Hj1) as ((j' & Hj' & Hsame') & Hclk' & Hall).
    cbn [fold_left]. rewrite (history_cons key m c cs j1 Hj1).
    destruct Hsame as (A1 & A2 & A3 & A4).
    assert (Htrans : forall x, same_core j1 x -> same_core j x).
    { intros x (B1 & B2 & B3 & B4). repeat split; congruence. }
    split; [exists j'; split; [exact Hj' | now apply Htrans]|].
    split; [lia|].
    constructor; [repeat split; assumption|].
    eapply Forall_impl; [exact Hall | exact Htrans].
Qed.

Lemma history_last key cs :
  forall m j, jobs m !! key = Some j -> cs <> [] ->
    last (history key m cs) = jobs (fold_left (perform clock key) cs m) !! key.
Proof.
  induction cs as [|c cs IH]; intros m j Hj Hne; [congruence|].
  destruct (perform_spec key m c j Hj) as (j1 & Hj1 & _).
  rewrite (history_cons key m c cs j1 Hj1). cbn [fold_left].
  destruct cs as [|c' cs]; [cbn; now rewrite Hj1|].
  rewrite <- (IH _ _ Hj1) by discriminate.
  destruct (perform_spec key _ c' j1 Hj1) as (j2 & Hj2 & _).
  rewrite (history_cons key _ c' cs j2 Hj2). reflexivity.
Qed.

Lemma is_log_quiet cs : Forall is_log cs -> Forall quiet cs.
Proof. intros H. eapply Forall_impl; [exact H|]. now intros [| |]. Qed.

Lemma log_history key cs :
  Forall is_log cs ->
  forall m j, jobs m !! key = Some j ->
    (exists j', jobs (fold_left (perform clock key) cs m) !! key = Some j' /\
                progress j' = progress j) /\
    Forall (fun x => progress x = progress j) (history key m cs).
Proof.
  induction 1 as [|c cs Hc Hcs IH]; intros m j Hj.
  - cbn. split; [exists j; now split | constructor].
  - destruct (perform_spec key m c j Hj) as (j1 & Hj1 & _ & _ & Heff).
    destruct c as [?|msg l|? ?]; cbn in Hc, Heff; try contradiction.
    destruct Heff as (_ & Hp & _).
    destruct (IH _ _ Hj1) as ((j' & Hj' & Hp') & Hall).
    cbn [fold_left]. rewrite (history_cons key m _ cs j1 Hj1).
    split; [exists j'; split; [exact Hj' | congruence]|].
    constructor; [exact Hp|].
    eapply Forall_impl; [exact Hall|]. cbn. intros x Hx. congruence.
Qed.

(** The closing calls are one terminal [updateJob] followed by log
    entries. *)
Lemma closing_calls_shape (r : outcome Indexer.index_result) :
  exists u qs, closing_calls r = UpdateJob u :: qs /\ Forall is_log qs /\
    u_status u = Some (final_status r) /\
    u_progress u = Some (match r with Ok _ => inject_Z 100 | Throw _ => inject_Z 0 end) /\
    u_error u = match r with Ok _ => None | Throw msg => Some msg end.
Proof.
  destruct r as [res|msg]; cbn [closing_calls].
  - eexists _, _. split; [reflexivity|]. split; [|repeat split].
    destruct (Indexer.deltaStats res); repeat constructor.
  - eexists _, _. split; [reflexivity|]. split; [|repeat split].
    repeat constructor.
Qed.

(** *** Progress reports *)

Lemma clamp_mono p q : (p <= q)%Q -> (clamp p <= clamp q)%Q.
Proof. intros H. unfold clamp. now apply Q.min_le_compat_l, Q.max_le_compat_l. Qed.

Lemma clamp_le_100 p : (clamp p <= inject_Z 100)%Q.
Proof. unfold clamp. apply Q.le_min_l. Qed.

Lemma clamp_ge_0 p : (inject_Z 0 <= clamp p)%Q.
Proof.
  unfold clamp. apply Q.min_glb; [vm_compute; discriminate | apply Q.le_max_l].
Qed.

Lemma call_values_forward evs :
  call_values (flat_map forward evs) = Indexer.progress_values evs.
Proof.
  unfold call_values, Indexer.progress_values.
  induction evs as [|e evs IH]; [reflexivity|].
  cbn [flat_map]. rewrite flat_map_app, IH. now destruct e.
Qed.

(** While the indexer reports non-decreasing percentages, the progress a
    poller reads never decreases and stays at or below 100. *)
Lemma quiet_progress_sorted key cs :
  Forall quiet cs ->
  forall m j, jobs m !! key = Some j ->
    StronglySorted Qle (call_values cs) ->
    Forall (fun q => (progress j <= clamp q)%Q) (call_values cs) ->
    (progress j <= inject_Z 100)%Q ->
    Sorted Qle (progress j :: map progress (history key m cs)) /\
    Forall (fun v => (v <= inject_Z 100)%Q) (map progress (history key m cs)).
Proof.
  unfold call_values.
  induction 1 as [|c cs Hc Hcs IH]; intros m j Hj Hsorted Hlow Hhigh.
  - cbn. split; repeat constructor.
  - destruct (perform_spec key m c j Hj) as (j1 & Hj1 & _ & _ & Heff).
    rewrite (history_cons key m c cs j1 Hj1). cbn [map].
    destruct c as [?|msg l|p msg]; cbn in Hc, Heff; [contradiction| |];
      destruct Heff as (_ & Hp & _); cbn [flat_map app] in Hsorted, Hlow.
    + destruct (IH _ _ Hj1) as [Hs Hall].
      * exact Hsorted.
      * now rewrite Hp.
      * now rewrite Hp.
      * split; [|constructor; [now rewrite Hp | exact Hall]].
        constructor; [exact Hs|]. constructor. rewrite Hp. apply Qle_refl.
    + apply StronglySorted_inv in Hsorted as [Hsorted Hhd].
      apply Forall_cons in Hlow as [Hlow1 Hlow].
      destruct (IH _ _ Hj1) as [Hs Hall].
      * exact Hsorted.
      * rewrite Hp. eapply Forall_impl; [exact Hhd|]. cbn. apply clamp_mono.
      * rewrite Hp. apply clamp_le_100.
      * split; [|constructor; [rewrite Hp; apply clamp_le_100 | exact Hall]].
        constructor; [exact Hs|]. constructor. now rewrite Hp.
Qed.

(** The shape of a run on a job that is registered under [key]: it is
    observed running, with the end time it had, as long as the indexer
    works, then in its final status with the end time of the terminal
    update. *)
Lemma run_shape key m j (run : Indexer.state * outcome Indexer.index_result) :
  jobs m !! key = Some j ->
  exists before after jf now,
    history key m (run_calls run) = (before ++ after)%list /\
    before <> [] /\ after <> [] /\
    Forall (fun x => job_status x = running /\ endTime x = endTime j /\
                     startTime x = startTime j) before /\
    Forall (fun x => job_status x = final_status run.2 /\ endTime x = Some (clock now) /\
                     startTime x = startTime j /\
                     error x = match run.2 with Ok _ => error j | Throw msg => Some msg end)
           after /\
    (clock_reads m <= now)%nat /\
    jobs (fold_left (perform clock key) (run_calls run) m) !! key = Some jf /\
    last (history key m (run_calls run)) = Some jf /\
    progress jf = match run.2 with Ok _ => inject_Z 100 | Throw _ => inject_Z 0 end /\
    Forall (fun x => progress x =
                     match run.2 with Ok _ => inject_Z 100 | Throw _ => inject_Z 0 end) after /\
    (StronglySorted Qle (Indexer.progress_values (Indexer.sink run.1)) ->
     (progress j <= inject_Z 0)%Q ->
     Sorted Qle (map progress (j :: before)) /\
     Forall (fun v => (v <= inject_Z 100)%Q) (map progress before)).
Proof.
  intros Hj. unfold run_calls.
  destruct (closing_calls_shape run.2) as (u & qs & Hclose & Hqs & Hus & Hup & Hue).
  rewrite Hclose.
  destruct (perform_spec key m (UpdateJob mark_running) j Hj)
    as (j1 & Hj1 & Hst1 & Hclk1 & (Hs1 & Hp1 & He1 & Hend1)).
  cbn in Hs1, Hend1, He1.
  set (ma := perform clock key m (UpdateJob mark_running)) in *.
  destruct (quiet_history key _ (forward_quiet (Indexer.sink run.1)) ma j1 Hj1)
    as ((jb & Hjb & (Bs & Be & Bst & Berr)) & Hclkb & Hallb).
  set (mb := fold_left (perform clock key) (flat_map forward (Indexer.sink run.1)) ma) in *.
  destruct (perform_spec key mb (UpdateJob u) jb Hjb)
    as (jc & Hjc & Hstc & Hclkc & (Hsc & Hpc & Hec & Hendc)).
  rewrite Hus in Hsc, Hendc. rewrite Hup in Hpc. cbn in Hsc, Hpc.
  assert (Hterm : is_terminal (final_status run.2) = true) by (destruct run.2; reflexivity).
  rewrite Hterm in Hendc.
  set (mc := perform clock key mb (UpdateJob u)) in *.
  destruct (quiet_history key _ (is_log_quiet _ Hqs) mc jc Hjc)
    as ((jf & Hjf & (Fs & Fe & Fst & Ferr)) & Hclkf & Hallf).
  assert (Hfold : fold_left (perform clock key)
                    (UpdateJob mark_running ::
                     flat_map forward (Indexer.sink run.1) ++ UpdateJob u :: qs) m
                  = fold_left (perform clock key) qs mc).
  { cbn [fold_left]. rewrite fold_left_app. reflexivity. }
  exists (j1 :: history key ma (flat_map forward (Indexer.sink run.1))),
         (jc :: history key mc qs), jf, (clock_reads mb).
  split.
  { rewrite (history_cons key m _ _ j1 Hj1). fold ma.
    rewrite history_app. fold mb.
    rewrite (history_cons key mb _ _ jc Hjc). reflexivity. }
  split; [discriminate|]. split; [discriminate|].
  split.
  { constructor; [repeat split; congruence|].
    eapply Forall_impl; [exact Hallb|]. intros x (X1 & X2 & X3 & X4).
    repeat split; congruence. }
  assert (Herr : error jc = match run.2 with Ok _ => error j | Throw msg => Some msg end).
  { rewrite Hec, Hue. destruct run.2; congruence. }
  split.
  { constructor; [repeat split; congruence|].
    eapply Forall_impl; [exact Hallf|]. intros x (X1 & X2 & X3 & X4).
    repeat split; congruence. }
  split; [subst ma; lia|].
  split; [rewrite Hfold; exact Hjf|].
  split.
  { rewrite <- Hjf, <- Hfold. apply (history_last key _ m j Hj). discriminate. }
  destruct (log_history key _ Hqs mc jc Hjc) as ((jf' & Hjf' & Hpf) & Hlogs).
  rewrite Hjf in Hjf'. injection Hjf' as <-.
  split; [rewrite Hpf, Hpc; reflexivity|].
  split.
  { constructor; [exact Hpc|].
    eapply Forall_impl; [exact Hlogs|]. cbn. intros x ->. exact Hpc. }
  intros Hsorted Hzero.
  assert (H100 : (progress j1 <= inject_Z 100)%Q).
  { rewrite Hp1. cbn. eapply Qle_trans; [exact Hzero|]. vm_compute. discriminate. }
  destruct (quiet_progress_sorted key _ (forward_quiet (Indexer.sink run.1)) ma j1 Hj1)
    as [Hs Hall].
  { rewrite call_values_forward. exact Hsorted. }
  { apply Forall_forall. intros q _. rewrite Hp1. cbn.
    eapply Qle_trans; [exact Hzero | apply clamp_ge_0]. }
  { exact H100. }
  split.
  - cbn [map]. constructor; [exact Hs|]. constructor. rewrite Hp1. apply Qle_refl.
  - cbn [map]. constructor; [exact H100 | exact Hall].
Qed.

(** *** The lifecycle of a job *)

Lemma runIndexJob_unfold key wired w dir pid excl deltaOnly s m j :
  jobs m !! key = Some j ->
  runIndexJob clock key wired w dir pid excl deltaOnly s m =
  let run := Indexer.indexDirectory w dir pid excl deltaOnly (Chunker.truthy key && wired) s in
  (fold_left (perform clock key) (run_calls run) m, Indexer.store run.1, run.2).
Proof. intros Hj. unfold runIndexJob. now rewrite Hj. Qed.

(** C5, as the code has it. A job made by [createJob] is pending with
    progress 0 and no end time. [runIndexJob] on it makes it observably
    running before any call of the indexer reaches the manager, keeps it
    running while the indexer works, and then leaves it in exactly one
    of completed (the indexer returned) or failed (it threw), with
    [endTime] set from a clock reading not before [startTime] when the
    clock never goes back. [addJobLog], [updateProgress], [createJob] on
    another id and [cleanupOldJobs] never change the status of a job;
    [runIndexJob] itself does not look at the status it finds. *)
Theorem job_lifecycle (type pid : string) (p : params) (m0 : manager)
    (wired : bool) (w : Indexer.World) (dir projectId : string)
    (excl : list string) (deltaOnly : bool) (s : Store.store) :
  (forall a b : nat, (a <= b)%nat -> clock a <= clock b) ->
  let j0 := (createJob clock type pid p m0).1 in
  let m1 := (createJob clock type pid p m0).2 in
  let hist := run_history clock (id j0) wired w dir projectId excl deltaOnly s m1 in
  let out := runIndexJob clock (id j0) wired w dir projectId excl deltaOnly s m1 in
  (jobs m1 !! id j0 = Some j0 /\ job_status j0 = pending /\
   progress j0 = inject_Z 0 /\ endTime j0 = None) /\
  (exists before after jf e,
     hist = (before ++ after)%list /\ before <> [] /\ after <> [] /\
     Forall (fun j => job_status j = running /\ endTime j = None) before /\
     Forall (fun j => job_status j = final_status out.2 /\
                      endTime j = Some e /\ startTime j <= e) after /\
     jobs out.1.1 !! id j0 = Some jf /\ last hist = Some jf) /\
  (forall m key j c, quiet c -> jobs m !! key = Some j ->
     exists j', jobs (perform clock key m c) !! key = Some j' /\
                job_status j' = job_status j) /\
  (forall m key j ty pr pa, key <> id (createJob clock ty pr pa m).1 ->
     jobs m !! key = Some j -> jobs (createJob clock ty pr pa m).2 !! key = Some j) /\
  (forall maxAge m key j, jobs (cleanupOldJobs clock maxAge m).2 !! key = Some j ->
     jobs m !! key = Some j).
Proof.
  intros Hmono j0 m1 hist out.
  assert (Hj0 : jobs m1 !! id j0 = Some j0) by (subst j0 m1; cbn; apply lookup_insert_eq).
  split; [repeat split; exact Hj0|].
  split; [|split; [|split]].
  - subst hist out. rewrite run_history_unfold, (runIndexJob_unfold _ _ _ _ _ _ _ _ _ _ Hj0).
    cbn zeta. cbn [fst snd].
    set (run := Indexer.indexDirectory w dir projectId excl deltaOnly
                  (Chunker.truthy (id j0) && wired) s).
    destruct (run_shape (id j0) m1 j0 run Hj0)
      as (before & after & jf & now & Hh & Hb & Ha & Hbefore & Hafter & Hnow & Hjf & Hlast & _).
    exists before, after, jf, (clock now).
    split; [exact Hh|]. split; [exact Hb|]. split; [exact Ha|].
    split; [|split; [|split; [exact Hjf | exact Hlast]]].
    + eapply Forall_impl; [exact Hbefore|]. cbn. intros x (X1 & X2 & _). now split.
    + eapply Forall_impl; [exact Hafter|]. cbn. intros x (X1 & X2 & X3 & _).
      split; [exact X1|]. split; [exact X2|]. rewrite X3.
      subst j0 m1. cbn. cbn in Hnow. apply Hmono. lia.
  - intros m key j c Hc Hj.
    destruct (perform_spec key m c j Hj) as (j' & Hj' & _ & _ & Heff).
    exists j'. split; [exact Hj'|].
    destruct c; cbn in Hc, Heff; [contradiction| |]; now destruct Heff.
  - intros m key j ty pr pa Hne Hj. cbn in *. now rewrite lookup_insert_ne.
  - intros maxAge m key j H. rewrite cleanup_lookup in H.
    destruct (jobs m !! key) as [x|]; [|discriminate].
    destruct (endTime x); [destruct (_ <? _)|]; congruence.
Qed.

(** *** Garbage collection and the lifecycle *)


(** *** Progress over a run *)

(** C6. During one run of a job made by [createJob], the progress values
    a poller reads, from the 0 of the creation on, never decrease while
    the job is running. When the run completes the last values are 100
    and the whole sequence never decreases; when it fails the coordinator
    sets the progress to 0. *)
Theorem progress_monotone (type pid : string) (p : params) (m0 : manager)
    (wired : bool) (w : Indexer.World) (dir projectId : string)
    (excl : list string) (deltaOnly : bool) (s : Store.store) :
  let j0 := (createJob clock type pid p m0).1 in
  let m1 := (createJob clock type pid p m0).2 in
  let hist := run_history clock (id j0) wired w dir projectId excl deltaOnly s m1 in
  let out := runIndexJob clock (id j0) wired w dir projectId excl deltaOnly s m1 in
  exists before after jf,
    hist = (before ++ after)%list /\ after <> [] /\
    Forall (fun j => job_status j = running) before /\
    StronglySorted Qle (map progress (j0 :: before)) /\
    last hist = Some jf /\ jobs out.1.1 !! id j0 = Some jf /\
    match out.2 with
    | Ok _ =>
        Forall (fun j => job_status j = completed /\ progress j = inject_Z 100) after /\
        StronglySorted Qle (map progress (j0 :: hist))
    | Throw _ =>
        Forall (fun j => job_status j = failed /\ progress j = inject_Z 0) after
    end.
Proof.
  intros j0 m1 hist out.
  assert (Hj0 : jobs m1 !! id j0 = Some j0) by (subst j0 m1; cbn; apply lookup_insert_eq).
  subst hist out. rewrite run_history_unfold, (runIndexJob_unfold _ _ _ _ _ _ _ _ _ _ Hj0).
  cbn zeta. cbn [fst snd].
  set (run := Indexer.indexDirectory w dir projectId excl deltaOnly
                (Chunker.truthy (id j0) && wired) s).
  destruct (run_shape (id j0) m1 j0 run Hj0)
    as (before & after & jf & now & Hh & Hb & Ha & Hbefore & Hafter & Hnow & Hjf & Hlast
        & _ & Hprog & Hsorted).
  destruct Hsorted as [Hs H100].
  { apply IndexerSpec.run_progress_sorted. }
  { subst j0. cbn. apply Qle_refl. }
  assert (Hsb : StronglySorted Qle (map progress (j0 :: before)))
    by (apply Sorted_StronglySorted; [exact Qle_trans | exact Hs]).
  exists before, after, jf.
  split; [exact Hh|]. split; [exact Ha|].
  split; [eapply Forall_impl; [exact Hbefore|]; cbn; tauto|].
  split; [exact Hsb|]. split; [exact Hlast|]. split; [exact Hjf|].
  assert (Hst : Forall (fun x => job_status x = final_status run.2) after)
    by (eapply Forall_impl; [exact Hafter|]; cbn; tauto).
  destruct run.2 as [res|msg]; cbn in Hst, Hprog.
  2: { rewrite Forall_forall in Hst, Hprog. apply Forall_forall. intros x Hx.
       split; [now apply Hst | now apply Hprog]. }
  split.
  { rewrite Forall_forall in Hst. rewrite Forall_forall in Hprog.
    apply Forall_forall. intros x Hx. split; [now apply Hst | now apply Hprog]. }
  rewrite Hh.
  change (StronglySorted Qle (map progress ((j0 :: before) ++ after))).
  rewrite map_app. apply StronglySorted_app_2; [|exact Hsb|].
  - intros x y Hx Hy.
    apply list_elem_of_fmap in Hy as (z & -> & Hz).
    rewrite Forall_forall in Hprog. rewrite (Hprog z Hz).
    cbn [map] in Hx. apply elem_of_cons in Hx as [-> | Hx].
    + subst j0. cbn. vm_compute. discriminate.
    + rewrite Forall_forall in H100. now apply H100.
  - clear - Hprog. induction Hprog as [|z zs Hz Hzs IH]; cbn; constructor.
    + exact IH.
    + apply Forall_forall. intros v (z' & -> & Hz')%list_elem_of_fmap.
      rewrite Forall_forall in Hzs. rewrite Hz, (Hzs z' Hz'). apply Qle_refl.
Qed.

(** A run that fails: the job is failed, the message is recorded on it,
    and the caller gets the error. *)
Lemma failed_run_recorded key wired w dir pid excl deltaOnly s m j msg :
  jobs m !! key = Some j ->
  (Indexer.indexDirectory w dir pid excl deltaOnly (Chunker.truthy key && wired) s).2
    = Throw msg ->
  let out := runIndexJob clock key wired w dir pid excl deltaOnly s m in
  out.2 = Throw msg /\
  exists jf, jobs out.1.1 !! key = Some jf /\ job_status jf = failed /\
             error jf = Some msg.
Proof.
  intros Hj Hrun out. subst out. rewrite (runIndexJob_unfold _ _ _ _ _ _ _ _ _ _ Hj).
  cbn zeta. cbn [fst snd]. split; [exact Hrun|].
  destruct (run_shape key m j
              (Indexer.indexDirectory w dir pid excl deltaOnly (Chunker.truthy key && wired) s)
              Hj)
    as (before & after & jf & now & Hh & Hb & Ha & _ & Hafter & _ & Hjf & Hlast & _).
  exists jf. split; [exact Hjf|].
  rewrite Hh, last_app in Hlast.
  destruct (last after) as [x|] eqn:El; [|apply last_None in El; contradiction].
  injection Hlast as ->. apply last_Some_elem_of in El.
  rewrite Forall_forall in Hafter. destruct (Hafter _ El) as (H1 & _ & _ & H4).
  rewrite Hrun in H1, H4. now split.
Qed.


End WithClock.

(** *** A job run twice *)

(** C5, the run where "no exposed operation moves a job out of a
    terminal status" fails: the job is completed after its first run; a
    second [runIndexJob] on it makes it running again and leaves it
    failed. *)
Lemma rerun_leaves_terminal_status :
  job_status <$> (jobs first_run.1.1 !! id created.1) = Some completed /\
  job_status <$> head (run_history Z.of_nat (id created.1) true missing_dir "/d" "p" []
                         false first_run.1.2 first_run.1.1) = Some running /\
  job_status <$> (jobs second_run.1.1 !! id created.1) = Some failed.
Proof. vm_compute. repeat split. Qed.

Lemma job_lifecycle_witness :
  exists before after jf e,
    run_history Z.of_nat (id created.1) true empty_dir "/d" "p" [] false
      Store.empty_store created.2 = (before ++ after)%list /\
    before <> [] /\ after <> [] /\
    Forall (fun j => job_status j = running /\ endTime j = None) before /\
    Forall (fun j => job_status j = final_status first_run.2 /\
                     endTime j = Some e /\ startTime j <= e) after /\
    jobs first_run.1.1 !! id created.1 = Some jf /\
    last (run_history Z.of_nat (id created.1) true empty_dir "/d" "p" [] false
            Store.empty_store created.2) = Some jf.
Proof.
  assert (Hmono : forall a b : nat, (a <= b)%nat -> Z.of_nat a <= Z.of_nat b)
    by (intros a b H; lia).
  exact (proj1 (proj2 (job_lifecycle Z.of_nat "index" "p"
                         {| directoryPath := "/d"; excludePatterns := [] |}
                         new_manager true empty_dir "/d" "p" [] false
                         Store.empty_store Hmono))).
Defined.


(** A job that is pending after [createJob] has no end time, so
    [cleanupOldJobs] keeps it whatever [maxAge] is. *)
Example cleanup_keeps_created :
  jobs (cleanupOldJobs Z.of_nat (Some (-1000)) created.2).2 !! id created.1
  = Some created.1.
Proof. vm_compute. reflexivity. Qed.

End JobsSpec.

(** ** The job registry *)
Module RegistrySpec.
Import Jobs JobsFixtures JobsSpec.

Section Registry.
Context (clock : nat -> Z).

(** *** Job ids *)

Lemma digits_no_underscore (d : Decimal.uint) :
  Forall (fun c => c <> "_"%char) (list_ascii_of_string (NilEmpty.string_of_uint d)).
Proof.
  induction d; cbn; constructor; try assumption; discriminate.
Qed.

Lemma to_uint_nonnil n : Nat.to_uint n <> Decimal.Nil.
Proof.
  rewrite <- (DecimalNat.Unsigned.of_to n) at 1.
  rewrite DecimalNat.Unsigned.to_of.
  unfold Decimal.unorm. destruct (Decimal.nzhead (Nat.to_uint n)); discriminate.
Qed.

Lemma show_nat_no_underscore n :
  Forall (fun c => c <> "_"%char) (list_ascii_of_string (show_nat n)).
Proof.
  unfold show_nat, NilZero.string_of_uint.
  pose proof (to_uint_nonnil n) as Hn.
  destruct (Nat.to_uint n) eqn:E; [congruence| ..];
    rewrite <- E; apply digits_no_underscore.
Qed.

Lemma show_nat_inj n n' : show_nat n = show_nat n' -> n = n'.
Proof.
  unfold show_nat. intros H.
  apply DecimalNat.Unsigned.to_uint_inj.
  assert (Hu : NilZero.uint_of_string (NilZero.string_of_uint (Nat.to_uint n))
               = NilZero.uint_of_string (NilZero.string_of_uint (Nat.to_uint n')))
    by now rewrite H.
  rewrite !NilZero.usu in Hu by apply to_uint_nonnil.
  congruence.
Qed.

(** Two strings that agree after a run of characters other than [_]
    and a [_] have the same run. *)
Lemma split_at_underscore (a b : list ascii) (r r' : string) :
  Forall (fun c => c <> "_"%char) a -> Forall (fun c => c <> "_"%char) b ->
  string_of_list_ascii a ++ String "_" r = string_of_list_ascii b ++ String "_" r' ->
  a = b.
Proof.
  intros Ha. revert b. induction Ha as [|x a Hx Ha IH]; intros b Hb H.
  - destruct Hb as [|y b Hy Hb]; [reflexivity|].
    cbn in H. injection H as H _. congruence.
  - destruct Hb as [|y b Hy Hb].
    + cbn in H. injection H as H _. congruence.
    + cbn [string_of_list_ascii] in H. rewrite !ChunkerSpec.append_cons in H.
      injection H as -> H. f_equal. now apply IH.
Qed.

Lemma string_of_chars s : string_of_list_ascii (list_ascii_of_string s) = s.
Proof. apply string_of_list_ascii_of_string. Qed.

Lemma job_key_inj n t n' t' : job_key n t = job_key n' t' -> n = n'.
Proof.
  unfold job_key. intros H.
  change ("job_" ++ show_nat n ++ "_" ++ show_Z t)
    with (String "j" (String "o" (String "b" (String "_"
            (show_nat n ++ String "_" (show_Z t)))))) in H.
  change ("job_" ++ show_nat n' ++ "_" ++ show_Z t')
    with (String "j" (String "o" (String "b" (String "_"
            (show_nat n' ++ String "_" (show_Z t')))))) in H.
  injection H as H.
  rewrite <- (string_of_chars (show_nat n)), <- (string_of_chars (show_nat n')) in H.
  apply split_at_underscore in H; try apply show_nat_no_underscore.
  apply show_nat_inj.
  rewrite <- (string_of_chars (show_nat n)), <- (string_of_chars (show_nat n')).
  now rewrite H.
Qed.

Lemma well_keyed_same_jobs m m' :
  (forall key, is_Some (jobs m' !! key) -> is_Some (jobs m !! key)) ->
  (jobId m <= jobId m')%nat ->
  well_keyed m -> well_keyed m'.
Proof.
  intros Hdom Hid Hw key j Hj.
  destruct (Hdom key (mk_is_Some _ _ Hj)) as [j0 Hj0].
  destruct (Hw key j0 Hj0) as (n & t & -> & Hn).
  exists n, t. split; [reflexivity | lia].
Qed.

Lemma perform_domain key m c k :
  is_Some (jobs (perform clock key m c) !! k) -> is_Some (jobs m !! k).
Proof.
  destruct c as [u | msg l | p msg]; cbn [perform].
  - unfold updateJob. destruct (jobs m !! key) as [j|] eqn:Hj; [|trivial].
    destruct (u_status u) as [st|]; [destruct (is_terminal st)|]; cbn;
      (destruct (decide (k = key)) as [->|Hne];
       [intros _; now rewrite Hj | now rewrite lookup_insert_ne by congruence]).
  - unfold addJobLog. destruct (jobs m !! key) as [j|] eqn:Hj; [|trivial]. cbn.
    destruct (decide (k = key)) as [->|Hne];
      [intros _; now rewrite Hj | now rewrite lookup_insert_ne by congruence].
  - unfold updateProgress. destruct (jobs m !! key) as [j|] eqn:Hj; [|trivial].
    destruct msg as [msg|]; [destruct (Chunker.truthy msg)|].
    + unfold addJobLog. cbn. rewrite lookup_insert_eq. cbn.
      destruct (decide (k = key)) as [->|Hne];
        [intros _; now rewrite Hj | now rewrite !lookup_insert_ne by congruence].
    + cbn. destruct (decide (k = key)) as [->|Hne];
        [intros _; now rewrite Hj | now rewrite lookup_insert_ne by congruence].
    + cbn. destruct (decide (k = key)) as [->|Hne];
        [intros _; now rewrite Hj | now rewrite lookup_insert_ne by congruence].
Qed.

Lemma perform_jobId key m c : jobId (perform clock key m c) = jobId m.
Proof.
  destruct c as [u | msg l | p msg]; cbn [perform].
  - unfold updateJob. destruct (jobs m !! key); [|reflexivity].
    destruct (u_status u) as [st|]; [destruct (is_terminal st)|]; reflexivity.
  - unfold addJobLog. destruct (jobs m !! key); reflexivity.
  - unfold updateProgress. destruct (jobs m !! key); [|reflexivity].
    destruct msg as [msg|]; [destruct (Chunker.truthy msg)|]; try reflexivity.
    unfold addJobLog. cbn. now rewrite lookup_insert_eq.
Qed.

Lemma fold_perform_keyed key cs :
  forall m, well_keyed m -> well_keyed (fold_left (perform clock key) cs m).
Proof.
  induction cs as [|c cs IH]; intros m Hw; [exact Hw|].
  cbn [fold_left]. apply IH.
  eapply well_keyed_same_jobs; [apply perform_domain | | exact Hw].
  now rewrite perform_jobId.
Qed.

(** X12. Job ids never collide. In a registry whose ids all come from
    [createJob], a new job gets an id no registered job has, whatever
    the clock reads: every job registered before is still registered,
    unchanged, and the registry has one job more. Such a registry stays
    one under [createJob], [updateJob], [addJobLog], [updateProgress],
    [cleanupOldJobs] and [runIndexJob]. *)
Theorem createJob_fresh_id (type pid : string) (p : params) (m : manager) :
  well_keyed m ->
  let j := (createJob clock type pid p m).1 in
  let m' := (createJob clock type pid p m).2 in
  jobs m !! id j = None /\
  jobs m' !! id j = Some j /\
  (forall key j0, jobs m !! key = Some j0 -> jobs m' !! key = Some j0) /\
  size (jobs m') = S (size (jobs m)) /\
  well_keyed m' /\
  (forall key c, well_keyed (perform clock key m c)) /\
  (forall maxAge, well_keyed (cleanupOldJobs clock maxAge m).2) /\
  (forall key wired w dir projectId excl deltaOnly s,
     well_keyed (runIndexJob clock key wired w dir projectId excl deltaOnly s m).1.1).
Proof.
  intros Hw j m'.
  assert (Hfresh : jobs m !! id j = None).
  { destruct (jobs m !! id j) as [j0|] eqn:E; [|reflexivity].
    destruct (Hw _ _ E) as (n & t & Hkey & Hn).
    subst j. cbn [createJob fst id] in Hkey.
    change ("job_" ++ show_nat (S (jobId m)) ++ "_" ++ show_Z (clock (clock_reads m)))
      with (job_key (S (jobId m)) (clock (clock_reads m))) in Hkey.
    apply job_key_inj in Hkey. lia. }
  split; [exact Hfresh|].
  split; [subst j m'; cbn; apply lookup_insert_eq|].
  split.
  { intros key j0 Hj0. subst m'. cbn [createJob snd jobs].
    rewrite lookup_insert_ne; [exact Hj0|]. intros Heq.
    subst j. cbn [createJob fst id] in Hfresh. rewrite Heq in Hfresh. congruence. }
  split.
  { subst m'. cbn [createJob snd jobs]. apply map_size_insert_None.
    subst j. exact Hfresh. }
  split.
  { intros key j0 Hj0. subst m'. cbn [createJob snd jobs jobId] in *.
    apply lookup_insert_Some in Hj0 as [[<- _] | [_ Hj0]].
    - exists (S (jobId m)), (clock (clock_reads m)). split; [reflexivity | lia].
    - destruct (Hw _ _ Hj0) as (n & t & -> & Hn). exists n, t. split; [reflexivity | lia]. }
  split.
  { intros key c. eapply well_keyed_same_jobs; [apply perform_domain | | exact Hw].
    now rewrite perform_jobId. }
  split.
  { intros maxAge. eapply well_keyed_same_jobs; [| | exact Hw]; [|reflexivity].
    intros key [j0 Hj0]. cbn [cleanupOldJobs snd jobs] in Hj0.
    apply map_lookup_filter_Some in Hj0 as [Hj0 _]. eauto. }
  intros key wired w dir projectId excl deltaOnly s. unfold runIndexJob.
  destruct (jobs m !! key); [|exact Hw].
  cbn [fst]. now apply fold_perform_keyed.
Qed.


(** *** Unknown ids *)

(** X13. An id that is not registered: [getJob] finds nothing,
    [updateJob] returns [null], [addJobLog] and [updateProgress] do
    nothing, and [runIndexJob] throws [Job not found] before it marks
    anything or calls the indexer: the registry and the store are as
    they were. *)
Theorem unknown_job_id (key : string) (m : manager) :
  jobs m !! key = None ->
  getJob key m = None /\
  (forall u, updateJob clock key u m = (None, m)) /\
  (forall msg l, addJobLog clock key msg l m = m) /\
  (forall p msg, updateProgress clock key p msg m = m) /\
  (forall wired w dir pid excl deltaOnly s,
     runIndexJob clock key wired w dir pid excl deltaOnly s m
     = (m, s, Throw "Job not found")).
Proof.
  intros H. unfold getJob, updateJob, addJobLog, updateProgress, runIndexJob.
  rewrite H. repeat split.
Qed.

(** *** Listings *)

Lemma newer_first_trans : Transitive newer_first.
Proof. intros a b c. unfold newer_first. lia. Qed.

Lemma newer_first_total : Total newer_first.
Proof. intros a b. unfold newer_first. lia. Qed.

Lemma registered_values (m : manager) j :
  j ∈ (map_to_list (jobs m)).*2 <-> exists key, jobs m !! key = Some j.
Proof.
  rewrite list_elem_of_fmap. split.
  - intros ([k x] & -> & Hin). apply elem_of_map_to_list in Hin. eauto.
  - intros [k Hk]. exists (k, j). split; [reflexivity|]. now apply elem_of_map_to_list.
Qed.

Lemma getActiveJobs_elem (m : manager) j :
  j ∈ getActiveJobs m <->
  (exists key, jobs m !! key = Some j) /\
  (job_status j = pending \/ job_status j = running).
Proof.
  unfold getActiveJobs.
  rewrite list_elem_of_In, filter_In, <- list_elem_of_In, registered_values.
  rewrite orb_true_iff, !bool_decide_eq_true. reflexivity.
Qed.

(** X14. [getAllJobs] returns every registered job once, newest start
    time first; [getActiveJobs] returns exactly the registered jobs that
    are pending or running. *)
Theorem job_listings (m : manager) :
  getAllJobs m ≡ₚ (map_to_list (jobs m)).*2 /\
  length (getAllJobs m) = size (jobs m) /\
  StronglySorted (fun a b => startTime b <= startTime a) (getAllJobs m) /\
  (forall j, j ∈ getAllJobs m <-> exists key, jobs m !! key = Some j) /\
  (forall j, j ∈ getActiveJobs m <->
     (exists key, jobs m !! key = Some j) /\
     (job_status j = pending \/ job_status j = running)).
Proof.
  assert (Hperm : getAllJobs m ≡ₚ (map_to_list (jobs m)).*2)
    by apply merge_sort_Permutation.
  split; [exact Hperm|].
  split; [now rewrite Hperm, length_fmap, length_map_to_list|].
  split.
  { apply (@StronglySorted_merge_sort _ newer_first _ newer_first_trans newer_first_total). }
  split; [intros j; now rewrite Hperm, registered_values|].
  apply getActiveJobs_elem.
Qed.

(** *** Progress reports *)

(** X15. [updateProgress] stores the percentage clamped to the range 0
    to 100, a percentage in range as it is, and touches neither the
    status nor the end time. A non-empty message is logged once, at
    level [info]; without message the logs are left alone. *)
Theorem updateProgress_clamps (key : string) (p : Q) (msg : option string)
    (m : manager) (j : job) :
  jobs m !! key = Some j ->
  exists j', jobs (updateProgress clock key p msg m) !! key = Some j' /\
    progress j' = clamp p /\
    (inject_Z 0 <= progress j' <= inject_Z 100)%Q /\
    ((inject_Z 0 <= p <= inject_Z 100)%Q -> (progress j' == p)%Q) /\
    job_status j' = job_status j /\ endTime j' = endTime j /\
    match msg with
    | Some text =>
        if Chunker.truthy text
        then exists e, label e = (text, Indexer.info) /\
                       logs j' = push_log e (logs j)
        else logs j' = logs j
    | None => logs j' = logs j
    end.
Proof.
  intros Hj.
  assert (Hrange : (inject_Z 0 <= clamp p <= inject_Z 100)%Q)
    by (split; [apply clamp_ge_0 | apply clamp_le_100]).
  assert (Hid : (inject_Z 0 <= p <= inject_Z 100)%Q -> (clamp p == p)%Q).
  { intros [H0 H100]. unfold clamp.
    rewrite (Q.max_r _ _ H0). now apply Q.min_r. }
  unfold updateProgress. rewrite Hj.
  destruct msg as [text|]; [destruct (Chunker.truthy text)|].
  - unfold addJobLog. cbn. rewrite lookup_insert_eq. cbn.
    eexists. split; [apply lookup_insert_eq|]. cbn.
    repeat split; try apply Hrange; try exact Hid.
    eexists. split; [|reflexivity]. reflexivity.
  - cbn. eexists. split; [apply lookup_insert_eq|]. cbn.
    repeat split; try apply Hrange; exact Hid.
  - cbn. eexists. split; [apply lookup_insert_eq|]. cbn.
    repeat split; try apply Hrange; exact Hid.
Qed.

(** *** What a finished run leaves on the job *)

Lemma update_lookup key u m j :
  jobs m !! key = Some j ->
  jobs (perform clock key m (UpdateJob u)) !! key
  = Some (match u_status u with
          | Some st => if is_terminal st
                       then set_end (clock (clock_reads m)) (assign j u)
                       else assign j u
          | None => assign j u
          end).
Proof.
  intros Hj. cbn [perform]. unfold updateJob. rewrite Hj.
  destruct (u_status u) as [st|]; [destruct (is_terminal st)|]; cbn;
    apply lookup_insert_eq.
Qed.

Lemma same_record_refl j : same_record j j.
Proof. unfold same_record. repeat split. Qed.

Lemma same_record_trans j1 j2 j3 :
  same_record j1 j2 -> same_record j2 j3 -> same_record j1 j3.
Proof. unfold same_record. intros H1 H2. repeat split; firstorder congruence. Qed.

Lemma quiet_same_record key c m j :
  quiet c -> jobs m !! key = Some j ->
  exists j', jobs (perform clock key m c) !! key = Some j' /\ same_record j j'.
Proof.
  intros Hq Hj. destruct c as [u | msg l | p msg]; [contradiction| |]; cbn [perform].
  - unfold addJobLog. rewrite Hj. cbn.
    eexists. split; [apply lookup_insert_eq|]. unfold same_record. cbn. repeat split.
  - unfold updateProgress. rewrite Hj.
    destruct msg as [msg|]; [destruct (Chunker.truthy msg)|].
    + unfold addJobLog. cbn. rewrite lookup_insert_eq. cbn.
      eexists. split; [apply lookup_insert_eq|]. unfold same_record. cbn. repeat split.
    + cbn. eexists. split; [apply lookup_insert_eq|]. unfold same_record. cbn. repeat split.
    + cbn. eexists. split; [apply lookup_insert_eq|]. unfold same_record. cbn. repeat split.
Qed.

Lemma quiet_fold_same_record key cs :
  Forall quiet cs ->
  forall m j, jobs m !! key = Some j ->
    exists j', jobs (fold_left (perform clock key) cs m) !! key = Some j' /\
               same_record j j'.
Proof.
  induction 1 as [|c cs Hc _ IH]; intros m j Hj; cbn [fold_left].
  - exists j. split; [exact Hj | apply same_record_refl].
  - destruct (quiet_same_record key c m j Hc Hj) as (j1 & Hj1 & H1).
    destruct (IH _ _ Hj1) as (j2 & Hj2 & H2).
    exists j2. split; [exact Hj2 | eapply same_record_trans; eassumption].
Qed.

Lemma closing_calls_update (r : outcome Indexer.index_result) :
  exists qs,
    closing_calls r
    = UpdateJob (match r with
                 | Ok res => mark_completed res
                 | Throw msg => mark_failed msg
                 end) :: qs /\
    Forall quiet qs.
Proof.
  destruct r as [res|msg]; cbn [closing_calls app]; eexists; (split; [reflexivity|]).
  - repeat constructor. destruct (Indexer.deltaStats res); repeat constructor.
  - repeat constructor.
Qed.

(** X16. What [runIndexJob] leaves on a job made by [createJob]. The
    caller gets what the indexer returned or threw. The job keeps its
    id, type, project, parameters and start time, has an end time and
    the duration between the two, and is not active any more. After a
    run that returned, it holds the result, no error, and the statistics
    of the result, with [filesTotal] falling back on [filesProcessed]
    when it is 0; after a run that threw, it holds the message, no
    result, and the statistics it was created with. *)
Theorem finished_job_record (type pid : string) (p : params) (m0 : manager)
    (wired : bool) (w : Indexer.World) (dir projectId : string)
    (excl : list string) (deltaOnly : bool) (s : Store.store) :
  let j0 := (createJob clock type pid p m0).1 in
  let m1 := (createJob clock type pid p m0).2 in
  let run := Indexer.indexDirectory w dir projectId excl deltaOnly wired s in
  let out := runIndexJob clock (id j0) wired w dir projectId excl deltaOnly s m1 in
  out.2 = run.2 /\ out.1.2 = Indexer.store run.1 /\
  exists jf e, jobs out.1.1 !! id j0 = Some jf /\
    id jf = id j0 /\ Jobs.type jf = type /\ Jobs.projectId jf = pid /\
    job_params jf = p /\ startTime jf = startTime j0 /\
    endTime jf = Some e /\ duration jf = Some (e - startTime j0) /\
    (jf ∉ getActiveJobs out.1.1) /\
    match run.2 with
    | Ok r =>
        job_status jf = completed /\ result jf = Some r /\ error jf = None /\
        job_stats jf =
          {| filesTotal := if Nat.eqb (Indexer.filesTotal r) 0
                           then Indexer.filesProcessed r else Indexer.filesTotal r;
             filesProcessed := Indexer.filesProcessed r;
             chunksIndexed := Indexer.chunksIndexed r;
             deltaStats := Indexer.deltaStats r |}
    | Throw msg =>
        job_status jf = failed /\ result jf = None /\ error jf = Some msg /\
        job_stats jf = job_stats j0
    end.
Proof.
  intros j0 m1 run out.
  assert (Hj0 : jobs m1 !! id j0 = Some j0) by (subst j0 m1; cbn; apply lookup_insert_eq).
  assert (Htruthy : Chunker.truthy (id j0) = true) by reflexivity.
  subst out. rewrite (runIndexJob_unfold clock _ _ _ _ _ _ _ _ _ _ Hj0).
  cbn zeta. rewrite Htruthy. cbn [andb fst snd]. fold run.
  split; [reflexivity|]. split; [reflexivity|].
  unfold run_calls. cbn [fold_left]. rewrite fold_left_app.
  pose proof (update_lookup (id j0) mark_running m1 j0 Hj0) as Hj1.
  cbn [mark_running u_status is_terminal] in Hj1.
  set (ma := perform clock (id j0) m1 (UpdateJob mark_running)) in *.
  destruct (quiet_fold_same_record (id j0) _ (forward_quiet (Indexer.sink run.1)) ma _ Hj1)
    as (jb & Hjb & Hsb).
  set (mb := fold_left (perform clock (id j0)) (flat_map forward (Indexer.sink run.1)) ma) in *.
  destruct Hsb as (B1 & B2 & B3 & B4 & B5 & B6 & B7 & B8 & B9 & B10 & B11).
  cbn in B1, B2, B3, B4, B5, B6, B7, B8, B9, B10, B11.
  destruct (closing_calls_update run.2) as (qs & Hclose & Hq). rewrite Hclose.
  cbn [fold_left].
  pose proof (update_lookup (id j0)
                (match run.2 with
                 | Ok res => mark_completed res
                 | Throw msg => mark_failed msg
                 end) mb jb Hjb) as Hjc.
  set (mc := perform clock (id j0) mb _) in *.
  destruct (quiet_fold_same_record (id j0) _ Hq mc _ Hjc) as (jf & Hjf & Hsf).
  exists jf, (clock (clock_reads mb)).
  split; [exact Hjf|].
  destruct Hsf as (F1 & F2 & F3 & F4 & F5 & F6 & F7 & F8 & F9 & F10 & F11).
  assert (Hid0 : id j0 = "job_" ++ show_nat (S (jobId m0)) ++ "_"
                         ++ show_Z (clock (clock_reads m0))) by reflexivity.
  assert (Hst0 : startTime j0 = clock (S (clock_reads m0))) by reflexivity.
  assert (Hstats0 : job_stats j0 = {| filesTotal := 0; filesProcessed := 0;
                                      chunksIndexed := 0; deltaStats := None |})
    by reflexivity.
  destruct run.2 as [r|msg];
    cbn in F1, F2, F3, F4, F5, F6, F7, F8, F9, F10, F11;
    repeat (split; [congruence|]);
    (split; [rewrite getActiveJobs_elem; intros [_ [H|H]]; congruence|]);
    repeat split; congruence.
Qed.

(** *** Garbage collection *)


End Registry.

Lemma createJob_fresh_id_witness :
  let j := (createJob Z.of_nat "index" "p" {| directoryPath := "/d"; excludePatterns := [] |}
              created.2).1 in
  jobs created.2 !! id j = None.
Proof.
  assert (Hw : well_keyed created.2).
  { intros key j Hj. unfold created in Hj. cbn [createJob snd jobs new_manager] in Hj.
    apply lookup_insert_Some in Hj as [[<- _] | [_ Hj]].
    - exists 1%nat, 0. split; [reflexivity | cbn; lia].
    - rewrite lookup_empty in Hj. discriminate. }
  exact (proj1 (createJob_fresh_id Z.of_nat "index" "p"
                  {| directoryPath := "/d"; excludePatterns := [] |} created.2 Hw)).
Defined.

Lemma unknown_job_id_witness :
  runIndexJob Z.of_nat "job_9_9" true empty_dir "/d" "p" [] false Store.empty_store
    new_manager
  = (new_manager, Store.empty_store, Throw "Job not found").
Proof.
  assert (H : jobs new_manager !! "job_9_9" = None) by apply lookup_empty.
  destruct (unknown_job_id Z.of_nat "job_9_9" new_manager H) as (_ & _ & _ & _ & Hrun).
  apply Hrun.
Defined.

Lemma updateProgress_clamps_witness :
  exists j', jobs (updateProgress Z.of_nat (id created.1) (inject_Z 150) None created.2)
               !! id created.1 = Some j' /\
             progress j' = clamp (inject_Z 150).
Proof.
  assert (H : jobs created.2 !! id created.1 = Some created.1)
    by (unfold created; cbn; apply lookup_insert_eq).
  destruct (updateProgress_clamps Z.of_nat (id created.1) (inject_Z 150) None
              created.2 created.1 H) as (j' & Hj' & Hp & _).
  exists j'. split; [exact Hj' | exact Hp].
Defined.

End RegistrySpec.

(** ** The fallback seed and the recent logs *)
Module EmbeddingSpec.
Import Embedding.

Lemma to_int32_range z : - 2 ^ 31 <= to_int32 z < 2 ^ 31.
Proof.
  unfold to_int32.
  pose proof (Z.mod_pos_bound (z + 2 ^ 31) (2 ^ 32) ltac:(lia)). lia.
Qed.

Lemma to_int32_small z : - 2 ^ 31 <= z < 2 ^ 31 -> to_int32 z = z.
Proof.
  intros Hz. unfold to_int32. rewrite Z.mod_small by lia. lia.
Qed.

Lemma to_int32_congr a b : (a - b) mod 2 ^ 32 = 0 -> to_int32 a = to_int32 b.
Proof.
  intros H. unfold to_int32. f_equal.
  apply Z.mod_divide in H; [|lia]. destruct H as [k Hk].
  replace (a + 2 ^ 31) with (b + 2 ^ 31 + k * 2 ^ 32) by lia.
  apply Z.mod_add. lia.
Qed.

Lemma to_int32_diff z : (to_int32 z - z) mod 2 ^ 32 = 0.
Proof.
  unfold to_int32.
  rewrite (Z.mod_eq (z + 2 ^ 31) (2 ^ 32)) by lia.
  replace (z + 2 ^ 31 - 2 ^ 32 * ((z + 2 ^ 31) / 2 ^ 32) - 2 ^ 31 - z)
    with ((- ((z + 2 ^ 31) / 2 ^ 32)) * 2 ^ 32) by lia.
  apply Z.mod_mul. lia.
Qed.

Lemma hash_step_closed h c : hash_step h c = to_int32 (31 * h + charCodeAt c).
Proof.
  unfold hash_step. cbn zeta. rewrite Z.land_diag.
  apply to_int32_congr.
  rewrite Z.shiftl_mul_pow2 by lia.
  pose proof (to_int32_diff h) as H1.
  pose proof (to_int32_diff (to_int32 h * 2 ^ 5)) as H2.
  apply Z.mod_divide in H1; [|lia]. destruct H1 as [k1 Hk1].
  apply Z.mod_divide in H2; [|lia]. destruct H2 as [k2 Hk2].
  replace (to_int32 (to_int32 h * 2 ^ 5) - h + charCodeAt c - (31 * h + charCodeAt c))
    with ((k2 + 32 * k1) * 2 ^ 32) by lia.
  apply Z.mod_mul. lia.
Qed.

Lemma hash_fold l : forall a b,
  (a - b) mod 2 ^ 32 = 0 ->
  fold_left hash_step l (to_int32 a)
  = to_int32 (fold_left (fun acc c => 31 * acc + charCodeAt c) l b).
Proof.
  induction l as [|c l IH]; intros a b Hab; cbn [fold_left].
  - now apply to_int32_congr.
  - rewrite hash_step_closed. apply IH.
    pose proof (to_int32_diff a) as H1.
    apply Z.mod_divide in H1; [|lia]. destruct H1 as [k1 Hk1].
    apply Z.mod_divide in Hab; [|lia]. destruct Hab as [k2 Hk2].
    replace (31 * to_int32 a + charCodeAt c - (31 * b + charCodeAt c))
      with ((31 * k1 + 31 * k2) * 2 ^ 32) by lia.
    apply Z.mod_mul. lia.
Qed.

(** X24. [hashString] is the polynomial hash of base 31 on 32 bits: the
    signed 32-bit integer congruent to the code units read as a number
    in base 31. It is 0 for the empty string, lies in the signed 32-bit
    range, and hashing a text followed by one more character takes one
    more step from the hash of the text. *)
Theorem hashString_base31 (str : string) :
  hashString str = to_int32 (base31 str) /\
  - 2 ^ 31 <= hashString str < 2 ^ 31 /\
  hashString "" = 0 /\
  forall c, hashString (str ++ String c "")
            = to_int32 (31 * hashString str + charCodeAt c).
Proof.
  assert (Hclosed : forall s, hashString s = to_int32 (base31 s)).
  { intros s. unfold hashString, base31.
    rewrite <- (to_int32_small 0) at 1 by lia.
    apply hash_fold. reflexivity. }
  split; [apply Hclosed|]. split; [rewrite Hclosed; apply to_int32_range|].
  split; [reflexivity|].
  intros c. unfold hashString.
  rewrite ChunkerSpec.chars_append, fold_left_app. cbn [list_ascii_of_string fold_left].
  apply hash_step_closed.
Qed.

End EmbeddingSpec.

Module LoggerSpec.
Import Logger.

Lemma slice_from_last {A} (l : list A) (n : Z) :
  0 < n -> slice_from l (- n) = drop (length l - Z.to_nat n) l.
Proof.
  intros Hn. unfold slice_from.
  destruct (Z.ltb_spec (- n) 0) as [_|]; [|lia].
  f_equal. lia.
Qed.

(** X25. [getRecentLogs] returns the last [lines] non-empty lines of the
    log file, all of them when there are fewer, in the order of the
    file; asked for 0 lines it returns them all, and it returns nothing
    when the file cannot be read. *)
Theorem getRecentLogs_last_lines (file : outcome string) (lines : option Z) :
  let n := default 100 lines in
  match file with
  | Throw _ => getRecentLogs file lines = []
  | Ok content =>
      let allLines := List.filter (fun line => 0 <? strlen line)
                        (Chunker.split_lines (Chunker.trim content)) in
      Forall (fun line => line <> "") (getRecentLogs file lines) /\
      (0 < n ->
         getRecentLogs file lines = drop (length allLines - Z.to_nat n) allLines /\
         Z.of_nat (length (getRecentLogs file lines))
         = Z.min n (Z.of_nat (length allLines))) /\
      (n = 0 -> getRecentLogs file lines = allLines)
  end.
Proof.
  intros n. destruct file as [content|msg]; [|reflexivity].
  intros allLines. unfold getRecentLogs. fold allLines.
  replace (match lines with Some n0 => n0 | None => 100 end) with n
    by (subst n; now destruct lines).
  split; [|split].
  - unfold slice_from. apply Forall_drop.
    apply Forall_forall. intros line Hin.
    apply list_elem_of_In, filter_In in Hin as [_ Hlen].
    intros ->. discriminate Hlen.
  - intros Hn. rewrite slice_from_last by exact Hn.
    split; [reflexivity|]. rewrite length_drop. lia.
  - intros ->. unfold slice_from. cbn [Z.opp Z.ltb Z.compare].
    rewrite Z.min_l by lia. reflexivity.
Qed.

End LoggerSpec.
